(** * Mass-spring solver core (blender/physics/intern/BPH_mass_spring.cpp)

    A shallow embedding of the cloth and strand orchestration code of
    BPH_mass_spring.cpp, and the properties of it that the specification
    states, followed by further properties read off the code: solver
    set-up, constraint set-up, result aggregation, the loops of a
    substep, the hair grid and the strand solver.

    Numeric model.  C [float] values are embedded as rationals ([Q]).
    The loop variables of the two substep loops ([dt] and [step] of
    [BPH_cloth_solve], [dstep] and [step] of [BPH_strands_solve]) are
    computed as the source computes them, in IEEE 754 binary32 with
    round to nearest, ties to even ([float32_round]), because their
    rounding decides how many passes the loops make.  Every other
    arithmetic operation of the source is the corresponding exact
    operation: the rounding of positions, velocities, impulses and
    averages is outside the model, and so are infinities, NaN and
    division by zero (which [Q] maps to 0).  Equalities between
    computed values are stated up to [Qeq] ([==]), component-wise on
    vectors ([veq]).  C [int] values are embedded in [Z]; where the
    source does arithmetic on an [int] accumulator the 32-bit
    wrap-around is written out ([wrap_int]).

    Absent code.  The solver back end (BPH_mass_spring_* in implicit.h),
    the collision collaborator (BKE_collision.h) and the math helpers
    (BLI_math.h) are used by the file but not part of it.  Constants and
    collaborator functions are parameters of the development; the
    storage accessors of the back end are modelled from the
    specification, each marked as such; the hair volume grid is
    represented by the calls made on it. *)

From Stdlib Require Import ZArith QArith Qpower Qround Qminmax Lqa Lia Bool List.
From stdpp Require Import base list.
Import ListNotations.

Local Open Scope Z_scope.

(** ** Machine integers *)

Definition INT_MAX : Z := 2147483647.
Definition INT_MIN : Z := -2147483648.

(** Two's-complement reduction of a mathematical integer to [int]. *)
Definition wrap_int (z : Z) : Z := (z + 2147483648) mod 4294967296 - 2147483648.

(** Reduction to [unsigned int]. *)
Definition wrap_uint (z : Z) : Z := z mod 4294967296.

(** Modelled from the spec: [min_ii] of BLI_math_base (absent from the
    sources), the smaller of two ints. *)
Definition min_ii (a b : Z) : Z := if a <? b then a else b.

(** Modelled from the spec: [max_ii] of BLI_math_base (absent from the
    sources), the larger of two ints. *)
Definition max_ii (a b : Z) : Z := if b <? a then a else b.

(** A flag word tested against a mask, as in [flags & MASK]. *)
Definition has_flag (flags mask : Z) : bool := negb (Z.land flags mask =? 0).

(** ** Floats as rationals *)

Definition Qltb (a b : Q) : bool := negb (Qle_bool b a).

(** Modelled from the spec: [min_ff] of BLI_math_base (absent from the
    sources), the smaller of two floats. *)
Definition min_ff (a b : Q) : Q := if Qltb a b then a else b.

(** Modelled from the spec: [max_ff] of BLI_math_base (absent from the
    sources), "the larger of" two floats. *)
Definition max_ff (a b : Q) : Q := if Qltb b a then a else b.

(** Modelled from the spec: the [CLAMP(a, b, c)] macro of
    BLI_utildefines.h (absent from the sources): [a] is raised to [b]
    when below it, otherwise lowered to [c] when above it. *)
Definition CLAMP (a b c : Q) : Q :=
  if Qltb a b then b else if Qltb c a then c else a.

(** ** Binary32 rounding *)

(** The loop variables of the two substep loops are C [float]s that
    are added to in every pass and compared with the end of the
    frame, so their rounding decides how often the loops run.  They
    are computed in IEEE 754 binary32, round to nearest, ties to
    even, on the rationals: an operation is the exact operation
    followed by [float32_round].  Overflow to infinity is outside the
    model. *)

Definition pow2 (e : Z) : Q := Qpower 2 e.

(** [floor (log2 q)] for a positive [q]. *)
Definition float_exponent (q : Q) : Z :=
  let e0 := (Z.log2 (Qnum q) - Z.log2 (Zpos (Qden q)))%Z in
  if Qle_bool (pow2 e0) q then e0 else (e0 - 1)%Z.

(** The nearest integer, the even one of two that are equally near. *)
Definition round_half_even (x : Q) : Z :=
  let f := Qfloor x in
  match Qcompare (x - inject_Z f) (1 # 2) with
  | Lt => f
  | Gt => (f + 1)%Z
  | Eq => if Z.even f then f else (f + 1)%Z
  end.

(** A positive [q] rounded to 24 significant bits, with the exponent
    not below that of the least normal number (below it the spacing
    is that of the subnormal numbers). *)
Definition float32_round_pos (q : Q) : Q :=
  let e := Z.max (float_exponent q) (-126) in
  let u := (e - 23)%Z in
  (inject_Z (round_half_even (q / pow2 u)) * pow2 u)%Q.

Definition float32_round (q : Q) : Q :=
  let r := Qred q in
  match Qnum r with
  | Z0 => 0%Q
  | Zpos _ => Qred (float32_round_pos r)
  | Zneg _ => Qred (- float32_round_pos (- r))
  end.

(** [a + b] and [a / b] on C [float]s, and [(float)n] for an [int]. *)
Definition float_add (a b : Q) : Q := float32_round (a + b).
Definition float_div (a b : Q) : Q := float32_round (a / b).
Definition float_of_int (n : Z) : Q := float32_round (inject_Z n).

(** ** Vectors of three floats *)

Record vec3 : Type := mk_vec3 { vx : Q; vy : Q; vz : Q }.

Definition veq (a b : vec3) : Prop :=
  (vx a == vx b)%Q /\ (vy a == vy b)%Q /\ (vz a == vz b)%Q.

Definition mat3 : Type := (vec3 * vec3 * vec3)%type.

Section VectorMath.
Local Open Scope Q_scope.

Definition ZERO : vec3 := mk_vec3 0 0 0.

Definition I3 : mat3 := (mk_vec3 1 0 0, mk_vec3 0 1 0, mk_vec3 0 0 1).

(** Modelled from the spec: [sub_v3_v3v3] of BLI_math_vector (absent
    from the sources), the difference of two vectors ("relative
    velocity"). *)
Definition sub_v3_v3v3 (a b : vec3) : vec3 :=
  mk_vec3 (vx a - vx b) (vy a - vy b) (vz a - vz b).

(** Modelled from the spec: [dot_v3v3] of BLI_math_vector (absent),
    the dot product ("normal component"). *)
Definition dot_v3v3 (a b : vec3) : Q :=
  vx a * vx b + vy a * vy b + vz a * vz b.

(** Modelled from the spec: [mul_v3_v3fl] of BLI_math_vector
    (absent), a vector scaled by a float. *)
Definition mul_v3_v3fl (a : vec3) (f : Q) : vec3 :=
  mk_vec3 (vx a * f) (vy a * f) (vz a * f).

(** Modelled from the spec: [madd_v3_v3v3fl] of BLI_math_vector
    (absent), [a + b f] ("decompose relative velocity into
    normal/tangential components"). *)
Definition madd_v3_v3v3fl (a b : vec3) (f : Q) : vec3 :=
  mk_vec3 (vx a + vx b * f) (vy a + vy b * f) (vz a + vz b * f).

(** Modelled from the spec: [interp_v3_v3v3] of BLI_math_vector
    (absent), "linear interpolation": [(1 - t) a + t b]. *)
Definition interp_v3_v3v3 (a b : vec3) (t : Q) : vec3 :=
  let s := 1 - t in
  mk_vec3 (s * vx a + t * vx b) (s * vy a + t * vy b) (s * vz a + t * vz b).
End VectorMath.

(** ** Data model *)

(** [ClothSpring]: the fields read by the code embedded here. *)
Record ClothSpring : Type := mk_ClothSpring {
  spring_ij : Z;
  spring_kl : Z;
  spring_mn : Z;
  spring_type : Z
}.

(** [ClothVertex]: the fields read or written by the code embedded here. *)
Record ClothVertex : Type := mk_ClothVertex {
  vert_flags : Z;
  vert_v : vec3;
  vert_xconst : vec3;
  vert_x : vec3;
  vert_xold : vec3;
  vert_tx : vec3;
  vert_txold : vec3;
  vert_tv : vec3;
  vert_mass : Q;
  vert_impulse_count : Z
}.

(** A velocity constraint held by the solver: [ndof0] fixes all three
    components to the given velocity change, [ndof2] constrains along
    one direction and carries an impulse. *)
Inductive Constraint : Type :=
| ndof0 (index : Z) (dV : vec3)
| ndof2 (index : Z) (c1 : vec3) (dV : vec3).

(** [Implicit_Data], the solver state.  The structure lives in the
    absent back end; it is represented by what the specification says
    it owns: the vertex count and off-diagonal capacity it was created
    with, per-vertex mass, position, velocity, their post-solve "new"
    counterparts and rest transform, and the active constraints in the
    order they were added. *)
Record Implicit_Data : Type := mk_Implicit_Data {
  id_numverts : Z;
  id_nondiag : Z;
  id_M : Z -> Q;
  id_X : Z -> vec3;
  id_V : Z -> vec3;
  id_Xnew : Z -> vec3;
  id_Vnew : Z -> vec3;
  id_tfm : Z -> mat3;
  id_constraints : list Constraint
}.

(** [Cloth]: vertex array (its length is [numverts]), the linked list of
    springs, whether [bvhtree] is set, and the solver pointer ([None] is
    NULL). *)
Record Cloth : Type := mk_Cloth {
  cloth_verts : list ClothVertex;
  cloth_springs : list ClothSpring;
  cloth_has_bvhtree : bool;
  cloth_implicit : option Implicit_Data
}.

Definition cloth_numverts (cloth : Cloth) : Z := Z.of_nat (length (cloth_verts cloth)).

(** ** Solver back end, storage part *)

Definition upd {A : Type} (f : Z -> A) (i : Z) (a : A) : Z -> A :=
  fun j => if j =? i then a else f j.

(** Modelled from the spec: [BPH_mass_spring_solver_create] (absent):
    "allocate storage for N vertices and M off-diagonal interaction
    slots"; the storage starts zeroed. *)
Definition BPH_mass_spring_solver_create (numverts nondiag : Z) : Implicit_Data :=
  {| id_numverts := numverts; id_nondiag := nondiag;
     id_M := fun _ => 0%Q;
     id_X := fun _ => ZERO; id_V := fun _ => ZERO;
     id_Xnew := fun _ => ZERO; id_Vnew := fun _ => ZERO;
     id_tfm := fun _ => I3;
     id_constraints := [] |}.

(** Modelled from the spec: [BPH_mass_spring_solver_numvert] (absent):
    the vertex count the solver was created for. *)
Definition BPH_mass_spring_solver_numvert (id : Implicit_Data) : Z := id_numverts id.

(** Modelled from the spec: [BPH_mass_spring_set_vertex_mass] (absent);
    for this and the accessors below the specification says "expose
    get/set for per-vertex mass, position, velocity, and new
    (post-solve) position/velocity". *)
Definition BPH_mass_spring_set_vertex_mass (id : Implicit_Data) (i : Z) (m : Q) : Implicit_Data :=
  {| id_numverts := id_numverts id; id_nondiag := id_nondiag id;
     id_M := upd (id_M id) i m;
     id_X := id_X id; id_V := id_V id; id_Xnew := id_Xnew id; id_Vnew := id_Vnew id;
     id_tfm := id_tfm id; id_constraints := id_constraints id |}.

(** Modelled from the spec: [BPH_mass_spring_set_rest_transform]
    (absent), the per-vertex rest frame. *)
Definition BPH_mass_spring_set_rest_transform (id : Implicit_Data) (i : Z) (tfm : mat3) : Implicit_Data :=
  {| id_numverts := id_numverts id; id_nondiag := id_nondiag id;
     id_M := id_M id;
     id_X := id_X id; id_V := id_V id; id_Xnew := id_Xnew id; id_Vnew := id_Vnew id;
     id_tfm := upd (id_tfm id) i tfm; id_constraints := id_constraints id |}.

(** Modelled from the spec: [BPH_mass_spring_set_position] (absent),
    "set" for the per-vertex position. *)
Definition BPH_mass_spring_set_position (id : Implicit_Data) (i : Z) (x : vec3) : Implicit_Data :=
  {| id_numverts := id_numverts id; id_nondiag := id_nondiag id;
     id_M := id_M id;
     id_X := upd (id_X id) i x; id_V := id_V id; id_Xnew := id_Xnew id; id_Vnew := id_Vnew id;
     id_tfm := id_tfm id; id_constraints := id_constraints id |}.

(** Modelled from the spec: [BPH_mass_spring_set_velocity] (absent),
    "set" for the per-vertex velocity. *)
Definition BPH_mass_spring_set_velocity (id : Implicit_Data) (i : Z) (v : vec3) : Implicit_Data :=
  {| id_numverts := id_numverts id; id_nondiag := id_nondiag id;
     id_M := id_M id;
     id_X := id_X id; id_V := upd (id_V id) i v; id_Xnew := id_Xnew id; id_Vnew := id_Vnew id;
     id_tfm := id_tfm id; id_constraints := id_constraints id |}.

(** Modelled from the spec: [BPH_mass_spring_set_motion_state]
    (absent), position and velocity of a vertex set together. *)
Definition BPH_mass_spring_set_motion_state (id : Implicit_Data) (i : Z) (x v : vec3) : Implicit_Data :=
  BPH_mass_spring_set_velocity (BPH_mass_spring_set_position id i x) i v.

(** Modelled from the spec: [BPH_mass_spring_set_new_position]
    (absent), "set" for the post-solve position. *)
Definition BPH_mass_spring_set_new_position (id : Implicit_Data) (i : Z) (x : vec3) : Implicit_Data :=
  {| id_numverts := id_numverts id; id_nondiag := id_nondiag id;
     id_M := id_M id;
     id_X := id_X id; id_V := id_V id; id_Xnew := upd (id_Xnew id) i x; id_Vnew := id_Vnew id;
     id_tfm := id_tfm id; id_constraints := id_constraints id |}.

(** Modelled from the spec: [BPH_mass_spring_set_new_velocity]
    (absent), "set" for the post-solve velocity. *)
Definition BPH_mass_spring_set_new_velocity (id : Implicit_Data) (i : Z) (v : vec3) : Implicit_Data :=
  {| id_numverts := id_numverts id; id_nondiag := id_nondiag id;
     id_M := id_M id;
     id_X := id_X id; id_V := id_V id; id_Xnew := id_Xnew id; id_Vnew := upd (id_Vnew id) i v;
     id_tfm := id_tfm id; id_constraints := id_constraints id |}.

(** Modelled from the spec: [BPH_mass_spring_get_position] and the
    position output of [BPH_mass_spring_get_motion_state] (absent),
    "get" for the per-vertex position. *)
Definition BPH_mass_spring_get_position (id : Implicit_Data) (i : Z) : vec3 := id_X id i.

(** Modelled from the spec: the velocity output of
    [BPH_mass_spring_get_motion_state] (absent), "get" for the
    per-vertex velocity. *)
Definition BPH_mass_spring_get_velocity (id : Implicit_Data) (i : Z) : vec3 := id_V id i.

(** Modelled from the spec: [BPH_mass_spring_get_new_position]
    (absent), "get" for the post-solve position. *)
Definition BPH_mass_spring_get_new_position (id : Implicit_Data) (i : Z) : vec3 := id_Xnew id i.

(** The constraint list of a solver replaced. *)
Definition set_constraints (id : Implicit_Data) (cs : list Constraint) : Implicit_Data :=
  {| id_numverts := id_numverts id; id_nondiag := id_nondiag id;
     id_M := id_M id;
     id_X := id_X id; id_V := id_V id; id_Xnew := id_Xnew id; id_Vnew := id_Vnew id;
     id_tfm := id_tfm id; id_constraints := cs |}.

(** Modelled from the spec: [BPH_mass_spring_clear_constraints]
    (absent), "clear all constraints". *)
Definition BPH_mass_spring_clear_constraints (id : Implicit_Data) : Implicit_Data :=
  set_constraints id [].

(** Modelled from the spec: [BPH_mass_spring_add_constraint_ndof0]
    (absent), "add a zero-degrees-of-freedom velocity constraint" for
    the vertex [index]. *)
Definition BPH_mass_spring_add_constraint_ndof0 (id : Implicit_Data) (index : Z) (dV : vec3) : Implicit_Data :=
  set_constraints id (id_constraints id ++ [ndof0 index dV]).

(** Modelled from the spec: [BPH_mass_spring_add_constraint_ndof2]
    (absent), "add a two-degrees-of-freedom constraint along the
    contact normal carrying an impulse vector" for the vertex [index]. *)
Definition BPH_mass_spring_add_constraint_ndof2 (id : Implicit_Data) (index : Z) (c1 dV : vec3) : Implicit_Data :=
  set_constraints id (id_constraints id ++ [ndof2 index c1 dV]).

(** Calls made to the allocator of the back end, in order. *)
Inductive AllocEvent : Type :=
| ev_create (numverts nondiag : Z)
| ev_free (id : Implicit_Data).

(** [ClothHairData]: only the root frame [rot] is read. *)
Record ClothHairData : Type := mk_ClothHairData { hair_rot : mat3 }.

(** [CollPair], a contact produced by the collision collaborator: the
    fields read by the code embedded here. *)
Record CollPair : Type := mk_CollPair {
  cp_face1 : Z;
  cp_ap1 : Z;
  cp_distance : Q;
  cp_normal : vec3;
  cp_flag : Z
}.

(** [ImplicitSolverResult], the report of one linear solve. *)
Record ImplicitSolverResult : Type := mk_ImplicitSolverResult {
  res_status : Z;
  res_iterations : Z;
  res_error : Q
}.

(** [ClothSolverResult], the per-frame aggregate. *)
Record ClothSolverResult : Type := mk_ClothSolverResult {
  sres_status : Z;
  sres_max_error : Q;
  sres_min_error : Q;
  sres_avg_error : Q;
  sres_max_iterations : Z;
  sres_min_iterations : Z;
  sres_avg_iterations : Q
}.

(** [ClothSimSettings] and [ClothCollSettings]: the fields read here. *)
Record ClothSimSettings : Type := mk_ClothSimSettings {
  sim_timescale : Q;
  sim_stepsPerFrame : Z;
  sim_flags : Z;
  sim_vel_damping : Q
}.

Record ClothCollSettings : Type := mk_ClothCollSettings { coll_flags : Z }.

(** Constants of the absent headers (BKE_cloth.h, BKE_collision.h,
    BPH_mass_spring.h, DNA_cloth_types.h).  Their values are not fixed;
    what a property needs of them is stated where it is used. *)
Class Constants : Type := {
  CLOTH_SPRING_TYPE_BENDING_ANG : Z;
  CLOTH_VERT_FLAG_PINNED : Z;
  CLOTH_SIMSETTINGS_FLAG_GOAL : Z;
  CLOTH_COLLSETTINGS_FLAG_ENABLED : Z;
  COLLISION_IN_FUTURE : Z;
  BPH_SOLVER_SUCCESS : Z;
  ALMOST_ZERO : Q
}.

(** Sample values (single-bit flags and [FLT_EPSILON], as in the
    Blender headers), for evaluating the code on concrete inputs. *)
Definition blender_constants : Constants := {|
  CLOTH_SPRING_TYPE_BENDING_ANG := 64;
  CLOTH_VERT_FLAG_PINNED := 1;
  CLOTH_SIMSETTINGS_FLAG_GOAL := 8;
  CLOTH_COLLSETTINGS_FLAG_ENABLED := 2;
  COLLISION_IN_FUTURE := 2;
  BPH_SOLVER_SUCCESS := 1;
  ALMOST_ZERO := 1 # 8388608
|}.

Section Setup.
Context `{Constants}.

(** ** Solver set-up *)

(** One pass of the loop body of [cloth_count_nondiag_blocks]:
    [nondiag += 3] for an angular bending spring, [nondiag += 1] for
    any other, on an [int] accumulator. *)
Definition count_nondiag_step (nondiag : Z) (spring : ClothSpring) : Z :=
  if spring_type spring =? CLOTH_SPRING_TYPE_BENDING_ANG
  then wrap_int (nondiag + 3)
  else wrap_int (nondiag + 1).

Definition cloth_count_nondiag_blocks (cloth : Cloth) : Z :=
  fold_left count_nondiag_step (cloth_springs cloth) 0.

Definition set_implicit (cloth : Cloth) (implicit : option Implicit_Data) : Cloth :=
  {| cloth_verts := cloth_verts cloth; cloth_springs := cloth_springs cloth;
     cloth_has_bvhtree := cloth_has_bvhtree cloth; cloth_implicit := implicit |}.

Definition set_verts (cloth : Cloth) (verts : list ClothVertex) : Cloth :=
  {| cloth_verts := verts; cloth_springs := cloth_springs cloth;
     cloth_has_bvhtree := cloth_has_bvhtree cloth; cloth_implicit := cloth_implicit cloth |}.

(** [cloth_solver_init_data]: returns the cloth with its solver
    pointer set, the solver returned, and the allocator calls made. *)
Definition cloth_solver_init_data (cloth : Cloth) : Cloth * Implicit_Data * list AllocEvent :=
  let totvert := cloth_numverts cloth in
  let '(implicit1, freed) :=
    match cloth_implicit cloth with
    | Some id =>
        if negb (totvert =? BPH_mass_spring_solver_numvert id)
        then (None, [ev_free id])
        else (Some id, [])
    | None => (None, [])
    end in
  match implicit1 with
  | None =>
      let nondiag := cloth_count_nondiag_blocks cloth in
      let id := BPH_mass_spring_solver_create totvert nondiag in
      (set_implicit cloth (Some id), id, freed ++ [ev_create totvert nondiag])
  | Some id => (set_implicit cloth (Some id), id, freed)
  end.

(** The vertex loop of [BPH_cloth_solver_init], from index [i] on. *)
Fixpoint solver_init_loop (i : Z) (verts : list ClothVertex) (id : Implicit_Data) : Implicit_Data :=
  match verts with
  | [] => id
  | vert :: rest =>
      let id1 := BPH_mass_spring_set_vertex_mass id i (vert_mass vert) in
      let id2 := BPH_mass_spring_set_motion_state id1 i (vert_x vert) ZERO in
      solver_init_loop (i + 1) rest id2
  end.

Definition BPH_cloth_solver_init (cloth : Cloth) : Cloth * list AllocEvent :=
  let '(cloth1, id, evs) := cloth_solver_init_data cloth in
  (set_implicit cloth1 (Some (solver_init_loop 0 (cloth_verts cloth1) id)), evs).

Definition BPH_cloth_solver_free (cloth : Cloth) : Cloth * list AllocEvent :=
  match cloth_implicit cloth with
  | Some id => (set_implicit cloth None, [ev_free id])
  | None => (cloth, [])
  end.

(** The vertex loop of [BPH_cloth_solver_set_positions], from index
    [i] on.  Reading [cloth_hairdata[i]] past the end of the hair
    data is undefined in C: the model stops with [None]. *)
Fixpoint set_positions_loop (hairdata : option (list ClothHairData)) (i : nat)
    (verts : list ClothVertex) (id : Implicit_Data) : option Implicit_Data :=
  match verts with
  | [] => Some id
  | vert :: rest =>
      match
        match hairdata with
        | Some hd =>
            match hd !! i with
            | Some root => Some (BPH_mass_spring_set_rest_transform id (Z.of_nat i) (hair_rot root))
            | None => None
            end
        | None => Some (BPH_mass_spring_set_rest_transform id (Z.of_nat i) I3)
        end
      with
      | Some id1 =>
          set_positions_loop hairdata (S i) rest
            (BPH_mass_spring_set_motion_state id1 (Z.of_nat i) (vert_x vert) (vert_v vert))
      | None => None
      end
  end.

Definition BPH_cloth_solver_set_positions (hairdata : option (list ClothHairData)) (cloth : Cloth)
    : option (Cloth * list AllocEvent) :=
  let '(cloth1, id, evs) := cloth_solver_init_data cloth in
  match set_positions_loop hairdata 0 (cloth_verts cloth1) id with
  | Some id' => Some (set_implicit cloth1 (Some id'), evs)
  | None => None
  end.

End Setup.

(** Collaborators outside the file: the collision modifier and its
    queries, and the numerical part of the solver back end.  They are
    parameters; properties hold for every choice of them unless a
    hypothesis says otherwise. *)
Class Collaborators : Type := {
  CollisionModifierData : Type;
  (** [BLI_bvhtree_getepsilon(collmd->bvhtree)] *)
  BLI_bvhtree_getepsilon : CollisionModifierData -> Q;
  (** [collision_get_collider_velocity], returning [(v2_old, v2_new)] *)
  collision_get_collider_velocity : CollisionModifierData -> CollPair -> vec3 * vec3;
  (** [cloth_bvh_objcollision(ob, clmd, step, dt)]: corrects the vertex
      array and says whether an extra solve is wanted *)
  cloth_bvh_objcollision : Cloth -> Q -> Q -> list ClothVertex * bool;
  (** the numerical steps of the back end, on the solver state *)
  BPH_mass_spring_clear_forces : Implicit_Data -> Implicit_Data;
  BPH_mass_spring_solve_velocities : Implicit_Data -> Q -> Implicit_Data * ImplicitSolverResult;
  BPH_mass_spring_solve_positions : Implicit_Data -> Q -> Implicit_Data;
  BPH_mass_spring_apply_result : Implicit_Data -> Implicit_Data;
  (** [cloth_calc_force(clmd, frame, effectors, time)] and
      [cloth_continuum_step(clmd, dt)]: both only drive the force and
      grid interface of the back end on the solver state of the cloth *)
  cloth_calc_force : Cloth -> Q -> Q -> Implicit_Data -> Implicit_Data;
  cloth_continuum_step : Cloth -> Q -> Implicit_Data -> Implicit_Data
}.

(** [ColliderContacts]: the contacts found on one collider. *)
Record ColliderContacts `{Collaborators} : Type := mk_ColliderContacts {
  ct_collmd : CollisionModifierData;
  ct_collisions : list CollPair
}.

(** [verts[index]] for a C [int] index: [None] outside the array. *)
Definition lookup_vert (verts : list ClothVertex) (index : Z) : option ClothVertex :=
  if index <? 0 then None else verts !! Z.to_nat index.

Definition set_impulse_count (vert : ClothVertex) (n : Z) : ClothVertex :=
  {| vert_flags := vert_flags vert; vert_v := vert_v vert; vert_xconst := vert_xconst vert;
     vert_x := vert_x vert; vert_xold := vert_xold vert; vert_tx := vert_tx vert;
     vert_txold := vert_txold vert; vert_tv := vert_tv vert; vert_mass := vert_mass vert;
     vert_impulse_count := n |}.

Section Constraints.
Context `{Constants} `{Collaborators}.
Local Open Scope Q_scope.

(** ** Collision response *)

(** [collision_response]: the returned flag and [r_impulse].  The
    velocity of vertex [collpair->ap1] is read only after the two
    early returns; reading outside the vertex array is undefined in C
    and gives [None].  The tangential components are computed as in
    the source, which does not use them. *)
Definition collision_response (cloth : Cloth) (collmd : CollisionModifierData)
    (collpair : CollPair) (dt restitution : Q) : option (bool * vec3) :=
  let index := cp_ap1 collpair in
  let epsilon2 := BLI_bvhtree_getepsilon collmd in
  let margin_distance := cp_distance collpair - epsilon2 in
  if Qltb 0 margin_distance then Some (false, ZERO)
  else if has_flag (cp_flag collpair) COLLISION_IN_FUTURE then Some (false, ZERO)
  else
    match lookup_vert (cloth_verts cloth) index with
    | None => None
    | Some vert =>
        let v1 := vert_v vert in
        let '(v2_old, v2_new) := collision_get_collider_velocity collmd collpair in
        let v_rel_old := sub_v3_v3v3 v1 v2_old in
        let v_rel_new := sub_v3_v3v3 v1 v2_new in
        let mag_v_rel := dot_v3v3 v_rel_old (cp_normal collpair) in
        if Qltb mag_v_rel (- ALMOST_ZERO) then
          let v_nor_old := mag_v_rel in
          let v_nor_new := dot_v3v3 v_rel_new (cp_normal collpair) in
          let v_tan_old := madd_v3_v3v3fl v_rel_old (cp_normal collpair) (- v_nor_old) in
          let v_tan_new := madd_v3_v3v3fl v_rel_new (cp_normal collpair) (- v_nor_new) in
          let bounce := - v_nor_old * restitution in
          let repulse := CLAMP (- margin_distance / dt) 0 (4 * bounce) in
          if Qltb margin_distance (- epsilon2) then
            Some (true, mul_v3_v3fl (cp_normal collpair) (max_ff repulse bounce - v_nor_new))
          else
            Some (true, mul_v3_v3fl (cp_normal collpair) (repulse - v_nor_new))
        else Some (false, ZERO)
    end.

(** ** Constraint set-up *)

(** First loop of [cloth_setup_constraints], from vertex [v] on: a
    zero-degrees-of-freedom constraint for each pinned vertex, and
    every [impulse_count] reset. *)
Fixpoint setup_pinned_loop (v : Z) (verts : list ClothVertex) (data : Implicit_Data)
    : Implicit_Data * list ClothVertex :=
  match verts with
  | [] => (data, [])
  | vert :: rest =>
      let data1 :=
        if has_flag (vert_flags vert) CLOTH_VERT_FLAG_PINNED
        then BPH_mass_spring_add_constraint_ndof0 data v ZERO
        else data in
      let '(data2, rest') := setup_pinned_loop (v + 1)%Z rest data1 in
      (data2, set_impulse_count vert 0 :: rest')
  end.

(** Body of the inner loop of [cloth_setup_constraints], for the
    contact [collpair] of collider number [i].  The state is the
    cloth: its vertices and its solver.  The vertex [v] is
    [collpair->face1]; the constraint is added with the loop counter
    [i] as its index, as the source has it. *)
Definition setup_contact (i : Z) (collmd : CollisionModifierData) (dt : Q)
    (cloth : Cloth) (data : Implicit_Data) (collpair : CollPair)
    : option (Cloth * Implicit_Data) :=
  let v := cp_face1 collpair in
  let restitution := 0 in
  match lookup_vert (cloth_verts cloth) v with
  | None => None
  | Some vert =>
      if has_flag (vert_flags vert) CLOTH_VERT_FLAG_PINNED then Some (cloth, data)
      else if (0 <? vert_impulse_count vert)%Z then Some (cloth, data)
      else
        match collision_response cloth collmd collpair dt restitution with
        | None => None
        | Some (false, _) => Some (cloth, data)
        | Some (true, impulse) =>
            Some (set_verts cloth
                    (<[Z.to_nat v := set_impulse_count vert (wrap_uint (vert_impulse_count vert + 1))]>
                       (cloth_verts cloth)),
                  BPH_mass_spring_add_constraint_ndof2 data i (cp_normal collpair) impulse)
        end
  end.

(** The inner loop over the contacts of collider [i]. *)
Fixpoint setup_contacts_loop (i : Z) (collmd : CollisionModifierData) (dt : Q)
    (collisions : list CollPair) (cloth : Cloth) (data : Implicit_Data)
    : option (Cloth * Implicit_Data) :=
  match collisions with
  | [] => Some (cloth, data)
  | collpair :: rest =>
      match setup_contact i collmd dt cloth data collpair with
      | Some (cloth', data') => setup_contacts_loop i collmd dt rest cloth' data'
      | None => None
      end
  end.

(** The outer loop over colliders, from collider number [i] on. *)
Fixpoint setup_colliders_loop (i : Z) (dt : Q) (contacts : list ColliderContacts)
    (cloth : Cloth) (data : Implicit_Data) : option (Cloth * Implicit_Data) :=
  match contacts with
  | [] => Some (cloth, data)
  | ct :: rest =>
      match setup_contacts_loop i (ct_collmd ct) dt (ct_collisions ct) cloth data with
      | Some (cloth', data') => setup_colliders_loop (i + 1)%Z dt rest cloth' data'
      | None => None
      end
  end.

(** [cloth_setup_constraints]; [contacts] holds [totcolliders]
    entries.  The solver pointer is dereferenced: a cloth without a
    solver gives [None]. *)
Definition cloth_setup_constraints (cloth : Cloth) (contacts : list ColliderContacts) (dt : Q)
    : option Cloth :=
  match cloth_implicit cloth with
  | None => None
  | Some data0 =>
      let data := BPH_mass_spring_clear_constraints data0 in
      let '(data1, verts1) := setup_pinned_loop 0 (cloth_verts cloth) data in
      match setup_colliders_loop 0 dt contacts (set_verts cloth verts1) data1 with
      | Some (cloth', data') => Some (set_implicit cloth' (Some data'))
      | None => None
      end
  end.

End Constraints.

(** The collision collaborator's contact search,
    [cloth_find_point_contacts(ob, clmd, step, dt, &contacts, &totcolliders)]. *)
Class ContactSearch `{Collaborators} : Type := {
  cloth_find_point_contacts : Cloth -> Q -> Q -> list ColliderContacts
}.

(** [ClothModifierData]: the fields read or written here. *)
Record ClothModifierData : Type := mk_ClothModifierData {
  clmd_clothObject : Cloth;
  clmd_hairdata : option (list ClothHairData);
  clmd_sim_parms : ClothSimSettings;
  clmd_coll_parms : ClothCollSettings;
  clmd_solver_result : option ClothSolverResult
}.

(** Field updates of a vertex. *)
Definition set_vert_v_tv (vert : ClothVertex) (v tv : vec3) : ClothVertex :=
  {| vert_flags := vert_flags vert; vert_v := v; vert_xconst := vert_xconst vert;
     vert_x := vert_x vert; vert_xold := vert_xold vert; vert_tx := vert_tx vert;
     vert_txold := vert_txold vert; vert_tv := tv; vert_mass := vert_mass vert;
     vert_impulse_count := vert_impulse_count vert |}.

Definition set_vert_tx (vert : ClothVertex) (tx : vec3) : ClothVertex :=
  {| vert_flags := vert_flags vert; vert_v := vert_v vert; vert_xconst := vert_xconst vert;
     vert_x := vert_x vert; vert_xold := vert_xold vert; vert_tx := tx;
     vert_txold := vert_txold vert; vert_tv := vert_tv vert; vert_mass := vert_mass vert;
     vert_impulse_count := vert_impulse_count vert |}.

Definition set_vert_txold (vert : ClothVertex) (txold : vec3) : ClothVertex :=
  {| vert_flags := vert_flags vert; vert_v := vert_v vert; vert_xconst := vert_xconst vert;
     vert_x := vert_x vert; vert_xold := vert_xold vert; vert_tx := vert_tx vert;
     vert_txold := txold; vert_tv := vert_tv vert; vert_mass := vert_mass vert;
     vert_impulse_count := vert_impulse_count vert |}.

Definition set_vert_x_v (vert : ClothVertex) (x v : vec3) : ClothVertex :=
  {| vert_flags := vert_flags vert; vert_v := v; vert_xconst := vert_xconst vert;
     vert_x := x; vert_xold := vert_xold vert; vert_tx := vert_tx vert;
     vert_txold := vert_txold vert; vert_tv := vert_tv vert; vert_mass := vert_mass vert;
     vert_impulse_count := vert_impulse_count vert |}.

Section Results.
Context `{Constants}.
Local Open Scope Q_scope.

(** ** Result aggregation *)

Definition cloth_clear_result (sres : ClothSolverResult) : ClothSolverResult :=
  {| sres_status := 0;
     sres_max_error := 0; sres_min_error := 0; sres_avg_error := 0;
     sres_max_iterations := 0; sres_min_iterations := 0;
     sres_avg_iterations := 0 |}.

Definition cloth_record_result (sres : ClothSolverResult) (result : ImplicitSolverResult)
    (steps : Z) : ClothSolverResult :=
  let success := (res_status result =? BPH_SOLVER_SUCCESS)%Z in
  if negb (sres_status sres =? 0)%Z then
    {| sres_status := Z.lor (sres_status sres) (res_status result);
       sres_max_error :=
         if success then max_ff (sres_max_error sres) (res_error result)
         else sres_max_error sres;
       sres_min_error :=
         if success then min_ff (sres_min_error sres) (res_error result)
         else sres_min_error sres;
       sres_avg_error :=
         if success then sres_avg_error sres + res_error result / inject_Z steps
         else sres_avg_error sres;
       sres_max_iterations := max_ii (sres_max_iterations sres) (res_iterations result);
       sres_min_iterations := min_ii (sres_min_iterations sres) (res_iterations result);
       sres_avg_iterations :=
         sres_avg_iterations sres + inject_Z (res_iterations result) / inject_Z steps |}
  else
    {| sres_status := Z.lor (sres_status sres) (res_status result);
       sres_max_error := if success then res_error result else sres_max_error sres;
       sres_min_error := if success then res_error result else sres_min_error sres;
       sres_avg_error :=
         if success then sres_avg_error sres + res_error result / inject_Z steps
         else sres_avg_error sres;
       sres_max_iterations := res_iterations result;
       sres_min_iterations := res_iterations result;
       sres_avg_iterations :=
         sres_avg_iterations sres + inject_Z (res_iterations result) / inject_Z steps |}.

End Results.

(** The state threaded through the substep loop of [BPH_cloth_solve]:
    the vertex array, the solver the local [id] points to, and the
    aggregate result. *)
Record SolveState : Type := mk_SolveState {
  st_verts : list ClothVertex;
  st_id : Implicit_Data;
  st_sres : ClothSolverResult
}.

Section Solve.
Context `{Constants} `{ContactSearch}.
Local Open Scope Q_scope.

(** ** The cloth substep loop *)

Definition is_pinned (vert : ClothVertex) : bool :=
  has_flag (vert_flags vert) CLOTH_VERT_FLAG_PINNED.

(** The cloth as the callees see it: vertices and solver current. *)
Definition cloth_of (cloth : Cloth) (verts : list ClothVertex) (id : Implicit_Data) : Cloth :=
  set_implicit (set_verts cloth verts) (Some id).

(** "do goal stuff": the velocity of each pinned vertex is set to
    [xconst - xold]. *)
Fixpoint goal_velocity_loop (i : Z) (verts : list ClothVertex) (id : Implicit_Data) : Implicit_Data :=
  match verts with
  | [] => id
  | vert :: rest =>
      goal_velocity_loop (i + 1)%Z rest
        (if is_pinned vert
         then BPH_mass_spring_set_velocity id i (sub_v3_v3v3 (vert_xconst vert) (vert_xold vert))
         else id)
  end.

(** "copy velocities for collision" *)
Definition copy_velocities (verts : list ClothVertex) (id : Implicit_Data) : list ClothVertex :=
  imap (fun i vert =>
          let tv := BPH_mass_spring_get_velocity id (Z.of_nat i) in
          set_vert_v_tv vert tv tv) verts.

(** "damping velocity for artistic reasons" *)
Fixpoint vel_damping_loop (damping : Q) (i : Z) (verts : list ClothVertex) (id : Implicit_Data)
    : Implicit_Data :=
  match verts with
  | [] => id
  | _ :: rest =>
      let v := BPH_mass_spring_get_velocity id i in
      vel_damping_loop damping (i + 1)%Z rest
        (BPH_mass_spring_set_velocity id i (mul_v3_v3fl v damping))
  end.

(** The loop of [cloth_collision_solve_extra] that hands corrected
    positions to the solver, skipping pinned vertices under the goal
    flag. *)
Fixpoint extra_solve_loop (goal : bool) (spf : Q) (i : Z) (verts : list ClothVertex)
    (id : Implicit_Data) : Implicit_Data :=
  match verts with
  | [] => id
  | vert :: rest =>
      extra_solve_loop goal spf (i + 1)%Z rest
        (if goal && is_pinned vert then id
         else
           let id1 := BPH_mass_spring_set_new_position id i (vert_tx vert) in
           BPH_mass_spring_set_new_velocity id1 i (mul_v3_v3fl (vert_tv vert) spf))
  end.

(** [cloth_collision_solve_extra(ob, clmd, effectors, frame, step, dt)] *)
Definition cloth_collision_solve_extra (clmd : ClothModifierData) (frame step dt : Q)
    (verts : list ClothVertex) (id : Implicit_Data) : list ClothVertex * Implicit_Data :=
  let parms := clmd_sim_parms clmd in
  let spf := inject_Z (sim_stepsPerFrame parms) / sim_timescale parms in
  if negb (has_flag (coll_flags (clmd_coll_parms clmd)) CLOTH_COLLSETTINGS_FLAG_ENABLED)
  then (verts, id)
  else if negb (cloth_has_bvhtree (clmd_clothObject clmd)) then (verts, id)
  else
    let verts1 :=
      imap (fun i vert =>
              let tx := BPH_mass_spring_get_new_position id (Z.of_nat i) in
              let tv := sub_v3_v3v3 tx (vert_txold vert) in
              set_vert_v_tv (set_vert_tx vert tx) tv tv) verts in
    let '(verts2, do_extra_solve) :=
      cloth_bvh_objcollision (cloth_of (clmd_clothObject clmd) verts1 id)
        (step / sim_timescale parms) (dt / sim_timescale parms) in
    let verts3 :=
      imap (fun i vert =>
              let curx := BPH_mass_spring_get_position id (Z.of_nat i) in
              set_vert_v_tv vert (vert_v vert) (sub_v3_v3v3 (vert_tx vert) curx)) verts2 in
    let id1 :=
      if do_extra_solve
      then extra_solve_loop (has_flag (sim_flags parms) CLOTH_SIMSETTINGS_FLAG_GOAL) spf 0 verts3 id
      else id in
    let id2 := BPH_mass_spring_apply_result id1 in
    let id3 :=
      if do_extra_solve then
        let id_a := BPH_mass_spring_clear_forces id2 in
        let id_b := cloth_calc_force (cloth_of (clmd_clothObject clmd) verts3 id_a) frame step id_a in
        let id_c := fst (BPH_mass_spring_solve_velocities id_b dt) in
        BPH_mass_spring_apply_result id_c
      else id2 in
    (verts3, id3).

(** "move pinned verts to correct position", from index [i] on: the
    position of a pinned vertex is set to the interpolation of [xold]
    and [xconst] at [t]; then [txold] is read back from the solver. *)
Fixpoint move_pinned_loop (goal : bool) (t : Q) (i : Z) (verts : list ClothVertex)
    (id : Implicit_Data) : list ClothVertex * Implicit_Data :=
  match verts with
  | [] => ([], id)
  | vert :: rest =>
      let id1 :=
        if goal then
          if is_pinned vert
          then BPH_mass_spring_set_position id i
                 (interp_v3_v3v3 (vert_xold vert) (vert_xconst vert) t)
          else id
        else id in
      let vert' := set_vert_txold vert (BPH_mass_spring_get_position id1 i) in
      let '(rest', id2) := move_pinned_loop goal t (i + 1)%Z rest id1 in
      (vert' :: rest', id2)
  end.

(** One pass of the body of [while (step < tf)] in [BPH_cloth_solve]. *)
Definition cloth_solve_substep (clmd : ClothModifierData) (frame tf dt step : Q)
    (st : SolveState) : option SolveState :=
  let cloth := clmd_clothObject clmd in
  let parms := clmd_sim_parms clmd in
  let is_hair := match clmd_hairdata clmd with Some _ => true | None => false end in
  let goal := has_flag (sim_flags parms) CLOTH_SIMSETTINGS_FLAG_GOAL in
  let verts1 := copy_velocities (st_verts st) (st_id st) in
  let contacts :=
    if is_hair then
      if has_flag (coll_flags (clmd_coll_parms clmd)) CLOTH_COLLSETTINGS_FLAG_ENABLED
      then cloth_find_point_contacts (cloth_of cloth verts1 (st_id st)) 0 tf
      else []
    else [] in
  match cloth_setup_constraints (cloth_of cloth verts1 (st_id st)) contacts dt with
  | None => None
  | Some cloth2 =>
      match cloth_implicit cloth2 with
      | None => None
      | Some id2 =>
          let verts2 := cloth_verts cloth2 in
          let id3 := BPH_mass_spring_clear_forces id2 in
          let id4 :=
            if negb (Qeq_bool (sim_vel_damping parms) 1)
            then vel_damping_loop (sim_vel_damping parms) 0 verts2 id3
            else id3 in
          let id5 := cloth_calc_force (cloth_of cloth verts2 id4) frame step id4 in
          let '(id6, result) := BPH_mass_spring_solve_velocities id5 dt in
          let sres' := cloth_record_result (st_sres st) result (sim_stepsPerFrame parms) in
          let id7 := if is_hair then cloth_continuum_step (cloth_of cloth verts2 id6) dt id6 else id6 in
          let id8 := BPH_mass_spring_solve_positions id7 dt in
          let '(verts3, id9) :=
            if negb is_hair then cloth_collision_solve_extra clmd frame step dt verts2 id8
            else (verts2, id8) in
          let id10 := BPH_mass_spring_apply_result id9 in
          let '(verts4, id11) := move_pinned_loop goal (float_add step dt) 0 verts3 id10 in
          Some {| st_verts := verts4; st_id := id11; st_sres := sres' |}
      end
  end.

(** [while (step < tf) { ...; step += dt; }], with [step] a [float].
    [fuel] bounds the number of passes the model will make. *)
Fixpoint cloth_solve_loop (fuel : nat) (clmd : ClothModifierData) (frame tf dt step : Q)
    (st : SolveState) : option SolveState :=
  match fuel with
  | O => None
  | S fuel' =>
      if Qltb step tf then
        match cloth_solve_substep clmd frame tf dt step st with
        | Some st' => cloth_solve_loop fuel' clmd frame tf dt (float_add step dt) st'
        | None => None
        end
      else Some st
  end.

(** [BPH_cloth_solve(ob, frame, clmd, effectors)]: the modifier data
    after the frame.  [dt] is the float quotient of the time scale by
    the step count converted to [float]. *)
Definition BPH_cloth_solve (fuel : nat) (frame : Q) (clmd : ClothModifierData)
    : option ClothModifierData :=
  let cloth := clmd_clothObject clmd in
  let parms := clmd_sim_parms clmd in
  let tf := sim_timescale parms in
  let dt := float_div (sim_timescale parms) (float_of_int (sim_stepsPerFrame parms)) in
  match cloth_implicit cloth with
  | None => None
  | Some id =>
      let sres :=
        cloth_clear_result
          (match clmd_solver_result clmd with
           | Some sres => sres
           | None => mk_ClothSolverResult 0 0 0 0 0 0 0
           end) in
      let id1 :=
        if has_flag (sim_flags parms) CLOTH_SIMSETTINGS_FLAG_GOAL
        then goal_velocity_loop 0 (cloth_verts cloth) id
        else id in
      match cloth_solve_loop fuel clmd frame tf dt 0
              {| st_verts := cloth_verts cloth; st_id := id1; st_sres := sres |} with
      | None => None
      | Some st =>
          let verts' :=
            imap (fun i vert =>
                    let x := BPH_mass_spring_get_position (st_id st) (Z.of_nat i) in
                    let v := BPH_mass_spring_get_velocity (st_id st) (Z.of_nat i) in
                    set_vert_txold (set_vert_x_v vert x v) x) (st_verts st) in
          Some {| clmd_clothObject := cloth_of cloth verts' (st_id st);
                  clmd_hairdata := clmd_hairdata clmd;
                  clmd_sim_parms := parms;
                  clmd_coll_parms := clmd_coll_parms clmd;
                  clmd_solver_result := Some (st_sres st) |}
      end
  end.

End Solve.

(** ** The strand solver *)

(** [StrandsMotionState] and [Strands]: rest locations, motion state
    (its length is [totverts]) and the vertex count of each curve. *)
Record StrandsMotionState : Type := mk_StrandsMotionState {
  state_co : vec3;
  state_vel : vec3
}.

Record Strands : Type := mk_Strands {
  strands_verts : list vec3;
  strands_state : list StrandsMotionState;
  strands_curves : list Z
}.

Record HairSimParams : Type := mk_HairSimParams {
  hair_timescale : Q;
  hair_substeps : Z
}.

(** What the strand solver uses from outside: 4x4 matrices and the
    scene frame rate (BLI_math, DNA_scene_types.h), and the callees of
    the loop body, which are written against the strand iterators of
    the absent BKE_strands.h; their effect on the solver state is a
    parameter. *)
Class StrandCollaborators `{Collaborators} : Type := {
  mat4 : Type;
  Scene : Type;
  FRA2TIME : Scene -> Q -> Q;
  invert_m4_m4 : mat4 -> mat4;
  mul_m4_v3 : mat4 -> vec3 -> vec3;
  mul_mat3_m4_v3 : mat4 -> vec3 -> vec3;
  strands_calc_root_velocity : Strands -> mat4 -> Implicit_Data -> Q -> Implicit_Data;
  strands_calc_root_location : Strands -> mat4 -> Implicit_Data -> Q -> Implicit_Data;
  strands_setup_constraints : Strands -> Implicit_Data -> Q -> Implicit_Data;
  strands_calc_force : Strands -> mat4 -> HairSimParams -> Implicit_Data -> Q -> Scene -> Implicit_Data
}.

Section StrandSolve.
Context `{StrandCollaborators}.
Local Open Scope Q_scope.

(** "initialize solver data", from index [i] on. *)
Fixpoint strands_init_loop (mat : mat4) (i : Z) (state : list StrandsMotionState)
    (id : Implicit_Data) : Implicit_Data :=
  match state with
  | [] => id
  | s :: rest =>
      let wco := mul_m4_v3 mat (state_co s) in
      let wvel := mul_mat3_m4_v3 mat (state_vel s) in
      strands_init_loop mat (i + 1)%Z rest (BPH_mass_spring_set_motion_state id i wco wvel)
  end.

(** The statements of the body of the substep loop of
    [BPH_strands_solve] that act on the solver; [step] is the loop
    variable on entry. *)
Definition strands_substep (strands : Strands) (mat : mat4) (params : HairSimParams)
    (frame : Q) (scene : Scene) (dstep dtime step : Q) (id : Implicit_Data) : Implicit_Data :=
  let id1 := strands_setup_constraints strands id dtime in
  let id2 := BPH_mass_spring_clear_forces id1 in
  let id3 := strands_calc_force strands mat params id2 frame scene in
  let id4 := fst (BPH_mass_spring_solve_velocities id3 dtime) in
  let id5 := BPH_mass_spring_solve_positions id4 dtime in
  let id6 := BPH_mass_spring_apply_result id5 in
  strands_calc_root_location strands mat id6 (float_add step dstep).

(** [for (float step = 0.0f; step < 1.0f; step += dstep) { ...;
    step += dstep; }]: the body ends with its own [step += dstep],
    and the loop header adds [dstep] once more before the test; both
    are float additions. *)
Fixpoint strands_solve_loop (fuel : nat) (strands : Strands) (mat : mat4)
    (params : HairSimParams) (frame : Q) (scene : Scene) (dstep dtime step : Q)
    (id : Implicit_Data) : option Implicit_Data :=
  match fuel with
  | O => None
  | S fuel' =>
      if Qltb step 1 then
        let id' := strands_substep strands mat params frame scene dstep dtime step id in
        let step_body := float_add step dstep in
        strands_solve_loop fuel' strands mat params frame scene dstep dtime
          (float_add step_body dstep) id'
      else Some id
  end.

(** [BPH_strands_solve]: the returned flag, the strands and the
    solver afterwards. *)
Definition BPH_strands_solve (fuel : nat) (strands : Strands) (mat : mat4)
    (id : Implicit_Data) (params : HairSimParams) (frame frame_prev : Q) (scene : Scene)
    : option (bool * Strands * Implicit_Data) :=
  if Qeq_bool (hair_timescale params) 0 || (hair_substeps params <? 1)%Z
  then Some (false, strands, id)
  else
    let timestep := (FRA2TIME scene frame - FRA2TIME scene frame_prev) * hair_timescale params in
    let dstep := float_div 1 (float_of_int (hair_substeps params)) in
    let dtime := timestep * dstep in
    let imat := invert_m4_m4 mat in
    let id1 := strands_init_loop mat 0 (strands_state strands) id in
    let id2 := strands_calc_root_velocity strands mat id1 timestep in
    match strands_solve_loop fuel strands mat params frame scene dstep dtime 0 id2 with
    | None => None
    | Some id3 =>
        let state' :=
          imap (fun i _ =>
                  let co := mul_m4_v3 imat (BPH_mass_spring_get_position id3 (Z.of_nat i)) in
                  let vel := mul_mat3_m4_v3 imat (BPH_mass_spring_get_velocity id3 (Z.of_nat i)) in
                  mk_StrandsMotionState co vel) (strands_state strands) in
        Some (true,
              {| strands_verts := strands_verts strands; strands_state := state';
                 strands_curves := strands_curves strands |},
              id3)
    end.

End StrandSolve.

(** ** The hair continuum grid *)

(** Modelled from the spec: [add_v3_v3] and [negate_v3] of
    BLI_math_vector (absent from the sources): the sum of two vectors
    and the opposite of a vector, with which a vertex location is
    moved so that the grid's "origin" is at zero. *)
Definition add_v3_v3 (a b : vec3) : vec3 :=
  mk_vec3 (vx a + vx b)%Q (vy a + vy b)%Q (vz a + vz b)%Q.

Definition negate_v3 (a : vec3) : vec3 :=
  mk_vec3 (- vx a)%Q (- vy a)%Q (- vz a)%Q.

(** Modelled from the spec: [BPH_mass_spring_get_new_velocity]
    (absent), "get" for the post-solve velocity. *)
Definition BPH_mass_spring_get_new_velocity (id : Implicit_Data) (i : Z) : vec3 := id_Vnew id i.

(** What the grid code takes from absent headers: the spring type
    constant of BKE_cloth.h, and [normalize_v3] of BLI_math_vector,
    which needs a square root and is left as a parameter. *)
Class ContinuumParams : Type := {
  CLOTH_SPRING_TYPE_STRUCTURAL : Z;
  normalize_v3 : vec3 -> vec3
}.

(** The arguments of one [BPH_hair_volume_add_segment] call: four
    points with their velocities and three directions, of which the
    first and the last may be NULL. *)
Record HairSegment : Type := mk_HairSegment {
  seg_x1 : vec3; seg_v1 : vec3;
  seg_x2 : vec3; seg_v2 : vec3;
  seg_x3 : vec3; seg_v3 : vec3;
  seg_x4 : vec3; seg_v4 : vec3;
  seg_dir1 : option vec3;
  seg_dir2 : vec3;
  seg_dir3 : option vec3
}.

(** Modelled from the spec: the [HairGrid] of the absent back end, "a
    background grid accumulating smoothed velocity/density from all
    hair segments".  It is represented by the calls made on it, in
    order: [BPH_hair_volume_add_segment] and
    [BPH_hair_volume_normalize_vertex_grid]. *)
Inductive GridCall : Type :=
| grid_add_segment (seg : HairSegment)
| grid_normalize_vertex_grid.

(** The locals of [cloth_continuum_add_hair_segments] that live
    across passes of its loop. *)
Record SegmentLocals : Type := mk_SegmentLocals {
  loc_spring1 : option ClothSpring;
  loc_spring2 : option ClothSpring;
  loc_spring3 : option ClothSpring;
  loc_x1 : vec3; loc_v1 : vec3;
  loc_x2 : vec3; loc_v2 : vec3;
  loc_x3 : vec3; loc_v3 : vec3;
  loc_x4 : vec3; loc_v4 : vec3;
  loc_dir1 : vec3; loc_dir2 : vec3; loc_dir3 : vec3
}.

Section Continuum.
Context `{ContinuumParams}.
Local Open Scope Q_scope.

(** [cloth_get_grid_location]: the outputs [x] and [v]. *)
Definition cloth_get_grid_location (data : Implicit_Data) (cell_scale : Q) (cell_offset : vec3)
    (index : Z) : vec3 * vec3 :=
  let x := BPH_mass_spring_get_position data index in
  let v := BPH_mass_spring_get_new_velocity data index in
  (add_v3_v3 (mul_v3_v3fl x cell_scale) cell_offset, v).

(** [hair_spring_next(spring_link)] for the link holding [spring]
    whose [next] pointer is [next]; the empty list is NULL. *)
Definition hair_spring_next (spring : ClothSpring) (next : list ClothSpring) : list ClothSpring :=
  match next with
  | next_spring :: _ =>
      if (spring_type next_spring =? CLOTH_SPRING_TYPE_STRUCTURAL)%Z
         && (spring_kl next_spring =? spring_ij spring)%Z
      then next else []
  | [] => []
  end.

(** One pass of the body of [while (spring_link)] in
    [cloth_continuum_add_hair_segments], for the link holding
    [spring]: the locals afterwards, the new [spring_link] and the
    segment handed to the grid. *)
Definition hair_segments_pass (data : Implicit_Data) (cell_scale : Q) (cell_offset : vec3)
    (spring : ClothSpring) (next : list ClothSpring) (st : SegmentLocals)
    : SegmentLocals * list ClothSpring * HairSegment :=
  let spring1 := loc_spring2 st in
  let spring2 := loc_spring3 st in
  let x1 := loc_x2 st in
  let v1 := loc_v2 st in
  let x2 := loc_x3 st in
  let v2 := loc_v3 st in
  let x3 := loc_x4 st in
  let v3 := loc_v4 st in
  let dir1 := loc_dir2 st in
  let dir2 := loc_dir3 st in
  let spring_link := hair_spring_next spring next in
  let '(spring3, (x4, v4), dir3) :=
    match spring_link with
    | s3 :: _ =>
        let xv4 := cloth_get_grid_location data cell_scale cell_offset (spring_ij s3) in
        (Some s3, xv4, normalize_v3 (sub_v3_v3v3 (fst xv4) x3))
    | [] => (None, (ZERO, ZERO), ZERO)
    end in
  ({| loc_spring1 := spring1; loc_spring2 := spring2; loc_spring3 := spring3;
      loc_x1 := x1; loc_v1 := v1; loc_x2 := x2; loc_v2 := v2;
      loc_x3 := x3; loc_v3 := v3; loc_x4 := x4; loc_v4 := v4;
      loc_dir1 := dir1; loc_dir2 := dir2; loc_dir3 := dir3 |},
   spring_link,
   {| seg_x1 := x1; seg_v1 := v1; seg_x2 := x2; seg_v2 := v2;
      seg_x3 := x3; seg_v3 := v3; seg_x4 := x4; seg_v4 := v4;
      seg_dir1 := match spring1 with Some _ => Some dir1 | None => None end;
      seg_dir2 := dir2;
      seg_dir3 := match spring3 with Some _ => Some dir3 | None => None end |}).

(** [while (spring_link) { ... }]; [fuel] bounds the number of loop
    tests the model will make. *)
Fixpoint add_hair_segments_loop (fuel : nat) (data : Implicit_Data) (cell_scale : Q)
    (cell_offset : vec3) (spring_link : list ClothSpring) (st : SegmentLocals)
    (next_spring_link : list ClothSpring) (grid : list GridCall)
    : option (list GridCall * list ClothSpring) :=
  match fuel with
  | O => None
  | S fuel' =>
      match spring_link with
      | [] => Some (grid, next_spring_link)
      | spring :: next =>
          let '(st', spring_link', seg) :=
            hair_segments_pass data cell_scale cell_offset spring next st in
          add_hair_segments_loop fuel' data cell_scale cell_offset spring_link' st' next
            (grid ++ [grid_add_segment seg])
      end
  end.

(** [cloth_continuum_add_hair_segments]: the grid afterwards and the
    returned link.  The solver pointer and [spring_link] are
    dereferenced: a missing solver or a NULL link gives [None]. *)
Definition cloth_continuum_add_hair_segments (fuel : nat) (grid : list GridCall)
    (cell_scale : Q) (cell_offset : vec3) (cloth : Cloth) (spring_link : list ClothSpring)
    : option (list GridCall * list ClothSpring) :=
  match cloth_implicit cloth, spring_link with
  | Some data, spring3 :: _ =>
      let xv3 := cloth_get_grid_location data cell_scale cell_offset (spring_kl spring3) in
      let xv4 := cloth_get_grid_location data cell_scale cell_offset (spring_ij spring3) in
      let dir3 := normalize_v3 (sub_v3_v3v3 (fst xv4) (fst xv3)) in
      add_hair_segments_loop fuel data cell_scale cell_offset spring_link
        {| loc_spring1 := None; loc_spring2 := None; loc_spring3 := Some spring3;
           loc_x1 := ZERO; loc_v1 := ZERO; loc_x2 := ZERO; loc_v2 := ZERO;
           loc_x3 := fst xv3; loc_v3 := snd xv3; loc_x4 := fst xv4; loc_v4 := snd xv4;
           loc_dir1 := ZERO; loc_dir2 := ZERO; loc_dir3 := dir3 |}
        [] grid
  | _, _ => None
  end.

(** The [while (link)] loop of [cloth_continuum_fill_grid]. *)
Fixpoint fill_grid_loop (fuel : nat) (cell_scale : Q) (cell_offset : vec3) (cloth : Cloth)
    (link : list ClothSpring) (grid : list GridCall) : option (list GridCall) :=
  match fuel with
  | O => None
  | S fuel' =>
      match link with
      | [] => Some grid
      | spring :: next =>
          if (spring_type spring =? CLOTH_SPRING_TYPE_STRUCTURAL)%Z then
            match cloth_continuum_add_hair_segments fuel grid cell_scale cell_offset cloth link with
            | Some (grid', link') => fill_grid_loop fuel' cell_scale cell_offset cloth link' grid'
            | None => None
            end
          else fill_grid_loop fuel' cell_scale cell_offset cloth next grid
      end
  end.

(** The scale and offset [cloth_continuum_fill_grid] computes from
    the [cellsize] and [gmin] that [BPH_hair_volume_grid_geometry]
    reports of the grid. *)
Definition grid_cell_scale (cellsize : Q) : Q :=
  if Qltb 0 cellsize then 1 / cellsize else 0.

Definition grid_cell_offset (cellsize : Q) (gmin : vec3) : vec3 :=
  negate_v3 (mul_v3_v3fl gmin (grid_cell_scale cellsize)).

(** [cloth_continuum_fill_grid(grid, cloth)] for a grid of cell size
    [cellsize] and lower corner [gmin]: the grid afterwards. *)
Definition cloth_continuum_fill_grid (fuel : nat) (cellsize : Q) (gmin : vec3) (cloth : Cloth)
    (grid : list GridCall) : option (list GridCall) :=
  let cell_scale := grid_cell_scale cellsize in
  let cell_offset := grid_cell_offset cellsize gmin in
  match fill_grid_loop fuel cell_scale cell_offset cloth (cloth_springs cloth) grid with
  | Some grid' => Some (grid' ++ [grid_normalize_vertex_grid])
  | None => None
  end.

End Continuum.

(** ** Creation of the strand solver *)

(** The loops of [BPH_strands_solver_create]: [count] passes from
    index [i] on. *)
Fixpoint strands_mass_loop (count : nat) (i : Z) (id : Implicit_Data) : Implicit_Data :=
  match count with
  | O => id
  | S count' => strands_mass_loop count' (i + 1) (BPH_mass_spring_set_vertex_mass id i 1)
  end.

Fixpoint strands_rest_transform_loop (count : nat) (i : Z) (id : Implicit_Data) : Implicit_Data :=
  match count with
  | O => id
  | S count' =>
      strands_rest_transform_loop count' (i + 1) (BPH_mass_spring_set_rest_transform id i I3)
  end.

(** The number of springs [BPH_strands_solver_create] asks room for,
    in C [int] arithmetic. *)
Definition strands_numsprings (numverts numcurves : Z) : Z :=
  let numedges := max_ii (wrap_int (numverts - numcurves)) 0 in
  let numbends := max_ii (wrap_int (numverts - wrap_int (2 * numcurves))) 0 in
  wrap_int (wrap_int (wrap_int (numverts - numcurves) + numedges) + wrap_int (3 * numbends)).

(** [BPH_strands_solver_create(strands, params)]; [totverts] is the
    number of motion states and [totcurves] the number of curves. *)
Definition BPH_strands_solver_create (strands : Strands) : Implicit_Data :=
  let numverts := Z.of_nat (length (strands_state strands)) in
  let numcurves := Z.of_nat (length (strands_curves strands)) in
  let numsprings := strands_numsprings numverts numcurves in
  let id := BPH_mass_spring_solver_create numverts numsprings in
  let id1 := strands_mass_loop (Z.to_nat numverts) 0 id in
  strands_rest_transform_loop (Z.to_nat numverts) 0 id1.

(** ** Goal stiffness of a strand vertex *)

(** The flag of DNA_strands_types.h tested by [strands_goal_stiffness]
    (absent; its value is not fixed). *)
Class StrandConstants : Type := {
  eHairSimParams_Flag_UseGoalStiffnessCurve : Z
}.

(** What [strands_goal_stiffness] reads of [HairSimParams]: the flag
    word, the goal stiffness and the stiffness curve, the latter as
    the function [t |-> curvemapping_evaluateF(goal_stiffness_mapping,
    0, t)] of the absent BKE_colortools.h. *)
Record HairGoalParams : Type := mk_HairGoalParams {
  hair_flag : Z;
  hair_goal_stiffness : Q;
  hair_goal_stiffness_mapping : Q -> Q
}.

(** [strands_goal_stiffness(strands, params, vert, t)]; [vert_weight]
    is [vert->weight]. *)
Definition strands_goal_stiffness `{StrandConstants} (params : HairGoalParams)
    (vert_weight : Q) (t : Q) : Q :=
  let weight :=
    if has_flag (hair_flag params) eHairSimParams_Flag_UseGoalStiffnessCurve
    then hair_goal_stiffness_mapping params t
    else vert_weight in
  let weight := CLAMP weight 0 1 in
  (hair_goal_stiffness params * weight)%Q.

(** * Notions used to state the properties *)

(** The allocation a solver state lives in: the vertex count and the
    off-diagonal capacity it was created with. *)
Definition same_allocation (a b : Implicit_Data) : Prop :=
  id_numverts a = id_numverts b /\ id_nondiag a = id_nondiag b.

(** Everything of a vertex except its impulse counter. *)
Definition vert_static (vert : ClothVertex) :=
  (vert_flags vert, vert_v vert, vert_xconst vert, vert_x vert, vert_xold vert,
   vert_tx vert, vert_txold vert, vert_tv vert, vert_mass vert).


(** The sum of the impulse counters of a vertex array. *)
Definition impulse_total (verts : list ClothVertex) : Z :=
  foldr Z.add 0 (map vert_impulse_count verts).

Definition is_ndof2 (c : Constraint) : Prop :=
  match c with ndof2 _ _ _ => True | ndof0 _ _ => False end.

(** How many [ndof0] constraints in [cs] are on vertex index [v]. *)
Fixpoint count_ndof0 (v : Z) (cs : list Constraint) : nat :=
  match cs with
  | [] => 0%nat
  | ndof0 i _ :: rest => ((if (i =? v)%Z then 1 else 0) + count_ndof0 v rest)%nat
  | ndof2 _ _ _ :: rest => count_ndof0 v rest
  end.

(** Sum of a list of floats, and of a list of integers. *)
Definition Qsum (l : list Q) : Q := foldr Qplus 0%Q l.
Definition Zsum (l : list Z) : Z := foldr Z.add 0 l.

(** [m] is the least, resp. greatest, element of [l]. *)
Definition Q_is_min (m : Q) (l : list Q) : Prop := In m l /\ forall e, In e l -> (m <= e)%Q.
Definition Q_is_max (m : Q) (l : list Q) : Prop := In m l /\ forall e, In e l -> (e <= m)%Q.
Definition Z_is_min (m : Z) (l : list Z) : Prop := In m l /\ forall e, In e l -> m <= e.
Definition Z_is_max (m : Z) (l : list Z) : Prop := In m l /\ forall e, In e l -> e <= m.

Definition nat_Q (k : nat) : Q := inject_Z (Z.of_nat k).

(** The loop variable of [BPH_cloth_solve] after [k] passes: [k]
    float additions of [dt] to zero. *)
Fixpoint cloth_step_at (dt : Q) (k : nat) : Q :=
  match k with
  | O => 0%Q
  | S k' => float_add (cloth_step_at dt k') dt
  end.

(** The value of the loop variable of the strand solver at the start
    of pass [k]: two float additions of [dstep] per earlier pass. *)
Fixpoint strands_step_at (dstep : Q) (k : nat) : Q :=
  match k with
  | O => 0%Q
  | S k' => float_add (float_add (strands_step_at dstep k') dstep) dstep
  end.

(** The loop [while (step < tf)] makes exactly [k] passes: the test
    holds at the first [k] values of the loop variable and fails at
    the next. *)
Definition cloth_loop_ends (tf dt : Q) (k : nat) : Prop :=
  (forall j : nat, (j < k)%nat -> (cloth_step_at dt j < tf)%Q) /\
  (tf <= cloth_step_at dt k)%Q.

(** The same for the loop [step < 1.0f] of the strand solver. *)
Definition strands_loop_ends (dstep : Q) (k : nat) : Prop :=
  (forall j : nat, (j < k)%nat -> (strands_step_at dstep j < 1)%Q) /\
  (1 <= strands_step_at dstep k)%Q.

Section Notions.
Context `{Constants} `{ContactSearch}.
Local Open Scope Q_scope.

(** The vertex-pair count of a spring, in the words of the
    specification: 3 for an angular bending spring, 1 for any other. *)
Definition spring_pair_count (spring : ClothSpring) : Z :=
  if (spring_type spring =? CLOTH_SPRING_TYPE_BENDING_ANG)%Z then 3%Z else 1%Z.

Definition pair_count_sum (springs : list ClothSpring) : Z :=
  foldr Z.add 0%Z (map spring_pair_count springs).

(** The quantities the collision response is built from. *)
Definition margin_distance (collmd : CollisionModifierData) (collpair : CollPair) : Q :=
  cp_distance collpair - BLI_bvhtree_getepsilon collmd.

Definition v_nor_old (vert : ClothVertex) (collmd : CollisionModifierData) (collpair : CollPair) : Q :=
  dot_v3v3 (sub_v3_v3v3 (vert_v vert) (fst (collision_get_collider_velocity collmd collpair)))
    (cp_normal collpair).

Definition v_nor_new (vert : ClothVertex) (collmd : CollisionModifierData) (collpair : CollPair) : Q :=
  dot_v3v3 (sub_v3_v3v3 (vert_v vert) (snd (collision_get_collider_velocity collmd collpair)))
    (cp_normal collpair).

(** The constraints the specification asks for pinned vertices: one
    [ndof0] with zero velocity change per pinned vertex, in vertex
    order, for the vertices numbered from [v]. *)
Fixpoint pinned_constraints (v : Z) (verts : list ClothVertex) : list Constraint :=
  match verts with
  | [] => []
  | vert :: rest =>
      (if is_pinned vert then [ndof0 v ZERO] else []) ++ pinned_constraints (v + 1)%Z rest
  end.

(** What holds of the cloth and solver between two contacts of the
    constraint set-up.  [verts0] is the vertex array on entry, [l0]
    the constraints after the pinned-vertex loop, [P] a property of
    accepted contacts. *)
Record setup_inv (verts0 : list ClothVertex) (l0 : list Constraint)
    (P : Constraint -> Prop) (cloth : Cloth) (data : Implicit_Data) : Prop := {
  inv_static : map vert_static (cloth_verts cloth) = map vert_static verts0;
  inv_counts :
    Forall (fun vert => (0 <= vert_impulse_count vert <= 1)%Z /\
                        (is_pinned vert = true -> vert_impulse_count vert = 0%Z))
      (cloth_verts cloth);
  inv_constraints :
    exists accepted,
      id_constraints data = l0 ++ accepted /\
      Forall is_ndof2 accepted /\
      Forall P accepted /\
      Z.of_nat (length accepted) = impulse_total (cloth_verts cloth)
}.

(** An accepted contact, as recorded in the solver: the constraint
    came from contact [collpair] of collider number [k], whose
    response on the cloth with zero restitution was [impulse]; it was
    added under index [k]. *)
Definition from_contact (cloth : Cloth) (contacts : list ColliderContacts) (dt : Q)
    (c : Constraint) : Prop :=
  exists (k : nat) ct collpair impulse,
    contacts !! k = Some ct /\
    In collpair (ct_collisions ct) /\
    collision_response cloth (ct_collmd ct) collpair dt 0 = Some (true, impulse) /\
    c = ndof2 (Z.of_nat k) (cp_normal collpair) impulse.

(** Contacts whose vertex indices lie inside an array of [n] vertices. *)
Definition contact_in_range (n : nat) (collpair : CollPair) : Prop :=
  (0 <= cp_face1 collpair < Z.of_nat n)%Z /\ (0 <= cp_ap1 collpair < Z.of_nat n)%Z.

Definition contacts_in_range (n : nat) (contacts : list ColliderContacts) : Prop :=
  Forall (fun ct => Forall (contact_in_range n) (ct_collisions ct)) contacts.

(** The contact search only reports vertices of the cloth. *)
Definition contact_search_in_range : Prop :=
  forall cloth step dt,
    contacts_in_range (length (cloth_verts cloth)) (cloth_find_point_contacts cloth step dt).


(** "update verts to current positions": the vertex array
    [cloth_collision_solve_extra] hands to the collision pass. *)
Definition extra_current_verts (verts : list ClothVertex) (id : Implicit_Data)
    : list ClothVertex :=
  imap (fun i vert =>
          let tx := BPH_mass_spring_get_new_position id (Z.of_nat i) in
          let tv := sub_v3_v3v3 tx (vert_txold vert) in
          set_vert_v_tv (set_vert_tx vert tx) tv tv) verts.

(** The aggregate after the results of a frame's substeps, recorded
    in order. *)
Definition record_all (sres : ClothSolverResult) (results : list ImplicitSolverResult)
    (steps : Z) : ClothSolverResult :=
  fold_left (fun s r => cloth_record_result s r steps) results sres.

(** The heads of the substep loop reached from [st0]: [loop_pass k
    step st] says that after [k] passes of the body the loop variable
    is [step] and the state is [st]. *)
Inductive loop_pass (clmd : ClothModifierData) (frame tf dt : Q) (st0 : SolveState)
    : nat -> Q -> SolveState -> Prop :=
| pass_first : loop_pass clmd frame tf dt st0 0%nat 0 st0
| pass_next (k : nat) (step : Q) (st st' : SolveState) :
    loop_pass clmd frame tf dt st0 k step st ->
    step < tf ->
    cloth_solve_substep clmd frame tf dt step st = Some st' ->
    loop_pass clmd frame tf dt st0 (S k) (float_add step dt) st'.

End Notions.

Section StrandNotions.
Context `{StrandCollaborators}.

(** The body of the strand loop run at passes [k, k+1, ..., k+m-1]. *)
Definition strands_passes (strands : Strands) (mat : mat4) (params : HairSimParams)
    (frame : Q) (scene : Scene) (dstep dtime : Q) (k m : nat) (id : Implicit_Data)
    : Implicit_Data :=
  fold_left (fun id j =>
               strands_substep strands mat params frame scene dstep dtime
                 (strands_step_at dstep j) id)
    (seq k m) id.
End StrandNotions.

Section ContinuumNotions.
Context `{ContinuumParams}.

Definition is_structural (spring : ClothSpring) : bool :=
  (spring_type spring =? CLOTH_SPRING_TYPE_STRUCTURAL)%Z.

(** The two middle points of a segment, with their velocities. *)
Definition segment_ends (seg : HairSegment) : (vec3 * vec3) * (vec3 * vec3) :=
  ((seg_x2 seg, seg_v2 seg), (seg_x3 seg, seg_v3 seg)).

(** The grid locations of the two vertices of a spring: [kl] first. *)
Definition spring_ends (data : Implicit_Data) (cell_scale : Q) (cell_offset : vec3)
    (spring : ClothSpring) : (vec3 * vec3) * (vec3 * vec3) :=
  (cloth_get_grid_location data cell_scale cell_offset (spring_kl spring),
   cloth_get_grid_location data cell_scale cell_offset (spring_ij spring)).

(** A segment whose directions fit its points: the middle direction
    is the normalised step from the second to the third point; a
    first or last direction, when given, is the normalised step
    between its two points, and when it is NULL the outer point and
    its velocity are zero. *)
Definition segment_well_formed (seg : HairSegment) : Prop :=
  seg_dir2 seg = normalize_v3 (sub_v3_v3v3 (seg_x3 seg) (seg_x2 seg)) /\
  match seg_dir1 seg with
  | Some d => d = normalize_v3 (sub_v3_v3v3 (seg_x2 seg) (seg_x1 seg))
  | None => seg_x1 seg = ZERO /\ seg_v1 seg = ZERO
  end /\
  match seg_dir3 seg with
  | Some d => d = normalize_v3 (sub_v3_v3v3 (seg_x4 seg) (seg_x3 seg))
  | None => seg_x4 seg = ZERO /\ seg_v4 seg = ZERO
  end.

(** What holds of the locals at the head of the segment loop when
    [spring_link] holds [spring]. *)
Record locals_inv (data : Implicit_Data) (cell_scale : Q) (cell_offset : vec3)
    (st : SegmentLocals) (spring : ClothSpring) : Prop := {
  linv_spring3 : loc_spring3 st = Some spring;
  linv_3 : (loc_x3 st, loc_v3 st)
           = cloth_get_grid_location data cell_scale cell_offset (spring_kl spring);
  linv_4 : (loc_x4 st, loc_v4 st)
           = cloth_get_grid_location data cell_scale cell_offset (spring_ij spring);
  linv_dir3 : loc_dir3 st = normalize_v3 (sub_v3_v3v3 (loc_x4 st) (loc_x3 st));
  linv_2 : match loc_spring2 st with
           | Some _ => loc_dir2 st = normalize_v3 (sub_v3_v3v3 (loc_x3 st) (loc_x2 st))
           | None => loc_x2 st = ZERO /\ loc_v2 st = ZERO
           end
}.
End ContinuumNotions.

Section ChainNotions.
Context `{ContinuumParams}.

(** The segments among the calls made on a grid, in order. *)
Fixpoint grid_segments (grid : list GridCall) : list HairSegment :=
  match grid with
  | [] => []
  | grid_add_segment seg :: rest => seg :: grid_segments rest
  | grid_normalize_vertex_grid :: rest => grid_segments rest
  end.

(** Whether a segment was given a first and a last direction. *)
Definition segment_flags (seg : HairSegment) : bool * bool :=
  (match seg_dir1 seg with Some _ => true | None => false end,
   match seg_dir3 seg with Some _ => true | None => false end).

(** [spring] continues the strand of the spring [prev] stored just
    before it: [prev] is structural and ends where [spring] starts. *)
Definition follows (prev : option ClothSpring) (spring : ClothSpring) : bool :=
  match prev with
  | Some q => is_structural q && (spring_kl spring =? spring_ij q)%Z
  | None => false
  end.

(** The spring stored just after [spring] continues its strand. *)
Definition followed (spring : ClothSpring) (rest : list ClothSpring) : bool :=
  match rest with
  | n :: _ => is_structural n && (spring_kl n =? spring_ij spring)%Z
  | [] => false
  end.

(** For each structural spring of [link], in order: whether it has a
    neighbour before and after it in its strand, read off the spring
    list alone; [prev] is the spring stored just before [link]. *)
Fixpoint segment_links (prev : option ClothSpring) (link : list ClothSpring)
    : list (bool * bool) :=
  match link with
  | [] => []
  | s :: rest =>
      (if is_structural s then [(follows prev s, followed s rest)] else [])
      ++ segment_links (Some s) rest
  end.

(** The walk of one strand from [spring] on: the flags of its
    segments, its last spring and the link after it. *)
Fixpoint chain_flags (has_prev : bool) (spring : ClothSpring) (next : list ClothSpring)
    : list (bool * bool) :=
  match next with
  | n :: rest =>
      if is_structural n && (spring_kl n =? spring_ij spring)%Z
      then (has_prev, true) :: chain_flags true n rest
      else [(has_prev, false)]
  | [] => [(has_prev, false)]
  end.

Fixpoint chain_last (spring : ClothSpring) (next : list ClothSpring) : ClothSpring :=
  match next with
  | n :: rest =>
      if is_structural n && (spring_kl n =? spring_ij spring)%Z
      then chain_last n rest else spring
  | [] => spring
  end.

Fixpoint chain_rest (spring : ClothSpring) (next : list ClothSpring) : list ClothSpring :=
  match next with
  | n :: rest =>
      if is_structural n && (spring_kl n =? spring_ij spring)%Z
      then chain_rest n rest else next
  | [] => []
  end.
End ChainNotions.

(** * Sample collaborators and inputs

    Concrete stand-ins for the collaborators and a few small inputs, on
    which the code is evaluated. *)

(** A solve-positions step that throws every vertex to (7, 7, 7). *)
Definition scatter_positions (id : Implicit_Data) : Implicit_Data :=
  {| id_numverts := id_numverts id; id_nondiag := id_nondiag id;
     id_M := id_M id;
     id_X := fun _ => mk_vec3 7 7 7; id_V := id_V id;
     id_Xnew := id_Xnew id; id_Vnew := id_Vnew id;
     id_tfm := id_tfm id; id_constraints := id_constraints id |}.

(** Colliders at rest, identified with their collision margin; a
    collision pass that changes nothing; a linear solve that always
    reports success after 4 iterations. *)
Definition sample_collaborators : Collaborators := {|
  CollisionModifierData := Q;
  BLI_bvhtree_getepsilon := fun collmd => collmd;
  collision_get_collider_velocity := fun _ _ => (ZERO, ZERO);
  cloth_bvh_objcollision := fun cloth _ _ => (cloth_verts cloth, false);
  BPH_mass_spring_clear_forces := fun id => id;
  BPH_mass_spring_solve_velocities :=
    fun id _ => (id, mk_ImplicitSolverResult 1 4 (1 # 1000));
  BPH_mass_spring_solve_positions := fun id _ => scatter_positions id;
  BPH_mass_spring_apply_result := fun id => id;
  cloth_calc_force := fun _ _ _ id => id;
  cloth_continuum_step := fun _ _ id => id
|}.

Definition sample_search : @ContactSearch sample_collaborators :=
  {| cloth_find_point_contacts := fun _ _ _ => [] |}.

(** Strand callees that leave a trace: each constraint set-up appends
    one constraint, so the constraint list counts the passes, and the
    root is moved to the time it is given. *)
Definition sample_strand_collaborators : @StrandCollaborators sample_collaborators := {|
  mat4 := unit;
  Scene := unit;
  FRA2TIME := fun _ frame => (frame / 24)%Q;
  invert_m4_m4 := fun m => m;
  mul_m4_v3 := fun _ v => v;
  mul_mat3_m4_v3 := fun _ v => v;
  strands_calc_root_velocity := fun _ _ id _ => id;
  strands_calc_root_location :=
    fun _ _ id step => BPH_mass_spring_set_position id 0 (mk_vec3 step 0 0);
  strands_setup_constraints :=
    fun _ id _ => BPH_mass_spring_add_constraint_ndof0 id 0 ZERO;
  strands_calc_force := fun _ _ _ id _ _ => id
|}.

(** A vertex given by its flags, velocity and pin path. *)
Definition sample_vert (flags : Z) (v xold xconst : vec3) : ClothVertex :=
  {| vert_flags := flags; vert_v := v; vert_xconst := xconst; vert_x := xold;
     vert_xold := xold; vert_tx := xold; vert_txold := xold; vert_tv := v;
     vert_mass := 1; vert_impulse_count := 5 |}.

(** Three vertices: number 0 pinned, numbers 1 and 2 free and moving
    down at unit speed. *)
Definition sample_verts : list ClothVertex :=
  [ sample_vert 1 ZERO ZERO (mk_vec3 2 0 0);
    sample_vert 0 (mk_vec3 0 0 (-1)) (mk_vec3 1 0 0) (mk_vec3 1 0 0);
    sample_vert 0 (mk_vec3 0 0 (-1)) (mk_vec3 0 1 0) (mk_vec3 0 1 0) ].

(** Two angular bending springs (type 64) among two others. *)
Definition sample_springs : list ClothSpring :=
  [ mk_ClothSpring 0 1 2 64; mk_ClothSpring 0 1 0 2;
    mk_ClothSpring 1 2 0 8; mk_ClothSpring 0 1 2 64 ].

Definition sample_cloth_new : Cloth :=
  {| cloth_verts := sample_verts; cloth_springs := sample_springs;
     cloth_has_bvhtree := false; cloth_implicit := None |}.

Definition sample_cloth : Cloth :=
  {| cloth_verts := sample_verts; cloth_springs := sample_springs;
     cloth_has_bvhtree := false;
     cloth_implicit := Some (BPH_mass_spring_solver_create 3 8) |}.

(** The collider with collision margin [eps]. *)
Definition sample_collmd (eps : Q) : @CollisionModifierData sample_collaborators := eps.

(** A contact on vertex [v] at distance [d] with normal (0, 0, 1). *)
Definition sample_contact (v : Z) (d : Q) (flag : Z) : CollPair :=
  {| cp_face1 := v; cp_ap1 := v; cp_distance := d; cp_normal := mk_vec3 0 0 1;
     cp_flag := flag |}.

(** One collider (number 0) with a single contact, on vertex 2. *)
Definition one_contact : list (@ColliderContacts sample_collaborators) :=
  [ {| ct_collmd := sample_collmd (1 # 4); ct_collisions := [ sample_contact 2 0 0 ] |} ].

(** Two colliders: on the first, two contacts on vertex 2, one on the
    pinned vertex 0 and one deferred to the future on vertex 1; on the
    second, a contact on vertex 1. *)
Definition several_contacts : list (@ColliderContacts sample_collaborators) :=
  [ {| ct_collmd := sample_collmd (1 # 4);
       ct_collisions := [ sample_contact 2 0 0; sample_contact 2 (- (1 # 2)) 0;
                          sample_contact 0 0 0; sample_contact 1 0 2 ] |};
    {| ct_collmd := sample_collmd (1 # 4); ct_collisions := [ sample_contact 1 (- (1 # 2)) 0 ] |} ].

(** One collider (number 0) with a contact on each of the free
    vertices 1 and 2. *)
Definition two_contacts : list (@ColliderContacts sample_collaborators) :=
  [ {| ct_collmd := sample_collmd (1 # 4);
       ct_collisions := [ sample_contact 1 0 0; sample_contact 2 0 0 ] |} ].

Definition sample_clmd : ClothModifierData :=
  {| clmd_clothObject := sample_cloth;
     clmd_hairdata := None;
     clmd_sim_parms := mk_ClothSimSettings 1 2 8 1;
     clmd_coll_parms := mk_ClothCollSettings 0;
     clmd_solver_result := None |}.

Definition sample_results : list ImplicitSolverResult :=
  [ mk_ImplicitSolverResult 1 4 (1 # 10); mk_ImplicitSolverResult 1 6 (3 # 10) ].

Definition sample_strands : Strands :=
  {| strands_verts := [ZERO; mk_vec3 0 0 1];
     strands_state := [mk_StrandsMotionState ZERO ZERO;
                       mk_StrandsMotionState (mk_vec3 0 0 1) ZERO];
     strands_curves := [2] |}.

(** Sample values for the hair grid code: the structural spring type
    of the Blender headers, and a stand-in for normalisation that
    leaves a vector as it is. *)
Definition sample_continuum_params : ContinuumParams :=
  {| CLOTH_SPRING_TYPE_STRUCTURAL := 2; normalize_v3 := fun v => v |}.

Definition sample_strand_constants : StrandConstants :=
  {| eHairSimParams_Flag_UseGoalStiffnessCurve := 1 |}.

(** A solver whose vertex [i] sits at (i, 0, 0). *)
Definition sample_hair_solver : Implicit_Data :=
  {| id_numverts := 4; id_nondiag := 4;
     id_M := fun _ => 1%Q;
     id_X := fun i => mk_vec3 (inject_Z i) 0 0; id_V := fun _ => ZERO;
     id_Xnew := fun _ => ZERO; id_Vnew := fun _ => mk_vec3 0 0 1;
     id_tfm := fun _ => I3; id_constraints := [] |}.

(** A strand of two segments stored tip first, (2,3) then (1,2), a
    bending spring, and a single-segment strand (0,1). *)
Definition sample_hair_springs : list ClothSpring :=
  [ mk_ClothSpring 2 3 0 2; mk_ClothSpring 1 2 0 2;
    mk_ClothSpring 0 2 0 8; mk_ClothSpring 0 1 0 2 ].

Definition sample_hair_cloth : Cloth :=
  {| cloth_verts := sample_verts; cloth_springs := sample_hair_springs;
     cloth_has_bvhtree := false; cloth_implicit := Some sample_hair_solver |}.

(** A frame with time scale zero. *)
Definition sample_clmd_still : ClothModifierData :=
  {| clmd_clothObject := sample_cloth;
     clmd_hairdata := None;
     clmd_sim_parms := mk_ClothSimSettings 0 2 8 1;
     clmd_coll_parms := mk_ClothCollSettings 0;
     clmd_solver_result := None |}.

(** The sample frame with the goal flag, time scale 1 and [n] steps
    per frame. *)
Definition sample_clmd_steps (n : Z) : ClothModifierData :=
  {| clmd_clothObject := sample_cloth;
     clmd_hairdata := None;
     clmd_sim_parms := mk_ClothSimSettings 1 n 8 1;
     clmd_coll_parms := mk_ClothCollSettings 0;
     clmd_solver_result := None |}.

(** Collaborators whose collision pass asks for the extra solve. *)
Definition sample_colliding : Collaborators := {|
  CollisionModifierData := Q;
  BLI_bvhtree_getepsilon := fun collmd => collmd;
  collision_get_collider_velocity := fun _ _ => (ZERO, ZERO);
  cloth_bvh_objcollision := fun cloth _ _ => (cloth_verts cloth, true);
  BPH_mass_spring_clear_forces := fun id => id;
  BPH_mass_spring_solve_velocities :=
    fun id _ => (id, mk_ImplicitSolverResult 1 4 (1 # 1000));
  BPH_mass_spring_solve_positions := fun id _ => id;
  BPH_mass_spring_apply_result := fun id => id;
  cloth_calc_force := fun _ _ _ id => id;
  cloth_continuum_step := fun _ _ id => id
|}.

(** A cloth with a collision tree, collisions enabled, the goal flag,
    4 steps per frame and time scale 1/2. *)
Definition sample_clmd_colliding : ClothModifierData :=
  {| clmd_clothObject :=
       {| cloth_verts := sample_verts; cloth_springs := sample_springs;
          cloth_has_bvhtree := true; cloth_implicit := Some sample_hair_solver |};
     clmd_hairdata := None;
     clmd_sim_parms := mk_ClothSimSettings (1 # 2) 4 8 1;
     clmd_coll_parms := mk_ClothCollSettings 2;
     clmd_solver_result := None |}.

(** The first segment handed to the grid for the sample hair. *)
Definition sample_first_segment : HairSegment :=
  match @cloth_continuum_fill_grid sample_continuum_params 6 1 ZERO sample_hair_cloth [] with
  | Some (grid_add_segment seg :: _) => seg
  | _ => mk_HairSegment ZERO ZERO ZERO ZERO ZERO ZERO ZERO ZERO None ZERO None
  end.

(** * Properties *)

Lemma Qltb_true a b : Qltb a b = true <-> (a < b)%Q.
Proof.
  unfold Qltb. rewrite negb_true_iff. split.
  - intros Hb. apply Qnot_le_lt. intros Hle. apply Qle_bool_iff in Hle. congruence.
  - intros Hlt. destruct (Qle_bool b a) eqn:Hb; [|reflexivity].
    apply Qle_bool_iff in Hb. exfalso. exact (Qlt_not_le _ _ Hlt Hb).
Qed.

Lemma Qltb_false a b : Qltb a b = false <-> (b <= a)%Q.
Proof.
  unfold Qltb. rewrite negb_false_iff. apply Qle_bool_iff.
Qed.

(** Case analysis on a float comparison of the source. *)
Ltac case_Qltb a b :=
  let Hc := fresh "Hcmp" in
  destruct (Qltb a b) eqn:Hc;
  [apply Qltb_true in Hc | apply Qltb_false in Hc].

Lemma wrap_int_id z : INT_MIN <= z <= INT_MAX -> wrap_int z = z.
Proof.
  unfold wrap_int, INT_MIN, INT_MAX. intros Hz.
  rewrite Z.mod_small by lia. lia.
Qed.

Lemma lookup_map_eq {A B : Type} (f : A -> B) (l1 l2 : list A) :
  map f l1 = map f l2 -> forall n : nat, option_map f (l1 !! n) = option_map f (l2 !! n).
Proof.
  revert l2. induction l1 as [|a l1 IH]; intros [|b l2] Hmap n; try discriminate.
  - reflexivity.
  - cbn in Hmap. inversion Hmap as [[Hab Hrest]].
    destruct n as [|n]; cbn; [rewrite Hab; reflexivity | apply IH; exact Hrest].
Qed.

Lemma map_insert_same {A B : Type} (f : A -> B) (l : list A) : forall (n : nat) a a',
  l !! n = Some a -> f a' = f a -> map f (<[n := a']> l) = map f l.
Proof.
  induction l as [|a0 l IH]; intros n a a' Hn Hf; [discriminate|].
  destruct n as [|n]; cbn in Hn |- *.
  - inversion Hn; subst. rewrite Hf. reflexivity.
  - f_equal. exact (IH _ _ _ Hn Hf).
Qed.




Lemma lookup_vert_Some verts index vert :
  lookup_vert verts index = Some vert ->
  0 <= index /\ verts !! Z.to_nat index = Some vert.
Proof.
  unfold lookup_vert. destruct (index <? 0) eqn:E; [discriminate|].
  apply Z.ltb_ge in E. auto.
Qed.

Lemma lookup_vert_in_range verts index :
  0 <= index < Z.of_nat (length verts) -> exists vert, lookup_vert verts index = Some vert.
Proof.
  intros Hidx. unfold lookup_vert.
  destruct (index <? 0) eqn:E; [apply Z.ltb_lt in E; lia|].
  destruct (verts !! Z.to_nat index) as [vert|] eqn:Hlook; [eauto|].
  apply lookup_ge_None in Hlook. lia.
Qed.

Lemma impulse_total_insert verts : forall (n : nat) vert vert',
  verts !! n = Some vert ->
  impulse_total (<[n := vert']> verts)
    = impulse_total verts - vert_impulse_count vert + vert_impulse_count vert'.
Proof.
  unfold impulse_total.
  induction verts as [|vert0 rest IH]; intros n vert vert' Hn; [discriminate|].
  destruct n as [|n]; cbn in Hn |- *.
  - inversion Hn; subst. lia.
  - rewrite (IH _ _ _ Hn). lia.
Qed.

Lemma impulse_total_reset verts :
  impulse_total (map (fun vert => set_impulse_count vert 0) verts) = 0.
Proof.
  unfold impulse_total. induction verts as [|vert rest IH]; [reflexivity|].
  cbn [map foldr]. rewrite IH. reflexivity.
Qed.

Lemma count_ndof0_app v l1 l2 :
  count_ndof0 v (l1 ++ l2) = (count_ndof0 v l1 + count_ndof0 v l2)%nat.
Proof.
  induction l1 as [|c l1 IH]; [reflexivity|].
  destruct c; cbn; rewrite IH; lia.
Qed.

Lemma count_ndof0_ndof2 v l : Forall is_ndof2 l -> count_ndof0 v l = 0%nat.
Proof.
  induction 1 as [|c l Hc _ IH]; [reflexivity|].
  destruct c; [destruct Hc|]. cbn. exact IH.
Qed.

Lemma set_implicit_same cloth id :
  cloth_implicit cloth = Some id -> set_implicit cloth (Some id) = cloth.
Proof. destruct cloth; cbn; intros ->; reflexivity. Qed.

Lemma min_ff_cases a b : (min_ff a b = a /\ (a <= b)%Q) \/ (min_ff a b = b /\ (b <= a)%Q).
Proof. unfold min_ff. case_Qltb a b; [left | right]; split; auto; lra. Qed.

Lemma max_ff_cases a b : (max_ff a b = a /\ (b <= a)%Q) \/ (max_ff a b = b /\ (a <= b)%Q).
Proof. unfold max_ff. case_Qltb b a; [left | right]; split; auto; lra. Qed.

Lemma min_ii_cases a b : (min_ii a b = a /\ a <= b) \/ (min_ii a b = b /\ b <= a).
Proof. unfold min_ii. destruct (a <? b) eqn:E; [apply Z.ltb_lt in E | apply Z.ltb_ge in E]; lia. Qed.

Lemma max_ii_cases a b : (max_ii a b = a /\ b <= a) \/ (max_ii a b = b /\ a <= b).
Proof. unfold max_ii. destruct (b <? a) eqn:E; [apply Z.ltb_lt in E | apply Z.ltb_ge in E]; lia. Qed.

Lemma CLAMP_bounds a c : (0 <= c -> 0 <= CLAMP a 0 c <= c)%Q.
Proof.
  intros Hc. unfold CLAMP.
  case_Qltb a 0%Q; [lra|]. case_Qltb c a; lra.
Qed.

Lemma CLAMP_between a c : (Qmin 0 c <= CLAMP a 0 c <= Qmax 0 c)%Q.
Proof.
  unfold CLAMP.
  destruct (Q.min_spec 0 c) as [[Hlt Hmin] | [Hle Hmin]];
    destruct (Q.max_spec 0 c) as [[Hlt' Hmax] | [Hle' Hmax]];
    rewrite Hmin, Hmax;
    case_Qltb a 0%Q; try lra; case_Qltb c a; lra.
Qed.

Lemma CLAMP_min_max a c : (0 <= c -> CLAMP a 0 c == Qmax 0 (Qmin a c))%Q.
Proof.
  intros Hc. unfold CLAMP.
  destruct (Q.min_spec a c) as [[Hlt Hmin] | [Hle Hmin]];
    destruct (Q.max_spec 0 (Qmin a c)) as [[Hlt' Hmax] | [Hle' Hmax]];
    rewrite Hmax; rewrite ?Hmin in *;
    case_Qltb a 0%Q; try lra; case_Qltb c a; lra.
Qed.

Lemma CLAMP_zero a c : (c == 0 -> CLAMP a 0 c == 0)%Q.
Proof.
  intros Hc. unfold CLAMP. case_Qltb a 0%Q; [lra|]. case_Qltb c a; lra.
Qed.

Lemma max_ff_Qmax a b : (max_ff a b == Qmax a b)%Q.
Proof.
  unfold max_ff.
  destruct (Q.max_spec a b) as [[Hlt Hmax] | [Hle Hmax]]; rewrite Hmax;
    case_Qltb b a; lra.
Qed.

Lemma nat_Q_S k : (nat_Q (S k) == nat_Q k + 1)%Q.
Proof. unfold nat_Q. rewrite Nat2Z.inj_succ. unfold Z.succ. rewrite inject_Z_plus. reflexivity. Qed.

(** ** Binary32 rounding *)

Lemma pow2_pos e : (0 < pow2 e)%Q.
Proof. apply Qpower_0_lt. reflexivity. Qed.

Lemma pow2_plus a b : (pow2 (a + b) == pow2 a * pow2 b)%Q.
Proof. apply Qpower_plus. discriminate. Qed.

Lemma pow2_opp a : (pow2 (- a) == / pow2 a)%Q.
Proof. apply Qpower_opp. Qed.

Lemma pow2_inject (k : Z) : 0 <= k -> (pow2 k == inject_Z (2 ^ k))%Q.
Proof. intros Hk. unfold pow2. rewrite (Zpower_Qpower 2 k Hk). reflexivity. Qed.

Lemma pow2_lt_inv a b : (pow2 a < pow2 b)%Q -> a < b.
Proof. intros Hlt. apply (Qpower_lt_compat_l_inv 2 a b Hlt). reflexivity. Qed.

(** Rounding sees the value only, not how the rational is written. *)
Lemma float32_round_comp p q : (p == q)%Q -> float32_round p = float32_round q.
Proof. intros Heq. unfold float32_round. rewrite (Qred_complete p q Heq). reflexivity. Qed.

(** The exponent found is not above the true one. *)
Lemma float_exponent_le (q : Q) : (0 < q)%Q -> (pow2 (float_exponent q) <= q)%Q.
Proof.
  intros Hq. unfold float_exponent.
  destruct (Qle_bool (pow2 (Z.log2 (Qnum q) - Z.log2 (Zpos (Qden q)))) q) eqn:Htest.
  - apply Qle_bool_iff. exact Htest.
  - destruct q as [a b]. cbn [Qnum Qden] in *.
    assert (Ha : 0 < a) by (unfold Qlt in Hq; cbn in Hq; lia).
    pose proof (Z.log2_spec a Ha) as [Hla _].
    pose proof (Z.log2_spec (Zpos b) ltac:(lia)) as [_ Hlb].
    pose proof (Z.log2_nonneg a) as Hla0.
    pose proof (Z.log2_nonneg (Zpos b)) as Hlb0.
    replace (Z.log2 a - Z.log2 (Zpos b) - 1) with (Z.log2 a + - Z.succ (Z.log2 (Zpos b))) by lia.
    rewrite pow2_plus, pow2_opp.
    rewrite !pow2_inject by lia.
    rewrite (Qmake_Qdiv a b).
    apply Qle_shift_div_l; [reflexivity|].
    assert (H2 : (0 < inject_Z (2 ^ Z.succ (Z.log2 (Zpos b))))%Q).
    { rewrite <- pow2_inject by lia. apply pow2_pos. }
    assert (HA : (inject_Z (2 ^ Z.log2 a) <= inject_Z a)%Q) by (rewrite <- Zle_Qle; exact Hla).
    assert (HB : (inject_Z (Zpos b) <= inject_Z (2 ^ Z.succ (Z.log2 (Zpos b))))%Q)
      by (rewrite <- Zle_Qle; lia).
    assert (HA0 : (0 < inject_Z (2 ^ Z.log2 a))%Q).
    { rewrite <- pow2_inject by lia. apply pow2_pos. }
    assert (HB0 : (0 < inject_Z (Zpos b))%Q) by reflexivity.
    set (X := inject_Z (2 ^ Z.log2 a)) in *. set (Y := inject_Z (2 ^ Z.succ (Z.log2 (Zpos b)))) in *.
    set (A := inject_Z a) in *. set (B := inject_Z (Zpos b)) in *.
    assert (Hgoal : (X * B <= A * Y)%Q) by nra.
    assert (HY : ~ (Y == 0)%Q) by lra.
    apply (Qmult_le_r _ _ Y H2).
    setoid_replace (X * / Y * B * Y)%Q with (X * B)%Q using relation Qeq by (field; exact HY).
    exact Hgoal.
Qed.

Lemma round_half_even_Z (x : Q) (M : Z) : (x == inject_Z M)%Q -> round_half_even x = M.
Proof.
  intros Hx. unfold round_half_even. cbv zeta.
  assert (Hf : Qfloor x = M) by (rewrite (Qfloor_comp x (inject_Z M) Hx); apply Qfloor_Z).
  rewrite Hf.
  assert (Hc : Qcompare (x - inject_Z M) (1 # 2) = Lt).
  { rewrite <- Qlt_alt. rewrite Hx. lra. }
  rewrite Hc. reflexivity.
Qed.

(** A positive multiple of a power of two with fewer than 25 bits is
    left as it is. *)
Lemma float32_round_pos_exact (r : Q) (m j : Z) :
  0 < m < 2 ^ 24 -> j <= 149 ->
  (r == inject_Z m * pow2 (- j))%Q ->
  (float32_round_pos r == r)%Q.
Proof.
  intros Hm Hj Hr.
  assert (Hrpos : (0 < r)%Q).
  { rewrite Hr. apply Qmult_lt_0_compat; [|apply pow2_pos].
    change 0%Q with (inject_Z 0). rewrite <- Zlt_Qlt. lia. }
  pose proof (float_exponent_le r Hrpos) as Hle.
  assert (Hup : (r < pow2 (24 - j))%Q).
  { rewrite Hr. replace (24 - j) with (24 + - j) by lia. rewrite pow2_plus.
    apply Qmult_lt_compat_r; [apply pow2_pos|].
    rewrite pow2_inject by lia. rewrite <- Zlt_Qlt. lia. }
  assert (He : float_exponent r < 24 - j).
  { apply pow2_lt_inv. eapply Qle_lt_trans; eauto. }
  unfold float32_round_pos.
  set (u := Z.max (float_exponent r) (-126) - 23).
  assert (Hu : 0 <= - j - u) by (unfold u; lia).
  assert (Hx : (r / pow2 u == inject_Z (m * 2 ^ (- j - u)))%Q).
  { rewrite Hr, inject_Z_mult, <- pow2_inject by exact Hu.
    replace (- j - u) with (- j + - u) by lia. rewrite pow2_plus, (pow2_opp u).
    pose proof (pow2_pos u) as HB.
    generalize dependent (pow2 u). generalize (pow2 (- j)). generalize (inject_Z m).
    intros a b c Hc. field. lra. }
  rewrite (round_half_even_Z _ _ Hx).
  rewrite Hr, inject_Z_mult, <- pow2_inject by exact Hu.
  rewrite <- Qmult_assoc, <- pow2_plus.
  replace (- j - u + u) with (- j) by lia. reflexivity.
Qed.

Lemma float32_round_exact (q : Q) (m j : Z) :
  0 <= m < 2 ^ 24 -> j <= 149 ->
  (q == inject_Z m * pow2 (- j))%Q ->
  (float32_round q == q)%Q.
Proof.
  intros Hm Hj Hq. unfold float32_round.
  pose proof (Qred_correct q) as Hred.
  destruct (Qnum (Qred q)) as [|p|p] eqn:Hnum.
  - rewrite <- Hred. destruct (Qred q) as [a b]. cbn in Hnum. subst a. reflexivity.
  - rewrite Qred_correct.
    assert (Hm0 : m <> 0).
    { intros ->. rewrite Qmult_0_l in Hq.
      assert (Hz : (Qred q == 0)%Q) by (rewrite Hred; exact Hq).
      destruct (Qred q) as [a b]. cbn in Hnum. subst a.
      unfold Qeq in Hz. cbn [Qnum Qden] in Hz. lia. }
    rewrite (float32_round_pos_exact (Qred q) m j) by (try lia; rewrite Hred; exact Hq).
    exact Hred.
  - exfalso.
    assert (Hneg : (Qred q < 0)%Q).
    { destruct (Qred q) as [a b]. cbn in Hnum. subst a. reflexivity. }
    assert (Hnn : (0 <= inject_Z m * pow2 (- j))%Q).
    { apply Qmult_le_0_compat; [|apply Qlt_le_weak, pow2_pos].
      change 0%Q with (inject_Z 0). rewrite <- Zle_Qle. lia. }
    assert (Hz : (Qred q == inject_Z m * pow2 (- j))%Q) by (rewrite Hred; exact Hq).
    rewrite Hz in Hneg. lra.
Qed.

(** The exponent found is not below the true one. *)
Lemma float_exponent_lt (q : Q) : (0 < q)%Q -> (q < pow2 (float_exponent q + 1))%Q.
Proof.
  intros Hq. unfold float_exponent.
  destruct (Qle_bool (pow2 (Z.log2 (Qnum q) - Z.log2 (Zpos (Qden q)))) q) eqn:Htest.
  - destruct q as [a b]. cbn [Qnum Qden] in *.
    assert (Ha : 0 < a) by (unfold Qlt in Hq; cbn in Hq; lia).
    pose proof (Z.log2_spec a Ha) as [_ Hla].
    pose proof (Z.log2_spec (Zpos b) ltac:(lia)) as [Hlb _].
    pose proof (Z.log2_nonneg a) as Hla0.
    pose proof (Z.log2_nonneg (Zpos b)) as Hlb0.
    replace (Z.log2 a - Z.log2 (Zpos b) + 1) with (Z.succ (Z.log2 a) + - Z.log2 (Zpos b)) by lia.
    rewrite pow2_plus, pow2_opp.
    rewrite !pow2_inject by lia.
    rewrite (Qmake_Qdiv a b).
    assert (HY0 : (0 < inject_Z (2 ^ Z.log2 (Zpos b)))%Q).
    { rewrite <- pow2_inject by lia. apply pow2_pos. }
    assert (HA : (inject_Z a < inject_Z (2 ^ Z.succ (Z.log2 a)))%Q) by (rewrite <- Zlt_Qlt; exact Hla).
    assert (HB : (inject_Z (2 ^ Z.log2 (Zpos b)) <= inject_Z (Zpos b))%Q)
      by (rewrite <- Zle_Qle; lia).
    assert (HA0 : (0 < inject_Z a)%Q) by (change 0%Q with (inject_Z 0); rewrite <- Zlt_Qlt; exact Ha).
    assert (HB0 : (0 < inject_Z (Zpos b))%Q) by reflexivity.
    set (X := inject_Z (2 ^ Z.succ (Z.log2 a))) in *. set (Y := inject_Z (2 ^ Z.log2 (Zpos b))) in *.
    set (A := inject_Z a) in *. set (B := inject_Z (Zpos b)) in *.
    apply Qlt_shift_div_r; [exact HB0|].
    assert (HY : ~ (Y == 0)%Q) by lra.
    apply (Qmult_lt_r _ _ Y HY0).
    setoid_replace (X * / Y * B * Y)%Q with (X * B)%Q using relation Qeq by (field; exact HY).
    nra.
  - replace (Z.log2 (Qnum q) - Z.log2 (Zpos (Qden q)) - 1 + 1)
      with (Z.log2 (Qnum q) - Z.log2 (Zpos (Qden q))) by lia.
    apply Qnot_le_lt. intros Hle. apply Qle_bool_iff in Hle. congruence.
Qed.

(** The nearest integer is within one half. *)
Lemma round_half_even_near (x : Q) :
  (x - (1 # 2) <= inject_Z (round_half_even x) <= x + (1 # 2))%Q.
Proof.
  unfold round_half_even. cbv zeta.
  pose proof (Qfloor_le x) as Hlo. pose proof (Qlt_floor x) as Hhi.
  rewrite inject_Z_plus in Hhi. change (inject_Z 1) with 1%Q in Hhi.
  destruct (Qcompare (x - inject_Z (Qfloor x)) (1 # 2)) eqn:Hc.
  - apply Qeq_alt in Hc. destruct (Z.even (Qfloor x)).
    + lra.
    + rewrite inject_Z_plus. change (inject_Z 1) with 1%Q. lra.
  - apply Qlt_alt in Hc. lra.
  - apply Qgt_alt in Hc. rewrite inject_Z_plus. change (inject_Z 1) with 1%Q. lra.
Qed.

(** Rounding a number of the normal range changes it by at most the
    fraction 2^-24 of itself. *)
Lemma float32_round_pos_near (r : Q) :
  (pow2 (-126) <= r)%Q ->
  (r - r * pow2 (-24) <= float32_round_pos r <= r + r * pow2 (-24))%Q.
Proof.
  intros Hr.
  assert (Hrpos : (0 < r)%Q) by (pose proof (pow2_pos (-126)); lra).
  pose proof (float_exponent_le r Hrpos) as Hle.
  pose proof (float_exponent_lt r Hrpos) as Hlt.
  assert (He : -126 <= float_exponent r).
  { assert (-126 < float_exponent r + 1); [|lia].
    apply pow2_lt_inv. eapply Qle_lt_trans; eauto. }
  unfold float32_round_pos. rewrite Z.max_l by exact He.
  set (e := float_exponent r) in *.
  pose proof (round_half_even_near (r / pow2 (e - 23))) as [Hlo Hhi].
  set (M := inject_Z (round_half_even (r / pow2 (e - 23)))) in *.
  assert (Hu : (pow2 (e - 23) == pow2 e * pow2 (-23))%Q).
  { replace (e - 23) with (e + -23) by lia. apply pow2_plus. }
  pose proof (pow2_pos e) as Hpe.
  change (pow2 (-24)) with (1 # 16777216)%Q.
  change (pow2 (-23)) with (1 # 8388608)%Q in Hu.
  assert (Hupos : (0 < pow2 (e - 23))%Q) by apply pow2_pos.
  assert (Hx : (r / pow2 (e - 23) * pow2 (e - 23) == r)%Q) by (field; lra).
  set (U := pow2 (e - 23)) in *. set (X := (r / U)%Q) in *. set (E := pow2 e) in *.
  clearbody M. clearbody X. clearbody U. clearbody E.
  nra.
Qed.

Lemma float32_round_near (q : Q) :
  (pow2 (-126) <= q)%Q ->
  (q - q * pow2 (-24) <= float32_round q <= q + q * pow2 (-24))%Q.
Proof.
  intros Hq. unfold float32_round.
  pose proof (Qred_correct q) as Hred.
  assert (Hpos : (0 < Qred q)%Q) by (pose proof (pow2_pos (-126)); rewrite Hred; lra).
  destruct (Qred q) as [a b] eqn:Hr. cbn [Qnum].
  destruct a as [|p|p]; [discriminate Hpos| |discriminate Hpos].
  rewrite Qred_correct.
  assert (Hq' : (pow2 (-126) <= Z.pos p # b)%Q) by (rewrite Hred; exact Hq).
  pose proof (float32_round_pos_near _ Hq') as Hnear.
  rewrite <- Hred. exact Hnear.
Qed.

(** The result of a rounding is written in lowest terms. *)
Lemma float32_round_Qred (q : Q) : float32_round q = Qred (float32_round q).
Proof.
  unfold float32_round. destruct (Qnum (Qred q)).
  - reflexivity.
  - symmetry. apply Qred_complete, Qred_correct.
  - symmetry. apply Qred_complete, Qred_correct.
Qed.

Lemma float32_round_exact_eq (q : Q) (m j : Z) :
  0 <= m < 2 ^ 24 -> j <= 149 ->
  (q == inject_Z m * pow2 (- j))%Q ->
  float32_round q = Qred q.
Proof.
  intros Hm Hj Hq. rewrite float32_round_Qred.
  apply Qred_complete. eapply float32_round_exact; eauto.
Qed.

(** ** Sums of float steps *)

Lemma nat_Q_nonneg k : (0 <= nat_Q k)%Q.
Proof. unfold nat_Q. change 0%Q with (inject_Z 0). rewrite <- Zle_Qle. lia. Qed.

Lemma strands_step_at_double dstep k : strands_step_at dstep k = cloth_step_at dstep (2 * k).
Proof.
  induction k as [|k IH]; [reflexivity|].
  replace (2 * S k)%nat with (S (S (2 * k))) by lia.
  cbn [strands_step_at cloth_step_at]. rewrite IH. reflexivity.
Qed.

Lemma strands_loop_ends_double dstep k :
  strands_loop_ends dstep k <->
  (forall j : nat, (j < k)%nat -> (cloth_step_at dstep (2 * j) < 1)%Q) /\
  (1 <= cloth_step_at dstep (2 * k))%Q.
Proof.
  unfold strands_loop_ends. rewrite strands_step_at_double.
  split; intros [Hlt Hge]; (split; [|exact Hge]); intros j Hj;
    [rewrite <- strands_step_at_double | rewrite strands_step_at_double]; auto.
Qed.

Lemma cloth_loop_ends_unique tf dt k k' :
  cloth_loop_ends tf dt k -> cloth_loop_ends tf dt k' -> k = k'.
Proof.
  intros [Hlt Hge] [Hlt' Hge'].
  destruct (Nat.lt_trichotomy k k') as [Hc | [Hc | Hc]]; [|exact Hc|].
  - specialize (Hlt' k Hc). lra.
  - specialize (Hlt k' Hc). lra.
Qed.

Lemma float_of_int_exact (n : Z) : 0 <= n < 2 ^ 24 -> (float_of_int n == inject_Z n)%Q.
Proof.
  intros Hn. unfold float_of_int. apply (float32_round_exact _ n 0); [exact Hn | lia|].
  change (pow2 (- 0)) with 1%Q. ring.
Qed.

Lemma pow2_126_100 : (pow2 (-126) <= pow2 (-100) * (1 # 4096))%Q.
Proof. vm_compute. discriminate. Qed.

Section FrameSteps.
Variables (tf : Q) (n : Z).
Hypothesis tf_normal : (pow2 (-100) <= tf)%Q.
Hypothesis n_range : 1 <= n <= 1024.

Let dt : Q := float_div tf (float_of_int n).
Let T : Q := (tf / inject_Z n)%Q.

Lemma tf_positive : (0 < tf)%Q.
Proof. pose proof (pow2_pos (-100)). lra. Qed.

Lemma n_Q_range : (1 <= inject_Z n <= 1024)%Q.
Proof.
  change 1%Q with (inject_Z 1). change 1024%Q with (inject_Z 1024).
  rewrite <- !Zle_Qle. exact n_range.
Qed.

Lemma T_times_n : (T * inject_Z n == tf)%Q.
Proof. unfold T. pose proof n_Q_range. field. lra. Qed.

Lemma T_range : (tf * (1 # 1024) <= T <= tf)%Q.
Proof.
  pose proof T_times_n as HT. pose proof n_Q_range as HN. pose proof tf_positive as Htf.
  assert (HT0 : (0 < T)%Q).
  { unfold T. apply Qlt_shift_div_l; lra. }
  clearbody T. nra.
Qed.

Lemma dt_near : (T - T * pow2 (-24) <= dt <= T + T * pow2 (-24))%Q.
Proof.
  unfold dt, float_div.
  assert (Hn : (float_of_int n == inject_Z n)%Q) by (apply float_of_int_exact; lia).
  rewrite (float32_round_comp _ T) by (unfold T; rewrite Hn; reflexivity).
  apply float32_round_near.
  pose proof T_range as HT. pose proof tf_positive as Htf.
  pose proof pow2_126_100 as Hc. pose proof tf_normal as Hnormal.
  clearbody T. lra.
Qed.

(** After [j] additions the sum is within [5 j tf 2^-24] of [j tf / n]. *)
Lemma cloth_step_at_near (j : nat) :
  Z.of_nat j <= n + 2 ->
  (nat_Q j * T - 5 * (nat_Q j * tf) * pow2 (-24) <= cloth_step_at dt j
     <= nat_Q j * T + 5 * (nat_Q j * tf) * pow2 (-24))%Q.
Proof.
  pose proof T_range as HT. pose proof T_times_n as HTn. pose proof n_Q_range as HN.
  pose proof tf_positive as Htf. pose proof dt_near as Hdt.
  change (pow2 (-24)) with (1 # 16777216)%Q in *.
  induction j as [|j IH]; intros Hj.
  - cbn [cloth_step_at]. change (nat_Q 0) with 0%Q. lra.
  - specialize (IH ltac:(lia)).
    assert (HJ : (0 <= nat_Q j <= inject_Z n + 1)%Q).
    { split; [apply nat_Q_nonneg|]. unfold nat_Q.
      change 1%Q with (inject_Z 1). rewrite <- inject_Z_plus, <- Zle_Qle. lia. }
    cbn [cloth_step_at]. unfold float_add.
    set (s := cloth_step_at dt j) in *.
    assert (HJT : (0 <= nat_Q j * T <= tf + T)%Q) by (clearbody T s dt; nra).
    assert (HJtf : (0 <= nat_Q j * tf <= 1025 * tf)%Q) by (clearbody T s dt; nra).
    assert (Hs0 : (0 <= nat_Q j * T - 5 * (nat_Q j * tf) * (1 # 16777216))%Q)
      by (clearbody T s dt; nra).
    assert (Hx : (pow2 (-126) <= s + dt)%Q).
    { pose proof pow2_126_100 as Hc. pose proof tf_normal as Hnormal.
      clearbody T s dt. lra. }
    pose proof (float32_round_near (s + dt) Hx) as Hr.
    change (pow2 (-24)) with (1 # 16777216)%Q in Hr.
    rewrite nat_Q_S.
    set (r := float32_round (s + dt)) in *.
    clearbody T s dt r. 
    set (P := (nat_Q j * T)%Q) in *. set (R := (nat_Q j * tf)%Q) in *.
    assert (HP : ((nat_Q j + 1) * T == P + T)%Q) by (unfold P; ring).
    assert (HR : ((nat_Q j + 1) * tf == R + tf)%Q) by (unfold R; ring).
    rewrite HP, HR. clearbody P R.
    assert (Hxe : (0 <= (s + dt) * (1 # 16777216) <= 4 * tf * (1 # 16777216))%Q) by lra.
    lra.
Qed.

Lemma cloth_step_at_below (j : nat) :
  Z.of_nat j <= n - 1 -> (cloth_step_at dt j < tf)%Q.
Proof.
  intros Hj. pose proof (cloth_step_at_near j ltac:(lia)) as [_ Hup].
  pose proof T_range as HT. pose proof T_times_n as HTn. pose proof n_Q_range as HN.
  pose proof tf_positive as Htf.
  change (pow2 (-24)) with (1 # 16777216)%Q in *.
  assert (HJ : (0 <= nat_Q j <= inject_Z n - 1)%Q).
  { split; [apply nat_Q_nonneg|]. unfold nat_Q.
    change 1%Q with (inject_Z 1). unfold Qminus. rewrite <- inject_Z_opp, <- inject_Z_plus, <- Zle_Qle. lia. }
  set (s := cloth_step_at dt j) in *. clearbody T s dt.
  assert (HJT : (nat_Q j * T <= tf - T)%Q) by nra.
  assert (HJtf : (nat_Q j * tf <= 1024 * tf)%Q) by nra.
  lra.
Qed.

Lemma cloth_step_at_above (j : nat) :
  n + 1 <= Z.of_nat j <= n + 2 -> (tf <= cloth_step_at dt j)%Q.
Proof.
  intros Hj. pose proof (cloth_step_at_near j ltac:(lia)) as [Hlo _].
  pose proof T_range as HT. pose proof T_times_n as HTn. pose proof n_Q_range as HN.
  pose proof tf_positive as Htf.
  change (pow2 (-24)) with (1 # 16777216)%Q in *.
  assert (HJ : (inject_Z n + 1 <= nat_Q j <= inject_Z n + 2)%Q).
  { unfold nat_Q. change 1%Q with (inject_Z 1). change 2%Q with (inject_Z 2).
    rewrite <- !inject_Z_plus, <- !Zle_Qle. lia. }
  set (s := cloth_step_at dt j) in *. clearbody T s dt.
  assert (HJT : (tf + T <= nat_Q j * T)%Q) by nra.
  assert (HJtf : (nat_Q j * tf <= 1026 * tf)%Q) by nra.
  lra.
Qed.

(** The cloth loop makes [n] passes or one more. *)
Lemma cloth_loop_ends_near :
  cloth_loop_ends tf dt (Z.to_nat n) \/ cloth_loop_ends tf dt (S (Z.to_nat n)).
Proof.
  destruct (Qlt_le_dec (cloth_step_at dt (Z.to_nat n)) tf) as [Hlt | Hge].
  - right. split.
    + intros j Hj. destruct (Nat.eq_dec j (Z.to_nat n)) as [-> | Hne]; [exact Hlt|].
      apply cloth_step_at_below. lia.
    + apply cloth_step_at_above. lia.
  - left. split; [|exact Hge].
    intros j Hj. apply cloth_step_at_below. lia.
Qed.
End FrameSteps.

Section StrandSteps.
Variable n : Z.
Hypothesis n_range : 1 <= n <= 1024.

Let dstep : Q := float_div 1 (float_of_int n).

Lemma one_normal : (pow2 (-100) <= 1)%Q.
Proof. vm_compute. discriminate. Qed.

(** The strand loop makes [ceil (n / 2)] passes or one more, and no
    more than [ceil (n / 2)] when [n] is odd. *)
Lemma strands_loop_ends_near :
  strands_loop_ends dstep (Z.to_nat ((n + 1) / 2)) \/
  (Z.even n = true /\ strands_loop_ends dstep (S (Z.to_nat ((n + 1) / 2)))).
Proof.
  pose proof (Z.div_mod (n + 1) 2 ltac:(lia)) as Hdm.
  pose proof (Z.mod_pos_bound (n + 1) 2 ltac:(lia)) as Hmod.
  set (m := Z.to_nat ((n + 1) / 2)).
  assert (Hm : Z.of_nat m = (n + 1) / 2) by (unfold m; lia).
  assert (Hbelow : forall j : nat, (j < m)%nat -> (cloth_step_at dstep (2 * j) < 1)%Q).
  { intros j Hj. apply (cloth_step_at_below 1 n one_normal n_range). lia. }
  destruct (Qlt_le_dec (cloth_step_at dstep (2 * m)) 1) as [Hlt | Hge].
  - right.
    assert (Heven : Z.even n = true).
    { destruct (Z.even n) eqn:E; [reflexivity|]. exfalso.
      rewrite <- Z.negb_odd in E. apply negb_false_iff in E.
      apply Z.odd_spec in E. destruct E as [q Hq].
      assert (Hge : (1 <= cloth_step_at dstep (2 * m))%Q).
      { apply (cloth_step_at_above 1 n one_normal n_range). lia. }
      lra. }
    split; [exact Heven|].
    apply strands_loop_ends_double. split.
    + intros j Hj. destruct (Nat.eq_dec j m) as [-> | Hne]; [exact Hlt | apply Hbelow; lia].
    + apply (cloth_step_at_above 1 n one_normal n_range).
      apply Z.even_spec in Heven. destruct Heven as [q Hq]. lia.
  - left. apply strands_loop_ends_double. split; [exact Hbelow | exact Hge].
Qed.
End StrandSteps.

Section ExactSteps.
Variables (tf : Q) (e : Z).
Hypothesis tf_one : (tf == 1)%Q.
Hypothesis e_range : 0 <= e <= 23.

Let n : Z := 2 ^ e.
Let dt : Q := float_div tf (float_of_int n).

Lemma n_pow2_range : 1 <= n <= 2 ^ 23.
Proof.
  unfold n. split.
  - apply (Z.pow_le_mono_r 2 0 e); lia.
  - apply Z.pow_le_mono_r; lia.
Qed.

Lemma dt_pow2 : (dt == pow2 (- e))%Q.
Proof.
  unfold dt, float_div. pose proof n_pow2_range as Hn.
  assert (Hfn : (float_of_int n == inject_Z n)%Q) by (apply float_of_int_exact; lia).
  assert (Hq : (tf / float_of_int n == inject_Z 1 * pow2 (- e))%Q).
  { rewrite Hfn, tf_one. unfold n. rewrite <- pow2_inject by lia.
    rewrite pow2_opp. change (inject_Z 1) with 1%Q. pose proof (pow2_pos e). field. lra. }
  rewrite (float32_round_exact _ 1 e ltac:(lia) ltac:(lia) Hq). rewrite Hq.
  change (inject_Z 1) with 1%Q. ring.
Qed.

Lemma cloth_step_at_pow2 (k : nat) :
  Z.of_nat k < 2 ^ 24 ->
  (cloth_step_at dt k == nat_Q k * pow2 (- e))%Q.
Proof.
  induction k as [|k IH]; intros Hk.
  - cbn [cloth_step_at]. change (nat_Q 0) with 0%Q. ring.
  - specialize (IH ltac:(lia)). cbn [cloth_step_at]. unfold float_add.
    assert (Hq : (cloth_step_at dt k + dt == inject_Z (Z.of_nat (S k)) * pow2 (- e))%Q).
    { rewrite IH, dt_pow2. fold (nat_Q (S k)). rewrite nat_Q_S. ring. }
    rewrite (float32_round_exact _ (Z.of_nat (S k)) e ltac:(lia) ltac:(lia) Hq).
    exact Hq.
Qed.

Lemma cloth_step_at_pow2_lt (k : nat) :
  Z.of_nat k < 2 ^ 24 ->
  ((cloth_step_at dt k < tf)%Q <-> Z.of_nat k < n).
Proof.
  intros Hk. rewrite (cloth_step_at_pow2 k Hk), tf_one.
  assert (Hn : (inject_Z n * pow2 (- e) == 1)%Q).
  { unfold n. rewrite <- pow2_inject by lia. rewrite <- pow2_plus.
    replace (e + - e) with 0 by lia. reflexivity. }
  pose proof (pow2_pos (- e)) as Hp.
  rewrite <- Hn. unfold nat_Q. rewrite Zlt_Qlt.
  apply Qmult_lt_r. exact Hp.
Qed.

(** With time scale 1 and a power of two for the step count the sums
    are exact and the cloth loop makes [n] passes. *)
Lemma cloth_loop_ends_pow2 : cloth_loop_ends tf dt (Z.to_nat n).
Proof.
  pose proof n_pow2_range as Hn.
  assert (H24 : 2 ^ 23 < 2 ^ 24) by (vm_compute; reflexivity).
  split.
  - intros j Hj. apply cloth_step_at_pow2_lt; lia.
  - apply Qnot_lt_le. intros Hlt. apply cloth_step_at_pow2_lt in Hlt; lia.
Qed.

End ExactSteps.

Section ExactStrandSteps.
Variable e : Z.
Hypothesis e_range : 0 <= e <= 23.

Let n : Z := 2 ^ e.
Let dstep : Q := float_div 1 (float_of_int n).

(** For a power of two the strand loop makes [ceil (n / 2)] passes. *)
Lemma strands_loop_ends_pow2 : strands_loop_ends dstep (Z.to_nat ((n + 1) / 2)).
Proof.
  pose proof (n_pow2_range e e_range) as Hn. cbv zeta in Hn.
  pose proof (cloth_step_at_pow2_lt 1 e (Qeq_refl 1) e_range) as Hlt. cbv zeta in Hlt.
  unfold dstep, n.
  assert (H24 : 2 ^ 23 < 2 ^ 24) by (vm_compute; reflexivity).
  pose proof (Z.div_mod (2 ^ e + 1) 2 ltac:(lia)) as Hdm.
  pose proof (Z.mod_pos_bound (2 ^ e + 1) 2 ltac:(lia)) as Hmod.
  apply strands_loop_ends_double. split.
  - intros j Hj. apply Hlt; lia.
  - apply Qnot_lt_le. intros Hc. apply Hlt in Hc; lia.
Qed.
End ExactStrandSteps.

Section SetupProperties.
Context `{Constants}.

Lemma pair_count_sum_bounds springs :
  0 <= pair_count_sum springs <= 3 * Z.of_nat (length springs).
Proof.
  unfold pair_count_sum.
  induction springs as [|s springs IH]; simpl length; simpl map; simpl foldr.
  - lia.
  - unfold spring_pair_count at 1 3. destruct (_ =? _); lia.
Qed.

Lemma count_nondiag_fold springs : forall acc,
  0 <= acc ->
  acc + 3 * Z.of_nat (length springs) <= INT_MAX ->
  fold_left count_nondiag_step springs acc = acc + pair_count_sum springs.
Proof.
  induction springs as [|s springs IH]; intros acc Hacc Hmax.
  - unfold pair_count_sum. simpl. lia.
  - cbn [fold_left]. cbn [length] in Hmax.
    assert (Hstep : count_nondiag_step acc s = acc + spring_pair_count s).
    { unfold count_nondiag_step, spring_pair_count.
      destruct (_ =? _); apply wrap_int_id; unfold INT_MIN, INT_MAX in *; lia. }
    rewrite Hstep.
    assert (1 <= spring_pair_count s <= 3)
      by (unfold spring_pair_count; destruct (_ =? _); lia).
    rewrite IH by lia.
    unfold pair_count_sum. cbn [map foldr]. lia.
Qed.

(** C1: while the count fits an [int], the number of off-diagonal
    blocks counted by [cloth_count_nondiag_blocks] is the sum over the
    springs of 3 for an angular bending spring and 1 for any other,
    and whenever [cloth_solver_init_data] creates a solver (none
    existed, or its vertex count differed) it creates it for the
    cloth's vertex count with exactly this capacity. *)
Theorem C1_nondiag_capacity (cloth : Cloth) :
  3 * Z.of_nat (length (cloth_springs cloth)) <= INT_MAX ->
  cloth_count_nondiag_blocks cloth = pair_count_sum (cloth_springs cloth) /\
  forall cloth' id evs,
    cloth_solver_init_data cloth = (cloth', id, evs) ->
    (forall n c, In (ev_create n c) evs ->
       n = cloth_numverts cloth /\ c = pair_count_sum (cloth_springs cloth)) /\
    ((cloth_implicit cloth = None \/
      exists old, cloth_implicit cloth = Some old /\
                  BPH_mass_spring_solver_numvert old <> cloth_numverts cloth) ->
     In (ev_create (cloth_numverts cloth) (pair_count_sum (cloth_springs cloth))) evs /\
     id = BPH_mass_spring_solver_create (cloth_numverts cloth)
            (pair_count_sum (cloth_springs cloth)) /\
     id_nondiag id = pair_count_sum (cloth_springs cloth) /\
     cloth_implicit cloth' = Some id).
Proof.
  intros Hmax.
  assert (Hcount : cloth_count_nondiag_blocks cloth = pair_count_sum (cloth_springs cloth)).
  { unfold cloth_count_nondiag_blocks. rewrite count_nondiag_fold; lia. }
  split; [exact Hcount|].
  intros cloth' id evs Hinit. unfold cloth_solver_init_data in Hinit.
  rewrite Hcount in Hinit.
  destruct (cloth_implicit cloth) as [old|] eqn:Himpl.
  - destruct (cloth_numverts cloth =? BPH_mass_spring_solver_numvert old) eqn:Hnv;
      cbn in Hinit; inversion Hinit; subst; clear Hinit.
    + apply Z.eqb_eq in Hnv. split.
      * intros n c [].
      * intros [Hnone | (old' & Hold & Hne)]; [discriminate|].
        inversion Hold; subst. congruence.
    + split.
      * intros n c [Hin | [Hin | []]]; [discriminate|]. inversion Hin; subst. auto.
      * intros _. repeat split; auto. right; left; reflexivity.
  - cbn in Hinit; inversion Hinit; subst; clear Hinit. split.
    + intros n c [Hin | []]. inversion Hin; subst. auto.
    + intros _. repeat split; auto. left; reflexivity.
Qed.

Lemma solver_init_loop_alloc verts : forall i id,
  same_allocation (solver_init_loop i verts id) id.
Proof.
  induction verts as [|vert rest IH]; intros i id; cbn [solver_init_loop].
  - split; reflexivity.
  - destruct (IH (i + 1) (BPH_mass_spring_set_motion_state
                (BPH_mass_spring_set_vertex_mass id i (vert_mass vert)) i (vert_x vert) ZERO))
      as [Hn Hc].
    split; [rewrite Hn | rewrite Hc]; reflexivity.
Qed.

Lemma set_positions_loop_alloc hairdata verts : forall i id id',
  set_positions_loop hairdata i verts id = Some id' -> same_allocation id' id.
Proof.
  induction verts as [|vert rest IH]; intros i id id' Hloop; cbn [set_positions_loop] in Hloop.
  - inversion Hloop; subst. split; reflexivity.
  - destruct hairdata as [hd|].
    + destruct (hd !! i) as [root|]; [|discriminate].
      apply IH in Hloop. destruct Hloop as [Hn Hc].
      split; [rewrite Hn | rewrite Hc]; reflexivity.
    + apply IH in Hloop. destruct Hloop as [Hn Hc].
      split; [rewrite Hn | rewrite Hc]; reflexivity.
Qed.

Lemma set_positions_loop_total hairdata verts : forall i id,
  match hairdata with
  | None => True
  | Some hd => (i + length verts <= length hd)%nat
  end ->
  exists id', set_positions_loop hairdata i verts id = Some id'.
Proof.
  induction verts as [|vert rest IH]; intros i id Hlen; cbn [set_positions_loop].
  - eauto.
  - destruct hairdata as [hd|].
    + cbn [length] in Hlen.
      destruct (hd !! i) as [root|] eqn:Hroot.
      * apply IH. lia.
      * apply lookup_ge_None in Hroot. lia.
    + apply IH. exact I.
Qed.

Lemma init_data_reuse cloth old :
  cloth_implicit cloth = Some old ->
  BPH_mass_spring_solver_numvert old = cloth_numverts cloth ->
  cloth_solver_init_data cloth = (cloth, old, []).
Proof.
  intros Himpl Hnv. unfold cloth_solver_init_data.
  rewrite Himpl, Hnv, Z.eqb_refl. cbn. rewrite set_implicit_same; auto.
Qed.

(** C8: [cloth_solver_init_data] calls the allocator once when the
    cloth has no solver, frees and re-creates when the solver's
    vertex count differs from the cloth's, and otherwise makes no
    allocator call and returns the very solver it found, leaving the
    cloth as it is; [BPH_cloth_solver_init] and
    [BPH_cloth_solver_set_positions] on such a cloth write their
    per-vertex data into that same solver, whose vertex count and
    capacity stay what they were. *)
Theorem C8_solver_reuse (cloth : Cloth) :
  (forall cloth' id evs,
      cloth_solver_init_data cloth = (cloth', id, evs) ->
      match cloth_implicit cloth with
      | None =>
          evs = [ev_create (cloth_numverts cloth) (cloth_count_nondiag_blocks cloth)]
      | Some old =>
          if cloth_numverts cloth =? BPH_mass_spring_solver_numvert old
          then evs = [] /\ id = old /\ cloth' = cloth
          else evs = [ev_free old;
                      ev_create (cloth_numverts cloth) (cloth_count_nondiag_blocks cloth)]
      end) /\
  (forall old,
      cloth_implicit cloth = Some old ->
      BPH_mass_spring_solver_numvert old = cloth_numverts cloth ->
      (snd (BPH_cloth_solver_init cloth) = [] /\
       cloth_implicit (fst (BPH_cloth_solver_init cloth))
         = Some (solver_init_loop 0 (cloth_verts cloth) old) /\
       same_allocation (solver_init_loop 0 (cloth_verts cloth) old) old) /\
      (forall hairdata,
          match hairdata with
          | None => True
          | Some hd => (length (cloth_verts cloth) <= length hd)%nat
          end ->
          exists id',
            set_positions_loop hairdata 0 (cloth_verts cloth) old = Some id' /\
            BPH_cloth_solver_set_positions hairdata cloth
              = Some (set_implicit cloth (Some id'), []) /\
            same_allocation id' old)).
Proof.
  split.
  - intros cloth' id evs Hinit. unfold cloth_solver_init_data in Hinit.
    destruct (cloth_implicit cloth) as [old|] eqn:Himpl.
    + destruct (cloth_numverts cloth =? BPH_mass_spring_solver_numvert old) eqn:Hnv;
        cbn in Hinit; inversion Hinit; subst; clear Hinit.
      * repeat split. apply set_implicit_same; exact Himpl.
      * reflexivity.
    + cbn in Hinit; inversion Hinit; reflexivity.
  - intros old Himpl Hnv. split.
    + unfold BPH_cloth_solver_init. rewrite (init_data_reuse _ _ Himpl Hnv). cbn.
      repeat split; apply solver_init_loop_alloc.
    + intros hairdata Hlen.
      destruct (set_positions_loop_total hairdata (cloth_verts cloth) 0 old) as [id' Hloop].
      { destruct hairdata; [cbn; lia | exact I]. }
      exists id'. split; [exact Hloop|]. split.
      * unfold BPH_cloth_solver_set_positions.
        rewrite (init_data_reuse _ _ Himpl Hnv), Hloop. reflexivity.
      * eapply set_positions_loop_alloc; eauto.
Qed.
End SetupProperties.

Section ResponseProperties.
Context `{Constants} `{Collaborators}.
Local Open Scope Q_scope.

Lemma collision_response_unfold cloth collmd collpair dt restitution vert :
  lookup_vert (cloth_verts cloth) (cp_ap1 collpair) = Some vert ->
  collision_response cloth collmd collpair dt restitution =
    if Qltb 0 (margin_distance collmd collpair) then Some (false, ZERO)
    else if has_flag (cp_flag collpair) COLLISION_IN_FUTURE then Some (false, ZERO)
    else if Qltb (v_nor_old vert collmd collpair) (- ALMOST_ZERO) then
      let bounce := - v_nor_old vert collmd collpair * restitution in
      let repulse := CLAMP (- margin_distance collmd collpair / dt) 0 (4 * bounce) in
      if Qltb (margin_distance collmd collpair) (- BLI_bvhtree_getepsilon collmd) then
        Some (true, mul_v3_v3fl (cp_normal collpair)
                      (max_ff repulse bounce - v_nor_new vert collmd collpair))
      else
        Some (true, mul_v3_v3fl (cp_normal collpair)
                      (repulse - v_nor_new vert collmd collpair))
    else Some (false, ZERO).
Proof.
  intros Hvert. unfold collision_response, margin_distance, v_nor_old, v_nor_new.
  rewrite Hvert.
  destruct (collision_get_collider_velocity collmd collpair) as [v2_old v2_new].
  reflexivity.
Qed.

Lemma collision_response_early cloth collmd collpair dt restitution :
  (0 < margin_distance collmd collpair \/
   has_flag (cp_flag collpair) COLLISION_IN_FUTURE = true) ->
  collision_response cloth collmd collpair dt restitution = Some (false, ZERO).
Proof.
  intros Hearly. unfold collision_response. fold (margin_distance collmd collpair).
  case_Qltb 0 (margin_distance collmd collpair); [reflexivity|].
  destruct Hearly as [Hpos | Hfut]; [lra|]. rewrite Hfut. reflexivity.
Qed.

Lemma collision_response_accept cloth collmd collpair dt restitution impulse :
  collision_response cloth collmd collpair dt restitution = Some (true, impulse) ->
  exists vert,
    lookup_vert (cloth_verts cloth) (cp_ap1 collpair) = Some vert /\
    margin_distance collmd collpair <= 0 /\
    has_flag (cp_flag collpair) COLLISION_IN_FUTURE = false /\
    v_nor_old vert collmd collpair < - ALMOST_ZERO.
Proof.
  intros Hresp.
  destruct (lookup_vert (cloth_verts cloth) (cp_ap1 collpair)) as [vert|] eqn:Hvert.
  - rewrite (collision_response_unfold _ _ _ _ _ _ Hvert) in Hresp.
    exists vert. split; [reflexivity|].
    case_Qltb 0 (margin_distance collmd collpair); [discriminate|].
    destruct (has_flag (cp_flag collpair) COLLISION_IN_FUTURE); [discriminate|].
    case_Qltb (v_nor_old vert collmd collpair) (- ALMOST_ZERO); [|discriminate].
    auto.
  - unfold collision_response in Hresp. rewrite Hvert in Hresp.
    destruct (Qltb 0 _); [discriminate|].
    destruct (has_flag _ _); discriminate.
Qed.

Lemma collision_response_reject cloth collmd collpair dt restitution impulse :
  collision_response cloth collmd collpair dt restitution = Some (false, impulse) ->
  impulse = ZERO.
Proof.
  intros Hresp.
  destruct (lookup_vert (cloth_verts cloth) (cp_ap1 collpair)) as [vert|] eqn:Hvert.
  - rewrite (collision_response_unfold _ _ _ _ _ _ Hvert) in Hresp.
    destruct (Qltb 0 _); [congruence|].
    destruct (has_flag _ _); [congruence|].
    destruct (Qltb (v_nor_old _ _ _) _); [|congruence].
    cbv zeta in Hresp. destruct (Qltb _ _); discriminate.
  - unfold collision_response in Hresp. rewrite Hvert in Hresp.
    destruct (Qltb 0 _); [congruence|].
    destruct (has_flag _ _); [congruence|discriminate].
Qed.

Lemma collision_response_total cloth collmd collpair dt restitution :
  (0 <= cp_ap1 collpair < Z.of_nat (length (cloth_verts cloth)))%Z ->
  exists r, collision_response cloth collmd collpair dt restitution = Some r.
Proof.
  intros Hidx. destruct (lookup_vert_in_range _ _ Hidx) as [vert Hvert].
  rewrite (collision_response_unfold _ _ _ _ _ _ Hvert).
  destruct (Qltb 0 _); [eauto|].
  destruct (has_flag _ _); [eauto|].
  destruct (Qltb (v_nor_old _ _ _) _); [|eauto].
  cbv zeta. destruct (Qltb _ _); eauto.
Qed.

(** C5: the response is "no impulse" (flag false, impulse zeroed)
    whenever the contact is flagged as in the future, whenever its
    distance exceeds the collision margin, and whenever the normal
    component of the old relative velocity is not negative; a false
    flag always comes with the zero impulse; and an impulse is
    produced only when the contact is not in the future, within the
    margin and the vertex moves toward the collider. *)
Theorem C5_no_impulse_preconditions
    (cloth : Cloth) (collmd : CollisionModifierData) (collpair : CollPair)
    (dt restitution : Q) :
  0 <= ALMOST_ZERO ->
  (has_flag (cp_flag collpair) COLLISION_IN_FUTURE = true ->
   collision_response cloth collmd collpair dt restitution = Some (false, ZERO)) /\
  (BLI_bvhtree_getepsilon collmd < cp_distance collpair ->
   collision_response cloth collmd collpair dt restitution = Some (false, ZERO)) /\
  (forall vert,
      lookup_vert (cloth_verts cloth) (cp_ap1 collpair) = Some vert ->
      0 <= v_nor_old vert collmd collpair ->
      collision_response cloth collmd collpair dt restitution = Some (false, ZERO)) /\
  (forall impulse,
      collision_response cloth collmd collpair dt restitution = Some (false, impulse) ->
      impulse = ZERO) /\
  (forall impulse,
      collision_response cloth collmd collpair dt restitution = Some (true, impulse) ->
      has_flag (cp_flag collpair) COLLISION_IN_FUTURE = false /\
      cp_distance collpair <= BLI_bvhtree_getepsilon collmd /\
      exists vert,
        lookup_vert (cloth_verts cloth) (cp_ap1 collpair) = Some vert /\
        v_nor_old vert collmd collpair < 0).
Proof.
  intros Hzero. split; [|split; [|split; [|split]]].
  - intros Hfut. apply collision_response_early. right; exact Hfut.
  - intros Hdist. apply collision_response_early. left. unfold margin_distance. lra.
  - intros vert Hvert Hmag.
    rewrite (collision_response_unfold _ _ _ _ _ _ Hvert).
    destruct (Qltb 0 _); [reflexivity|].
    destruct (has_flag _ _); [reflexivity|].
    case_Qltb (v_nor_old vert collmd collpair) (- ALMOST_ZERO); [lra|reflexivity].
  - intros impulse Hresp. eapply collision_response_reject; exact Hresp.
  - intros impulse Hresp.
    destruct (collision_response_accept _ _ _ _ _ _ Hresp) as (vert & Hv & Hm & Hfut & Hmag).
    split; [exact Hfut|]. split; [unfold margin_distance in Hm; lra|].
    exists vert. split; [exact Hv | lra].
Qed.

(** C4: in a response that produces an impulse, the repulsion term
    [-margin_distance / dt] is clamped between 0 and 4 times the
    bounce term [-v_nor_old * restitution]; for a restitution that is
    not negative the bounce term is not negative, the clamped value
    lies in [0, 4 bounce] and (for a time step other than zero) is
    the raw repulsion cut off at both ends.  Below the margin by more than epsilon the impulse is the
    normal scaled by the larger of repulsion and bounce minus the new
    normal velocity; otherwise bounce plays no part and the impulse is
    the normal scaled by the clamped repulsion minus the new normal
    velocity. *)
Theorem C4_repulse_clamp
    (cloth : Cloth) (collmd : CollisionModifierData) (collpair : CollPair)
    (dt restitution : Q) (vert : ClothVertex) (impulse : vec3) :
  0 <= ALMOST_ZERO ->
  lookup_vert (cloth_verts cloth) (cp_ap1 collpair) = Some vert ->
  collision_response cloth collmd collpair dt restitution = Some (true, impulse) ->
  let bounce := - v_nor_old vert collmd collpair * restitution in
  let repulse := CLAMP (- margin_distance collmd collpair / dt) 0 (4 * bounce) in
  (Qmin 0 (4 * bounce) <= repulse <= Qmax 0 (4 * bounce)) /\
  (0 <= restitution ->
   0 <= bounce /\ 0 <= repulse <= 4 * bounce /\
   (~ dt == 0 ->
    repulse == Qmax 0 (Qmin (- margin_distance collmd collpair / dt) (4 * bounce)))) /\
  (margin_distance collmd collpair < - BLI_bvhtree_getepsilon collmd ->
   impulse = mul_v3_v3fl (cp_normal collpair)
               (max_ff repulse bounce - v_nor_new vert collmd collpair) /\
   max_ff repulse bounce == Qmax repulse bounce) /\
  (- BLI_bvhtree_getepsilon collmd <= margin_distance collmd collpair ->
   impulse = mul_v3_v3fl (cp_normal collpair)
               (repulse - v_nor_new vert collmd collpair)).
Proof.
  intros Hzero Hvert Hresp bounce repulse.
  destruct (collision_response_accept _ _ _ _ _ _ Hresp) as (vert' & Hvert' & Hm & Hfut & Hmag).
  rewrite Hvert in Hvert'. inversion Hvert'; subst vert'. clear Hvert'.
  rewrite (collision_response_unfold _ _ _ _ _ _ Hvert) in Hresp.
  rewrite Hfut in Hresp.
  apply Qltb_true in Hmag. rewrite Hmag in Hresp. apply Qltb_true in Hmag.
  case_Qltb 0 (margin_distance collmd collpair); [lra|].
  cbv zeta in Hresp. fold bounce in Hresp. fold repulse in Hresp.
  split; [apply CLAMP_between|].
  split.
  { intros Hrest.
    assert (Hb : 0 <= bounce) by (unfold bounce; nra).
    split; [exact Hb|]. split.
    - apply CLAMP_bounds. lra.
    - intros _. apply CLAMP_min_max. lra. }
  split.
  - intros Hdeep. apply Qltb_true in Hdeep. rewrite Hdeep in Hresp.
    inversion Hresp. split; [reflexivity | apply max_ff_Qmax].
  - intros Hshallow. apply Qltb_false in Hshallow. rewrite Hshallow in Hresp.
    inversion Hresp. reflexivity.
Qed.

Lemma zero_restitution_impulse cloth collmd collpair dt vert impulse :
  lookup_vert (cloth_verts cloth) (cp_ap1 collpair) = Some vert ->
  collision_response cloth collmd collpair dt 0 = Some (true, impulse) ->
  veq impulse (mul_v3_v3fl (cp_normal collpair) (- v_nor_new vert collmd collpair)).
Proof.
  intros Hvert Hresp.
  rewrite (collision_response_unfold _ _ _ _ _ _ Hvert) in Hresp.
  destruct (Qltb 0 _); [discriminate|].
  destruct (has_flag _ _); [discriminate|].
  destruct (Qltb (v_nor_old _ _ _) _); [|discriminate].
  cbv zeta in Hresp.
  set (bounce := - v_nor_old vert collmd collpair * 0) in *.
  set (repulse := CLAMP (- margin_distance collmd collpair / dt) 0 (4 * bounce)) in *.
  assert (Hb : bounce == 0) by (unfold bounce; lra).
  assert (Hr : repulse == 0) by (apply CLAMP_zero; lra).
  assert (Hmax : max_ff repulse bounce == 0).
  { unfold max_ff. destruct (Qltb bounce repulse); assumption. }
  destruct (Qltb (margin_distance collmd collpair) _); inversion Hresp; subst impulse;
    unfold veq, mul_v3_v3fl; cbn [vx vy vz];
    [rewrite Hmax | rewrite Hr]; repeat split; ring.
Qed.

Lemma collision_response_static cloth1 cloth2 collmd collpair dt restitution :
  map vert_static (cloth_verts cloth1) = map vert_static (cloth_verts cloth2) ->
  collision_response cloth1 collmd collpair dt restitution
    = collision_response cloth2 collmd collpair dt restitution.
Proof.
  intros Hstatic. unfold collision_response, lookup_vert.
  destruct (Qltb 0 _); [reflexivity|].
  destruct (has_flag _ _); [reflexivity|].
  destruct (cp_ap1 collpair <? 0)%Z; [reflexivity|].
  pose proof (lookup_map_eq _ _ _ Hstatic (Z.to_nat (cp_ap1 collpair))) as Hlook.
  destruct (cloth_verts cloth1 !! _) as [vert1|];
    destruct (cloth_verts cloth2 !! _) as [vert2|]; cbn in Hlook; try discriminate;
    [|reflexivity].
  inversion Hlook as [[Hflags Hv]]. rewrite Hv. reflexivity.
Qed.
End ResponseProperties.

Section SetupConstraintsProperties.
Context `{Constants} `{Collaborators}.

Lemma setup_pinned_loop_spec verts : forall v data,
  setup_pinned_loop v verts data =
    (set_constraints data (id_constraints data ++ pinned_constraints v verts),
     map (fun vert => set_impulse_count vert 0) verts).
Proof.
  induction verts as [|vert rest IH]; intros v data; cbn [setup_pinned_loop pinned_constraints map].
  - rewrite app_nil_r. destruct data; reflexivity.
  - rewrite IH. unfold is_pinned.
    destruct (has_flag (vert_flags vert) CLOTH_VERT_FLAG_PINNED); cbn.
    + rewrite <- app_assoc. reflexivity.
    + reflexivity.
Qed.

Lemma count_ndof0_pinned_below verts : forall v0 v,
  v < v0 -> count_ndof0 v (pinned_constraints v0 verts) = 0%nat.
Proof.
  induction verts as [|vert rest IH]; intros v0 v Hlt; cbn [pinned_constraints].
  - reflexivity.
  - rewrite count_ndof0_app, IH by lia.
    destruct (is_pinned vert); [|reflexivity].
    cbn. destruct (v0 =? v) eqn:E; [apply Z.eqb_eq in E; lia | reflexivity].
Qed.

Lemma count_ndof0_pinned verts : forall v0 (k : nat) vert,
  verts !! k = Some vert ->
  count_ndof0 (v0 + Z.of_nat k) (pinned_constraints v0 verts)
    = if is_pinned vert then 1%nat else 0%nat.
Proof.
  induction verts as [|vert0 rest IH]; intros v0 k vert Hk; [discriminate|].
  cbn [pinned_constraints]. rewrite count_ndof0_app.
  destruct k as [|k]; cbn in Hk.
  - inversion Hk; subst vert0. rewrite count_ndof0_pinned_below by lia.
    replace (v0 + Z.of_nat 0) with v0 by lia.
    destruct (is_pinned vert); [|reflexivity].
    cbn. rewrite Z.eqb_refl. reflexivity.
  - replace (v0 + Z.of_nat (S k)) with ((v0 + 1) + Z.of_nat k) by lia.
    rewrite (IH _ _ _ Hk).
    destruct (is_pinned vert0); [|reflexivity].
    cbn. destruct (v0 =? v0 + 1 + Z.of_nat k) eqn:E; [apply Z.eqb_eq in E; lia | reflexivity].
Qed.

(** The outcome of one contact: skipped, or accepted for its vertex. *)
Lemma setup_contact_cases i collmd dt cloth data collpair cloth' data' :
  setup_contact i collmd dt cloth data collpair = Some (cloth', data') ->
  (cloth' = cloth /\ data' = data) \/
  exists vert impulse,
    lookup_vert (cloth_verts cloth) (cp_face1 collpair) = Some vert /\
    is_pinned vert = false /\
    vert_impulse_count vert <= 0 /\
    collision_response cloth collmd collpair dt 0%Q = Some (true, impulse) /\
    cloth' = set_verts cloth
               (<[Z.to_nat (cp_face1 collpair) :=
                    set_impulse_count vert (wrap_uint (vert_impulse_count vert + 1))]>
                  (cloth_verts cloth)) /\
    data' = BPH_mass_spring_add_constraint_ndof2 data i (cp_normal collpair) impulse.
Proof.
  unfold setup_contact. intros Hstep.
  destruct (lookup_vert (cloth_verts cloth) (cp_face1 collpair)) as [vert|] eqn:Hvert;
    [|discriminate].
  fold (is_pinned vert) in Hstep.
  destruct (is_pinned vert) eqn:Hpin; [inversion Hstep; auto|].
  destruct (0 <? vert_impulse_count vert) eqn:Hcnt; [inversion Hstep; auto|].
  apply Z.ltb_ge in Hcnt.
  destruct (collision_response cloth collmd collpair dt 0%Q) as [[[|] impulse]|] eqn:Hresp;
    [|inversion Hstep; auto|discriminate].
  inversion Hstep; subst. right. exists vert, impulse.
  repeat split; auto.
Qed.

Lemma setup_contact_inv verts0 l0 P i collmd dt cloth data collpair cloth' data' :
  setup_inv verts0 l0 P cloth data ->
  (forall impulse,
      collision_response cloth collmd collpair dt 0%Q = Some (true, impulse) ->
      P (ndof2 i (cp_normal collpair) impulse)) ->
  setup_contact i collmd dt cloth data collpair = Some (cloth', data') ->
  setup_inv verts0 l0 P cloth' data'.
Proof.
  intros [Hstatic Hcounts (accepted & Hcs & Hnd & HP & Hlen)] HPstep Hstep.
  apply setup_contact_cases in Hstep.
  destruct Hstep as [[-> ->] | (vert & impulse & Hvert & Hpin & Hcnt & Hresp & -> & ->)].
  - split; eauto.
  - apply lookup_vert_Some in Hvert. destruct Hvert as [Hidx Hvert].
    pose proof (Forall_lookup_1 _ _ _ _ Hcounts Hvert) as Hrange.
    cbv beta in Hrange. destruct Hrange as [Hrange _].
    assert (Hzero : vert_impulse_count vert = 0) by lia.
    assert (Hone : wrap_uint (vert_impulse_count vert + 1) = 1)
      by (rewrite Hzero; reflexivity).
    rewrite Hone.
    split; cbn [cloth_verts set_verts].
    + rewrite <- Hstatic. eapply map_insert_same; eauto.
    + apply Forall_insert; [exact Hcounts|]. cbn. split; [lia|].
      unfold is_pinned in *. cbn. rewrite Hpin. discriminate.
    + exists (accepted ++ [ndof2 i (cp_normal collpair) impulse]). repeat split.
      * cbn. rewrite Hcs, <- app_assoc. reflexivity.
      * apply Forall_app. split; [exact Hnd | repeat constructor].
      * apply Forall_app. split; [exact HP | repeat constructor; auto].
      * rewrite length_app, Nat2Z.inj_add, Hlen.
        rewrite (impulse_total_insert _ _ _ _ Hvert). cbn. lia.
Qed.

Lemma setup_contacts_loop_inv verts0 l0 P i collmd dt collisions :
  forall cloth data cloth' data',
  setup_inv verts0 l0 P cloth data ->
  (forall collpair cloth1 impulse,
      In collpair collisions ->
      map vert_static (cloth_verts cloth1) = map vert_static verts0 ->
      collision_response cloth1 collmd collpair dt 0%Q = Some (true, impulse) ->
      P (ndof2 i (cp_normal collpair) impulse)) ->
  setup_contacts_loop i collmd dt collisions cloth data = Some (cloth', data') ->
  setup_inv verts0 l0 P cloth' data'.
Proof.
  induction collisions as [|collpair rest IH]; intros cloth data cloth' data' Hinv HP Hloop;
    cbn [setup_contacts_loop] in Hloop.
  - inversion Hloop; subst. exact Hinv.
  - destruct (setup_contact i collmd dt cloth data collpair) as [[cloth1 data1]|] eqn:Hstep;
      [|discriminate].
    eapply IH; [| |exact Hloop].
    + eapply setup_contact_inv; [exact Hinv| |exact Hstep].
      intros impulse Hresp. eapply HP; [left; reflexivity| |exact Hresp].
      apply Hinv.
    + intros cp cloth2 impulse Hin. apply HP. right. exact Hin.
Qed.

Lemma setup_colliders_loop_inv verts0 l0 P dt contacts :
  forall i cloth data cloth' data',
  setup_inv verts0 l0 P cloth data ->
  (forall (k : nat) ct collpair cloth1 impulse,
      contacts !! k = Some ct ->
      In collpair (ct_collisions ct) ->
      map vert_static (cloth_verts cloth1) = map vert_static verts0 ->
      collision_response cloth1 (ct_collmd ct) collpair dt 0%Q = Some (true, impulse) ->
      P (ndof2 (i + Z.of_nat k) (cp_normal collpair) impulse)) ->
  setup_colliders_loop i dt contacts cloth data = Some (cloth', data') ->
  setup_inv verts0 l0 P cloth' data'.
Proof.
  induction contacts as [|ct rest IH]; intros i cloth data cloth' data' Hinv HP Hloop;
    cbn [setup_colliders_loop] in Hloop.
  - inversion Hloop; subst. exact Hinv.
  - destruct (setup_contacts_loop i (ct_collmd ct) dt (ct_collisions ct) cloth data)
      as [[cloth1 data1]|] eqn:Hinner; [|discriminate].
    eapply IH; [| |exact Hloop].
    + eapply setup_contacts_loop_inv; [exact Hinv| |exact Hinner].
      intros cp cloth2 impulse Hin Hst Hresp.
      replace i with (i + Z.of_nat 0) by lia.
      eapply (HP 0%nat ct); eauto.
    + intros k ct' cp cloth2 impulse Hk Hin Hst Hresp.
      replace (i + 1 + Z.of_nat k) with (i + Z.of_nat (S k)) by lia.
      eapply (HP (S k) ct'); eauto.
Qed.

Lemma cloth_setup_constraints_inv cloth contacts dt cloth' :
  cloth_setup_constraints cloth contacts dt = Some cloth' ->
  exists data',
    cloth_implicit cloth' = Some data' /\
    setup_inv (cloth_verts cloth) (pinned_constraints 0 (cloth_verts cloth))
      (from_contact cloth contacts dt) cloth' data'.
Proof.
  unfold cloth_setup_constraints. intros Hsetup.
  destruct (cloth_implicit cloth) as [data0|]; [|discriminate].
  rewrite setup_pinned_loop_spec in Hsetup.
  set (verts1 := map (fun vert => set_impulse_count vert 0) (cloth_verts cloth)) in *.
  set (data1 := set_constraints _ _) in *.
  destruct (setup_colliders_loop 0 dt contacts (set_verts cloth verts1) data1)
    as [[cloth2 data2]|] eqn:Hloop; [|discriminate].
  inversion Hsetup; subst cloth'. clear Hsetup.
  exists data2. split; [reflexivity|].
  assert (Hstatic1 : map vert_static verts1 = map vert_static (cloth_verts cloth)).
  { unfold verts1. rewrite map_map. reflexivity. }
  assert (Hinv : setup_inv (cloth_verts cloth) (pinned_constraints 0 (cloth_verts cloth))
                   (from_contact cloth contacts dt) cloth2 data2).
  { eapply setup_colliders_loop_inv; [| |exact Hloop].
    - split; cbn [cloth_verts set_verts].
      + exact Hstatic1.
      + unfold verts1. apply Forall_forall. intros vert Hin.
        apply list_elem_of_In, in_map_iff in Hin. destruct Hin as (vert0 & <- & _).
        cbn. split; [lia | reflexivity].
      + exists []. unfold data1. cbn. rewrite app_nil_r. repeat split; auto.
        unfold verts1. rewrite impulse_total_reset. reflexivity.
    - intros k ct cp cloth1 impulse Hk Hin Hst Hresp.
      exists k, ct, cp, impulse. repeat split; auto.
      rewrite <- Hresp. apply collision_response_static. symmetry. exact Hst. }
  destruct Hinv as [Hs Hc Hcs]. split; auto.
Qed.

(** Where the contact constraints go: every [ndof2] constraint left
    by the set-up sits under the number of the collider whose contact
    produced it. *)
Lemma contact_constraint_index cloth contacts dt cloth' data' index c1 dV :
  cloth_setup_constraints cloth contacts dt = Some cloth' ->
  cloth_implicit cloth' = Some data' ->
  In (ndof2 index c1 dV) (id_constraints data') ->
  exists (k : nat) ct collpair,
    index = Z.of_nat k /\
    contacts !! k = Some ct /\
    In collpair (ct_collisions ct) /\
    c1 = cp_normal collpair /\
    collision_response cloth (ct_collmd ct) collpair dt 0%Q = Some (true, dV).
Proof.
  intros Hsetup Hdata' Hin.
  destruct (cloth_setup_constraints_inv _ _ _ _ Hsetup)
    as (data'' & Hdata'' & [_ _ (accepted & Hcs & _ & HP & _)]).
  rewrite Hdata' in Hdata''. inversion Hdata''; subst data''. clear Hdata''.
  rewrite Hcs in Hin. apply in_app_or in Hin. destruct Hin as [Hin | Hin].
  - exfalso. clear - Hin. revert Hin. generalize 0.
    induction (cloth_verts cloth) as [|vert rest IH]; intros z Hin; cbn in Hin; [exact Hin|].
    apply in_app_or in Hin. destruct Hin as [Hin | Hin]; [|eapply IH; exact Hin].
    destruct (is_pinned vert); cbn in Hin; [destruct Hin as [Hin | []]; discriminate | exact Hin].
  - rewrite Forall_forall in HP. apply list_elem_of_In in Hin.
    destruct (HP _ Hin) as (k & ct & collpair & impulse & Hk & Hcp & Hresp & Heq).
    inversion Heq; subst index c1 dV.
    exists k, ct, collpair. auto.
Qed.

Lemma setup_contact_total i collmd dt cloth data collpair :
  contact_in_range (length (cloth_verts cloth)) collpair ->
  exists cloth' data',
    setup_contact i collmd dt cloth data collpair = Some (cloth', data') /\
    length (cloth_verts cloth') = length (cloth_verts cloth).
Proof.
  intros [Hface Hap]. unfold setup_contact.
  destruct (lookup_vert_in_range _ _ Hface) as [vert ->].
  destruct (has_flag _ _); [eauto|].
  destruct (0 <? _); [eauto|].
  destruct (collision_response_total cloth collmd collpair dt 0%Q Hap) as [[[|] impulse] ->].
  - eexists _, _. split; [reflexivity|]. cbn. apply length_insert.
  - eauto.
Qed.

Lemma setup_contacts_loop_total i collmd dt collisions : forall cloth data,
  Forall (contact_in_range (length (cloth_verts cloth))) collisions ->
  exists cloth' data',
    setup_contacts_loop i collmd dt collisions cloth data = Some (cloth', data') /\
    length (cloth_verts cloth') = length (cloth_verts cloth).
Proof.
  induction collisions as [|collpair rest IH]; intros cloth data Hrange;
    cbn [setup_contacts_loop].
  - eauto.
  - inversion Hrange as [|? ? Hcp Hrest]; subst.
    destruct (setup_contact_total i collmd dt cloth data collpair Hcp)
      as (cloth1 & data1 & -> & Hlen).
    rewrite <- Hlen in Hrest.
    destruct (IH cloth1 data1 Hrest) as (cloth2 & data2 & -> & Hlen2).
    eexists _, _. split; [reflexivity | congruence].
Qed.

Lemma setup_colliders_loop_total dt contacts : forall i cloth data,
  contacts_in_range (length (cloth_verts cloth)) contacts ->
  exists cloth' data',
    setup_colliders_loop i dt contacts cloth data = Some (cloth', data').
Proof.
  induction contacts as [|ct rest IH]; intros i cloth data Hrange;
    cbn [setup_colliders_loop].
  - eauto.
  - inversion Hrange as [|? ? Hct Hrest]; subst.
    destruct (setup_contacts_loop_total i (ct_collmd ct) dt _ cloth data Hct)
      as (cloth1 & data1 & -> & Hlen).
    unfold contacts_in_range in IH. rewrite <- Hlen in Hrest.
    exact (IH (i + 1) cloth1 data1 Hrest).
Qed.

Lemma cloth_setup_constraints_total cloth contacts dt data :
  cloth_implicit cloth = Some data ->
  contacts_in_range (length (cloth_verts cloth)) contacts ->
  exists cloth', cloth_setup_constraints cloth contacts dt = Some cloth'.
Proof.
  intros Hdata Hrange. unfold cloth_setup_constraints. rewrite Hdata.
  rewrite setup_pinned_loop_spec.
  destruct (setup_colliders_loop_total dt contacts 0
              (set_verts cloth (map (fun vert => set_impulse_count vert 0) (cloth_verts cloth)))
              (set_constraints (BPH_mass_spring_clear_constraints data)
                 (id_constraints (BPH_mass_spring_clear_constraints data)
                    ++ pinned_constraints 0 (cloth_verts cloth))))
    as (cloth' & data' & ->).
  - cbn [cloth_verts set_verts]. rewrite length_map. exact Hrange.
  - eauto.
Qed.

(** C9: the constraint set-up calls the collision response with
    restitution zero; with it the bounce term and the clamped
    repulsion vanish, and every contact constraint the set-up leaves
    in the solver carries the normal of its contact and an impulse
    equal to that normal scaled by minus the normal component of the
    new relative velocity, whichever branch of the response produced
    it. *)
Theorem C9_zero_restitution (cloth : Cloth) (contacts : list ColliderContacts) (dt : Q) :
  (forall i collmd cloth1 data collpair cloth' data',
      setup_contact i collmd dt cloth1 data collpair = Some (cloth', data') ->
      data' <> data ->
      exists impulse,
        collision_response cloth1 collmd collpair dt 0%Q = Some (true, impulse) /\
        data' = BPH_mass_spring_add_constraint_ndof2 data i (cp_normal collpair) impulse) /\
  (forall v_nor_old raw : Q,
      (- v_nor_old * 0 == 0)%Q /\ (CLAMP raw 0 (4 * (- v_nor_old * 0)) == 0)%Q) /\
  (forall cloth' data' index c1 dV,
      cloth_setup_constraints cloth contacts dt = Some cloth' ->
      cloth_implicit cloth' = Some data' ->
      In (ndof2 index c1 dV) (id_constraints data') ->
      exists ct collpair vert,
        In ct contacts /\
        In collpair (ct_collisions ct) /\
        lookup_vert (cloth_verts cloth) (cp_ap1 collpair) = Some vert /\
        collision_response cloth (ct_collmd ct) collpair dt 0%Q = Some (true, dV) /\
        c1 = cp_normal collpair /\
        veq dV (mul_v3_v3fl (cp_normal collpair) (- v_nor_new vert (ct_collmd ct) collpair)%Q)).
Proof.
  split; [|split].
  - intros i collmd cloth1 data collpair cloth' data' Hstep Hne.
    apply setup_contact_cases in Hstep.
    destruct Hstep as [[_ ->] | (vert & impulse & _ & _ & _ & Hresp & _ & ->)];
      [congruence | eauto].
  - intros v_nor_old raw. split; [ring | apply CLAMP_zero; ring].
  - intros cloth' data' index c1 dV Hsetup Hdata' Hin.
    destruct (contact_constraint_index _ _ _ _ _ _ _ _ Hsetup Hdata' Hin)
      as (k & ct & collpair & _ & Hk & Hcp & Hc1 & Hresp).
    destruct (collision_response_accept _ _ _ _ _ _ Hresp) as (vert & Hvert & _).
    exists ct, collpair, vert.
    split; [apply list_elem_of_In; eapply list_elem_of_lookup_2; exact Hk|].
    split; [exact Hcp|]. split; [exact Hvert|]. split; [exact Hresp|].
    split; [exact Hc1|].
    eapply zero_restitution_impulse; eauto.
Qed.
End SetupConstraintsProperties.

Section ResultProperties.
Context `{Constants}.

(** Recording successful results into a record already initialised. *)
Lemma record_all_initialised (steps : Z) (results : list ImplicitSolverResult) :
  forall sres,
    BPH_SOLVER_SUCCESS <> 0 ->
    sres_status sres <> 0 ->
    Forall (fun r => res_status r = BPH_SOLVER_SUCCESS) results ->
    let sres' := record_all sres results steps in
    let errors := map res_error results in
    let iterations := map res_iterations results in
    (sres_avg_error sres' == sres_avg_error sres + Qsum errors / inject_Z steps)%Q /\
    (sres_avg_iterations sres' ==
       sres_avg_iterations sres + inject_Z (Zsum iterations) / inject_Z steps)%Q /\
    Q_is_min (sres_min_error sres') (sres_min_error sres :: errors) /\
    Q_is_max (sres_max_error sres') (sres_max_error sres :: errors) /\
    Z_is_min (sres_min_iterations sres') (sres_min_iterations sres :: iterations) /\
    Z_is_max (sres_max_iterations sres') (sres_max_iterations sres :: iterations) /\
    sres_status sres' = fold_left Z.lor (map res_status results) (sres_status sres).
Proof.
  induction results as [|r rest IH]; intros sres Hsucc Hinit Hall; cbn zeta.
  - cbn. unfold Q_is_min, Q_is_max, Z_is_min, Z_is_max. cbn.
    repeat split; try (unfold Qdiv; ring); auto;
      intros e [<- | []]; first [apply Qle_refl | lia].
  - inversion Hall as [|? ? Hr Hrest]; subst.
    unfold record_all. cbn [fold_left].
    set (s1 := cloth_record_result sres r steps).
    assert (Hs1 : s1 =
      {| sres_status := Z.lor (sres_status sres) (res_status r);
         sres_max_error := max_ff (sres_max_error sres) (res_error r);
         sres_min_error := min_ff (sres_min_error sres) (res_error r);
         sres_avg_error := (sres_avg_error sres + res_error r / inject_Z steps)%Q;
         sres_max_iterations := max_ii (sres_max_iterations sres) (res_iterations r);
         sres_min_iterations := min_ii (sres_min_iterations sres) (res_iterations r);
         sres_avg_iterations :=
           (sres_avg_iterations sres + inject_Z (res_iterations r) / inject_Z steps)%Q |}).
    { unfold s1, cloth_record_result. rewrite Hr, Z.eqb_refl.
      destruct (sres_status sres =? 0) eqn:E; [apply Z.eqb_eq in E; contradiction|].
      reflexivity. }
    assert (Hinit1 : sres_status s1 <> 0).
    { rewrite Hs1. cbn. intros Hz. apply Z.lor_eq_0_iff in Hz. tauto. }
    specialize (IH s1 Hsucc Hinit1 Hrest). cbn zeta in IH.
    fold (record_all s1 rest steps).
    destruct IH as (Havg & Hit & [Hmin_in Hmin_le] & [Hmax_in Hmax_le] &
                    [Himin_in Himin_le] & [Himax_in Himax_le] & Hstatus).
    clearbody s1. subst s1.
    cbn [sres_status sres_max_error sres_min_error sres_avg_error sres_max_iterations
         sres_min_iterations sres_avg_iterations] in *.
    cbn [map]. repeat split.
    + rewrite Havg. unfold Qsum. cbn [foldr]. unfold Qdiv. ring.
    + rewrite Hit. unfold Zsum. cbn [foldr]. rewrite inject_Z_plus. unfold Qdiv. ring.
    + destruct Hmin_in as [Heq | Hin]; [|right; right; exact Hin].
      rewrite <- Heq.
      destruct (min_ff_cases (sres_min_error sres) (res_error r)) as [[-> _] | [-> _]];
        [left | right; left]; reflexivity.
    + intros e [<- | [<- | Hin]].
      * eapply Qle_trans; [apply Hmin_le; left; reflexivity|].
        destruct (min_ff_cases (sres_min_error sres) (res_error r)) as [[-> ?] | [-> ?]]; lra.
      * eapply Qle_trans; [apply Hmin_le; left; reflexivity|].
        destruct (min_ff_cases (sres_min_error sres) (res_error r)) as [[-> ?] | [-> ?]]; lra.
      * apply Hmin_le. right. exact Hin.
    + destruct Hmax_in as [Heq | Hin]; [|right; right; exact Hin].
      rewrite <- Heq.
      destruct (max_ff_cases (sres_max_error sres) (res_error r)) as [[-> _] | [-> _]];
        [left | right; left]; reflexivity.
    + intros e [<- | [<- | Hin]].
      * eapply Qle_trans; [|apply Hmax_le; left; reflexivity].
        destruct (max_ff_cases (sres_max_error sres) (res_error r)) as [[-> ?] | [-> ?]]; lra.
      * eapply Qle_trans; [|apply Hmax_le; left; reflexivity].
        destruct (max_ff_cases (sres_max_error sres) (res_error r)) as [[-> ?] | [-> ?]]; lra.
      * apply Hmax_le. right. exact Hin.
    + destruct Himin_in as [Heq | Hin]; [|right; right; exact Hin].
      rewrite <- Heq.
      destruct (min_ii_cases (sres_min_iterations sres) (res_iterations r)) as [[-> _] | [-> _]];
        [left | right; left]; reflexivity.
    + intros e [<- | [<- | Hin]].
      * specialize (Himin_le _ (or_introl eq_refl)).
        destruct (min_ii_cases (sres_min_iterations sres) (res_iterations r)); lia.
      * specialize (Himin_le _ (or_introl eq_refl)).
        destruct (min_ii_cases (sres_min_iterations sres) (res_iterations r)); lia.
      * apply Himin_le. right. exact Hin.
    + destruct Himax_in as [Heq | Hin]; [|right; right; exact Hin].
      rewrite <- Heq.
      destruct (max_ii_cases (sres_max_iterations sres) (res_iterations r)) as [[-> _] | [-> _]];
        [left | right; left]; reflexivity.
    + intros e [<- | [<- | Hin]].
      * specialize (Himax_le _ (or_introl eq_refl)).
        destruct (max_ii_cases (sres_max_iterations sres) (res_iterations r)); lia.
      * specialize (Himax_le _ (or_introl eq_refl)).
        destruct (max_ii_cases (sres_max_iterations sres) (res_iterations r)); lia.
      * apply Himax_le. right. exact Hin.
    + exact Hstatus.
Qed.

(** C7: a record cleared at frame start, into which the results of
    [stepsPerFrame] substeps are recorded, all of them successful,
    holds the arithmetic mean of the errors and of the iteration
    counts, their least and greatest values, and the bitwise OR of
    the statuses. *)
Theorem C7_result_aggregation (sres0 : ClothSolverResult)
    (results : list ImplicitSolverResult) (steps : Z) :
  BPH_SOLVER_SUCCESS <> 0 ->
  0 < steps ->
  Z.of_nat (length results) = steps ->
  Forall (fun r => res_status r = BPH_SOLVER_SUCCESS) results ->
  let sres := record_all (cloth_clear_result sres0) results steps in
  let errors := map res_error results in
  let iterations := map res_iterations results in
  (sres_avg_error sres == Qsum errors / inject_Z (Z.of_nat (length results)))%Q /\
  (sres_avg_iterations sres ==
     inject_Z (Zsum iterations) / inject_Z (Z.of_nat (length results)))%Q /\
  Q_is_min (sres_min_error sres) errors /\
  Q_is_max (sres_max_error sres) errors /\
  Z_is_min (sres_min_iterations sres) iterations /\
  Z_is_max (sres_max_iterations sres) iterations /\
  sres_status sres = fold_left Z.lor (map res_status results) 0.
Proof.
  intros Hsucc Hsteps Hlen Hall.
  destruct results as [|r rest]; [cbn in Hlen; lia|].
  inversion Hall as [|? ? Hr Hrest]; subst x l.
  rewrite Hlen. cbn zeta. unfold record_all. cbn [fold_left].
  set (s1 := cloth_record_result (cloth_clear_result sres0) r steps).
  assert (Hs1 : s1 =
    {| sres_status := Z.lor 0 (res_status r);
       sres_max_error := res_error r;
       sres_min_error := res_error r;
       sres_avg_error := (0 + res_error r / inject_Z steps)%Q;
       sres_max_iterations := res_iterations r;
       sres_min_iterations := res_iterations r;
       sres_avg_iterations := (0 + inject_Z (res_iterations r) / inject_Z steps)%Q |}).
  { unfold s1, cloth_record_result, cloth_clear_result. cbn. rewrite Hr, Z.eqb_refl.
    reflexivity. }
  assert (Hinit1 : sres_status s1 <> 0).
  { rewrite Hs1. cbn. rewrite Hr. exact Hsucc. }
  pose proof (record_all_initialised steps rest s1 Hsucc Hinit1 Hrest) as IH.
  cbn zeta in IH. fold (record_all s1 rest steps).
  destruct IH as (Havg & Hit & [Hmin_in Hmin_le] & [Hmax_in Hmax_le] &
                  [Himin_in Himin_le] & [Himax_in Himax_le] & Hstatus).
  clearbody s1. subst s1.
  cbn [sres_status sres_max_error sres_min_error sres_avg_error sres_max_iterations
       sres_min_iterations sres_avg_iterations] in *.
  cbn [map]. repeat split; auto.
  - rewrite Havg. unfold Qsum. cbn [foldr]. unfold Qdiv. ring.
  - rewrite Hit. unfold Zsum. cbn [foldr]. rewrite inject_Z_plus. unfold Qdiv. ring.
Qed.
End ResultProperties.

Section SolveProperties.
Context `{Constants} `{ContactSearch}.
Local Open Scope Q_scope.

Lemma move_pinned_loop_below goal t verts : forall i id j,
  (j < i)%Z ->
  id_X (snd (move_pinned_loop goal t i verts id)) j = id_X id j.
Proof.
  induction verts as [|vert rest IH]; intros i id j Hlt; cbn [move_pinned_loop].
  - reflexivity.
  - destruct (move_pinned_loop goal t (i + 1) rest _) as [rest' id2] eqn:Hrest.
    cbn [snd]. change id2 with (snd (rest', id2)). rewrite <- Hrest.
    rewrite IH by lia.
    destruct goal; [|reflexivity]. destruct (is_pinned vert); [|reflexivity].
    cbn. unfold upd. destruct (j =? i)%Z eqn:E; [apply Z.eqb_eq in E; lia | reflexivity].
Qed.







(** The loop variable at the head reached after [k] passes is the sum
    of [k] float steps, and the test held at every earlier head. *)
Lemma loop_pass_step clmd frame tf dt st0 k step st :
  loop_pass clmd frame tf dt st0 k step st ->
  step = cloth_step_at dt k /\
  forall j : nat, (j < k)%nat -> cloth_step_at dt j < tf.
Proof.
  induction 1 as [|k step st st' _ [IHs IHlt] Hlt _].
  - split; [reflexivity | intros j Hj; lia].
  - split; [cbn [cloth_step_at]; rewrite IHs; reflexivity|].
    intros j Hj. destruct (Nat.eq_dec j k) as [-> | Hne].
    + rewrite <- IHs. exact Hlt.
    + apply IHlt. lia.
Qed.

(** When the loop returns, it has made the number of passes at which
    the test first fails. *)
Lemma cloth_solve_loop_passes clmd frame tf dt st0 fuel : forall k step st st_f,
  loop_pass clmd frame tf dt st0 k step st ->
  cloth_solve_loop fuel clmd frame tf dt step st = Some st_f ->
  exists m : nat,
    (k <= m)%nat /\ cloth_loop_ends tf dt m /\
    loop_pass clmd frame tf dt st0 m (cloth_step_at dt m) st_f.
Proof.
  induction fuel as [|fuel IH]; intros k step st st_f Hpass Hloop; [discriminate|].
  cbn [cloth_solve_loop] in Hloop.
  case_Qltb step tf.
  - destruct (cloth_solve_substep clmd frame tf dt step st) as [st'|] eqn:Hsub;
      [|discriminate].
    destruct (IH (S k) _ _ _ (pass_next _ _ _ _ _ _ _ _ _ Hpass Hcmp Hsub) Hloop)
      as (m & Hm & Hends & Hpass').
    exists m. split; [lia | auto].
  - inversion Hloop; subst st_f.
    destruct (loop_pass_step _ _ _ _ _ _ _ _ Hpass) as [Hstep Hlt].
    exists k. split; [lia|]. split.
    + split; [exact Hlt | rewrite <- Hstep; exact Hcmp].
    + rewrite <- Hstep. exact Hpass.
Qed.


Lemma cloth_solve_substep_total clmd frame tf dt step st :
  contact_search_in_range ->
  exists st', cloth_solve_substep clmd frame tf dt step st = Some st'.
Proof.
  intros Hsearch. unfold cloth_solve_substep.
  match goal with
  | |- context [cloth_setup_constraints ?c ?cts ?d] =>
      destruct (cloth_setup_constraints_total c cts d (st_id st)) as [cloth2 Hsetup];
      [reflexivity| |rewrite Hsetup]
  end.
  - destruct (clmd_hairdata clmd); [|constructor].
    destruct (has_flag _ _); [apply Hsearch | constructor].
  - destruct (cloth_setup_constraints_inv _ _ _ _ Hsetup) as (data' & -> & _).
    destruct (BPH_mass_spring_solve_velocities _ _) as [id6 result].
    destruct (if negb _ then _ else _) as [verts3 id9].
    destruct (move_pinned_loop _ _ _ _ _) as [verts4 id11].
    eauto.
Qed.

(** If the test fails after [m] passes, the loop returns with more
    fuel than passes left, having made [m] passes. *)
Lemma cloth_solve_loop_total clmd frame tf dt st0 (m : nat) :
  contact_search_in_range ->
  cloth_loop_ends tf dt m ->
  forall (fuel k : nat) step st,
    loop_pass clmd frame tf dt st0 k step st ->
    (k <= m)%nat ->
    (m - k < fuel)%nat ->
    exists st_f,
      cloth_solve_loop fuel clmd frame tf dt step st = Some st_f /\
      loop_pass clmd frame tf dt st0 m (cloth_step_at dt m) st_f.
Proof.
  intros Hsearch [Hlt Hge].
  induction fuel as [|fuel IH]; intros k step st Hpass Hk Hfuel; [lia|].
  destruct (loop_pass_step _ _ _ _ _ _ _ _ Hpass) as [Hstep _].
  cbn [cloth_solve_loop]. case_Qltb step tf.
  - assert (Hkm : (k < m)%nat).
    { destruct (Nat.eq_dec k m) as [-> | Hne]; [|lia]. rewrite Hstep in Hcmp. lra. }
    destruct (cloth_solve_substep_total clmd frame tf dt step st Hsearch) as [st' Hsub].
    rewrite Hsub.
    apply (IH (S k)); [econstructor; eauto | lia | lia].
  - assert (Hkm : k = m).
    { destruct (Nat.eq_dec k m) as [-> | Hne]; [reflexivity|].
      specialize (Hlt k ltac:(lia)). rewrite Hstep in Hcmp. lra. }
    subst k. exists st. split; [reflexivity|]. rewrite <- Hstep. exact Hpass.
Qed.

(** The frame as a whole: what [BPH_cloth_solve] returns is read off
    the state after the last pass. *)
Lemma BPH_cloth_solve_passes fuel frame clmd clmd' :
  BPH_cloth_solve fuel frame clmd = Some clmd' ->
  let parms := clmd_sim_parms clmd in
  let tf := sim_timescale parms in
  let dt := float_div tf (float_of_int (sim_stepsPerFrame parms)) in
  exists id st0 (m : nat) st_f,
    cloth_implicit (clmd_clothObject clmd) = Some id /\
    st_verts st0 = cloth_verts (clmd_clothObject clmd) /\
    st_sres st0 = mk_ClothSolverResult 0 0 0 0 0 0 0 /\
    cloth_loop_ends tf dt m /\
    loop_pass clmd frame tf dt st0 m (cloth_step_at dt m) st_f /\
    clmd_solver_result clmd' = Some (st_sres st_f) /\
    cloth_verts (clmd_clothObject clmd') =
      imap (fun i vert =>
              let x := BPH_mass_spring_get_position (st_id st_f) (Z.of_nat i) in
              let v := BPH_mass_spring_get_velocity (st_id st_f) (Z.of_nat i) in
              set_vert_txold (set_vert_x_v vert x v) x) (st_verts st_f).
Proof.
  intros Hsolve parms tf dt. unfold BPH_cloth_solve in Hsolve.
  destruct (cloth_implicit (clmd_clothObject clmd)) as [id|]; [|discriminate].
  fold parms tf dt in Hsolve.
  match type of Hsolve with
  | match cloth_solve_loop fuel clmd frame tf dt 0 ?s with _ => _ end = _ =>
      destruct (cloth_solve_loop fuel clmd frame tf dt 0 s) as [st_f|] eqn:Hloop;
      [|discriminate];
      destruct (cloth_solve_loop_passes clmd frame tf dt s fuel 0%nat 0 s st_f
                  (pass_first _ _ _ _ _) Hloop) as (m & _ & Hends & Hpass);
      exists id, s, m, st_f
  end.
  inversion Hsolve; subst clmd'. clear Hsolve.
  repeat (split; [first [reflexivity | assumption]|]). reflexivity.
Qed.

(** With enough fuel [BPH_cloth_solve] returns when the cloth has a
    solver and the loop variable reaches the end of the frame. *)
Lemma BPH_cloth_solve_total fuel frame clmd id (m : nat) :
  contact_search_in_range ->
  cloth_implicit (clmd_clothObject clmd) = Some id ->
  cloth_loop_ends (sim_timescale (clmd_sim_parms clmd))
    (float_div (sim_timescale (clmd_sim_parms clmd))
       (float_of_int (sim_stepsPerFrame (clmd_sim_parms clmd)))) m ->
  (m < fuel)%nat ->
  exists clmd', BPH_cloth_solve fuel frame clmd = Some clmd'.
Proof.
  intros Hsearch Himpl Hends Hfuel. unfold BPH_cloth_solve. rewrite Himpl.
  match goal with
  | |- context [cloth_solve_loop fuel clmd frame ?tf ?dt 0 ?s] =>
      destruct (cloth_solve_loop_total clmd frame tf dt s m Hsearch Hends fuel 0%nat 0 s
                  (pass_first _ _ _ _ _) ltac:(lia) ltac:(lia)) as (st_f & Hloop & _)
  end.
  rewrite Hloop. eauto.
Qed.

End SolveProperties.

Section StrandProperties.
Context `{StrandCollaborators}.
Local Open Scope Q_scope.

(** If the test fails after [m] passes, the strand loop returns with
    more fuel than passes left, having run the body at passes
    [k, ..., m - 1]. *)
Lemma strands_solve_loop_passes strands mat params frame scene dstep dtime (m : nat) :
  strands_loop_ends dstep m ->
  forall (fuel k : nat) id,
    (k <= m)%nat ->
    (m - k < fuel)%nat ->
    strands_solve_loop fuel strands mat params frame scene dstep dtime
      (strands_step_at dstep k) id
    = Some (strands_passes strands mat params frame scene dstep dtime k (m - k) id).
Proof.
  intros [Hlt Hge]. induction fuel as [|fuel IH]; intros k id Hk Hfuel; [lia|].
  cbn [strands_solve_loop].
  case_Qltb (strands_step_at dstep k) 1.
  - assert (Hkm : (k < m)%nat).
    { destruct (Nat.eq_dec k m) as [-> | Hne]; [lra | lia]. }
    change (float_add (float_add (strands_step_at dstep k) dstep) dstep)
      with (strands_step_at dstep (S k)).
    rewrite IH by lia.
    unfold strands_passes.
    replace (m - k)%nat with (S (m - S k)) by lia.
    reflexivity.
  - assert (Hkm : k = m).
    { destruct (Nat.eq_dec k m) as [-> | Hne]; [reflexivity|].
      specialize (Hlt k ltac:(lia)). lra. }
    unfold strands_passes.
    replace (m - k)%nat with 0%nat by lia.
    reflexivity.
Qed.

(** [BPH_strands_solve] past its early return: with more fuel than
    passes it answers [true] with the solver the passes left. *)
Lemma BPH_strands_solve_passes strands mat id params frame frame_prev scene (m fuel : nat) :
  ~ hair_timescale params == 0 ->
  (1 <= hair_substeps params)%Z ->
  let dstep := float_div 1 (float_of_int (hair_substeps params)) in
  let timestep := (FRA2TIME scene frame - FRA2TIME scene frame_prev) * hair_timescale params in
  let dtime := timestep * dstep in
  strands_loop_ends dstep m ->
  (m < fuel)%nat ->
  exists strands',
    BPH_strands_solve fuel strands mat id params frame frame_prev scene
      = Some (true, strands',
              strands_passes strands mat params frame scene dstep dtime 0 m
                (strands_calc_root_velocity strands mat
                   (strands_init_loop mat 0 (strands_state strands) id) timestep)).
Proof.
  intros Hts Hn dstep timestep dtime Hends Hfuel. unfold BPH_strands_solve.
  assert (Hq : Qeq_bool (hair_timescale params) 0 = false).
  { destruct (Qeq_bool (hair_timescale params) 0) eqn:E; [|reflexivity].
    apply Qeq_bool_iff in E. contradiction. }
  assert (Hs : (hair_substeps params <? 1)%Z = false) by (apply Z.ltb_ge; exact Hn).
  rewrite Hq, Hs. cbn [orb].
  fold dstep. fold timestep. fold dtime.
  pose proof (strands_solve_loop_passes strands mat params frame scene dstep dtime m Hends
                fuel 0%nat) as Hpasses.
  cbn [strands_step_at] in Hpasses.
  rewrite Hpasses by lia. rewrite Nat.sub_0_r. eexists. reflexivity.
Qed.

(** C10 (with the pass count the float sums give): in
    [BPH_strands_solve] the loop variable grows
    by [dstep], the float quotient [1 / substeps], in the body and
    again in the loop header, both float additions, so a pass advances
    it by two steps; the function returns once the sum is no longer
    below 1, having run the body once per earlier sum.  For
    [n = substeps] between 1 and 1024 that is after [(n + 1) / 2]
    passes, the least [m] with [2 m >= n], or, for an even [n] only,
    after one pass more; it is after [(n + 1) / 2] passes whenever [n]
    is a power of two up to [2^23]. *)
Theorem C10_strands_two_steps_per_pass (strands : Strands) (mat : mat4) (id : Implicit_Data)
    (params : HairSimParams) (frame frame_prev : Q) (scene : Scene) :
  ~ hair_timescale params == 0 ->
  (1 <= hair_substeps params)%Z ->
  let n := hair_substeps params in
  let dstep := float_div 1 (float_of_int n) in
  let timestep := (FRA2TIME scene frame - FRA2TIME scene frame_prev) * hair_timescale params in
  let dtime := timestep * dstep in
  let half := Z.to_nat ((n + 1) / 2) in
  (n <= 2 * Z.of_nat half < n + 2)%Z /\
  (forall k : nat,
      strands_step_at dstep (S k)
        = float_add (float_add (strands_step_at dstep k) dstep) dstep) /\
  (forall m fuel : nat,
      strands_loop_ends dstep m ->
      (m < fuel)%nat ->
      exists strands',
        BPH_strands_solve fuel strands mat id params frame frame_prev scene
          = Some (true, strands',
                  strands_passes strands mat params frame scene dstep dtime 0 m
                    (strands_calc_root_velocity strands mat
                       (strands_init_loop mat 0 (strands_state strands) id) timestep))) /\
  ((n <= 1024)%Z ->
   strands_loop_ends dstep half \/
   (Z.even n = true /\ strands_loop_ends dstep (S half))) /\
  (forall e : Z, (0 <= e <= 23)%Z -> n = (2 ^ e)%Z -> strands_loop_ends dstep half).
Proof.
  intros Hts Hn n dstep timestep dtime half.
  split; [|split; [|split; [|split]]].
  - unfold half. rewrite Z2Nat.id by (apply Z.div_pos; unfold n; lia).
    pose proof (Z.div_mod (n + 1) 2 ltac:(lia)) as Hdm.
    pose proof (Z.mod_pos_bound (n + 1) 2 ltac:(lia)) as Hmod. lia.
  - intros k. reflexivity.
  - intros m fuel Hends Hfuel.
    exact (BPH_strands_solve_passes strands mat id params frame frame_prev scene m fuel
             Hts Hn Hends Hfuel).
  - intros Hmax. exact (strands_loop_ends_near n (conj Hn Hmax)).
  - intros e He Hpow. unfold half, dstep. rewrite Hpow.
    exact (strands_loop_ends_pow2 e He).
Qed.
End StrandProperties.

(** * Further properties of the code *)

Section SetupExtras.
Context `{Constants}.

Lemma solver_init_loop_below verts : forall i id j,
  j < i ->
  id_M (solver_init_loop i verts id) j = id_M id j /\
  id_X (solver_init_loop i verts id) j = id_X id j /\
  id_V (solver_init_loop i verts id) j = id_V id j.
Proof.
  induction verts as [|vert rest IH]; intros i id j Hlt; cbn [solver_init_loop].
  - auto.
  - destruct (IH (i + 1) (BPH_mass_spring_set_motion_state
                (BPH_mass_spring_set_vertex_mass id i (vert_mass vert)) i (vert_x vert) ZERO)
                j ltac:(lia)) as (HM & HX & HV).
    rewrite HM, HX, HV. cbn. unfold upd.
    destruct (j =? i) eqn:E; [apply Z.eqb_eq in E; lia | auto].
Qed.

Lemma solver_init_loop_stores verts : forall i id (k : nat) vert,
  verts !! k = Some vert ->
  id_M (solver_init_loop i verts id) (i + Z.of_nat k) = vert_mass vert /\
  id_X (solver_init_loop i verts id) (i + Z.of_nat k) = vert_x vert /\
  id_V (solver_init_loop i verts id) (i + Z.of_nat k) = ZERO.
Proof.
  induction verts as [|vert0 rest IH]; intros i id k vert Hk; [discriminate|].
  cbn [solver_init_loop]. destruct k as [|k]; cbn in Hk.
  - inversion Hk; subst vert0. replace (i + Z.of_nat 0) with i by lia.
    destruct (solver_init_loop_below rest (i + 1) (BPH_mass_spring_set_motion_state
                (BPH_mass_spring_set_vertex_mass id i (vert_mass vert)) i (vert_x vert) ZERO)
                i ltac:(lia)) as (HM & HX & HV).
    rewrite HM, HX, HV. cbn. unfold upd. rewrite Z.eqb_refl. auto.
  - replace (i + Z.of_nat (S k)) with ((i + 1) + Z.of_nat k) by lia.
    apply IH. exact Hk.
Qed.

Lemma init_data_post cloth cloth' id evs :
  cloth_solver_init_data cloth = (cloth', id, evs) ->
  cloth' = set_implicit cloth (Some id) /\
  BPH_mass_spring_solver_numvert id = cloth_numverts cloth.
Proof.
  unfold cloth_solver_init_data. intros Hinit.
  destruct (cloth_implicit cloth) as [old|].
  - destruct (cloth_numverts cloth =? BPH_mass_spring_solver_numvert old) eqn:Hnv;
      cbn in Hinit; inversion Hinit; subst; clear Hinit.
    + apply Z.eqb_eq in Hnv. auto.
    + auto.
  - cbn in Hinit; inversion Hinit; subst. auto.
Qed.

(** X1: [BPH_cloth_solver_init] always leaves the cloth with a solver made
    for its vertex count, in which every vertex has its mass, its
    position [x] and zero velocity; the vertex array is not touched. *)
Theorem X1_solver_init_stores_state (cloth : Cloth) :
  cloth_verts (fst (BPH_cloth_solver_init cloth)) = cloth_verts cloth /\
  exists id,
    cloth_implicit (fst (BPH_cloth_solver_init cloth)) = Some id /\
    BPH_mass_spring_solver_numvert id = cloth_numverts cloth /\
    forall (i : nat) vert,
      cloth_verts cloth !! i = Some vert ->
      id_M id (Z.of_nat i) = vert_mass vert /\
      BPH_mass_spring_get_position id (Z.of_nat i) = vert_x vert /\
      BPH_mass_spring_get_velocity id (Z.of_nat i) = ZERO.
Proof.
  unfold BPH_cloth_solver_init.
  destruct (cloth_solver_init_data cloth) as [[cloth1 id0] evs] eqn:Hinit.
  destruct (init_data_post _ _ _ _ Hinit) as [-> Hnv].
  cbn. split; [reflexivity|].
  eexists. split; [reflexivity|]. split.
  - destruct (solver_init_loop_alloc (cloth_verts cloth) 0 id0) as [Hn _].
    unfold BPH_mass_spring_solver_numvert in *. rewrite Hn. exact Hnv.
  - intros i vert Hi.
    pose proof (solver_init_loop_stores (cloth_verts cloth) 0 id0 i vert Hi) as Hs.
    replace (0 + Z.of_nat i) with (Z.of_nat i) in Hs by lia. exact Hs.
Qed.

Lemma set_positions_loop_below hairdata verts : forall (i : nat) id id' j,
  set_positions_loop hairdata i verts id = Some id' ->
  j < Z.of_nat i ->
  id_X id' j = id_X id j /\ id_V id' j = id_V id j /\ id_tfm id' j = id_tfm id j.
Proof.
  induction verts as [|vert rest IH]; intros i id id' j Hloop Hlt;
    cbn [set_positions_loop] in Hloop.
  - inversion Hloop; subst. auto.
  - destruct hairdata as [hd|].
    + destruct (hd !! i) as [root|]; [|discriminate].
      destruct (IH _ _ _ j Hloop ltac:(lia)) as (HX & HV & HT).
      rewrite HX, HV, HT. cbn. unfold upd.
      destruct (j =? Z.of_nat i) eqn:E; [apply Z.eqb_eq in E; lia | auto].
    + destruct (IH _ _ _ j Hloop ltac:(lia)) as (HX & HV & HT).
      rewrite HX, HV, HT. cbn. unfold upd.
      destruct (j =? Z.of_nat i) eqn:E; [apply Z.eqb_eq in E; lia | auto].
Qed.

Lemma set_positions_loop_stores hairdata verts : forall (i : nat) id id' (k : nat) vert,
  set_positions_loop hairdata i verts id = Some id' ->
  verts !! k = Some vert ->
  id_X id' (Z.of_nat (i + k)) = vert_x vert /\
  id_V id' (Z.of_nat (i + k)) = vert_v vert /\
  id_tfm id' (Z.of_nat (i + k)) =
    match hairdata with
    | Some hd => match hd !! (i + k)%nat with Some root => hair_rot root | None => I3 end
    | None => I3
    end.
Proof.
  induction verts as [|vert0 rest IH]; intros i id id' k vert Hloop Hk; [discriminate|].
  cbn [set_positions_loop] in Hloop. destruct k as [|k]; cbn in Hk.
  - inversion Hk; subst vert0. replace (i + 0)%nat with i by lia.
    destruct hairdata as [hd|].
    + destruct (hd !! i) as [root|]; [|discriminate].
      destruct (set_positions_loop_below _ _ _ _ _ (Z.of_nat i) Hloop ltac:(lia))
        as (HX & HV & HT).
      rewrite HX, HV, HT. cbn. unfold upd. rewrite Z.eqb_refl. auto.
    + destruct (set_positions_loop_below _ _ _ _ _ (Z.of_nat i) Hloop ltac:(lia))
        as (HX & HV & HT).
      rewrite HX, HV, HT. cbn. unfold upd. rewrite Z.eqb_refl. auto.
  - replace (i + S k)%nat with (S i + k)%nat by lia.
    destruct hairdata as [hd|].
    + destruct (hd !! i) as [root|]; [|discriminate].
      exact (IH _ _ _ _ _ Hloop Hk).
    + exact (IH _ _ _ _ _ Hloop Hk).
Qed.

Lemma set_positions_loop_short hd verts : forall (i : nat) id,
  (length hd < i + length verts)%nat ->
  (i <= length hd)%nat ->
  set_positions_loop (Some hd) i verts id = None.
Proof.
  induction verts as [|vert rest IH]; intros i id Hlen Hi; cbn [set_positions_loop].
  - cbn in Hlen. lia.
  - cbn [length] in Hlen. destruct (hd !! i) as [root|] eqn:Hroot.
    + apply IH; [lia|]. apply lookup_lt_Some in Hroot. lia.
    + reflexivity.
Qed.

(** X2: [BPH_cloth_solver_set_positions] fails (reads past the hair data)
    exactly when hair data is given and is shorter than the vertex
    array.  When it succeeds, the vertex array is untouched and the
    solver holds, for every vertex, its position [x], its velocity [v]
    and as rest transform the hair root's rotation, or the identity
    when there is no hair data. *)
Theorem X2_set_positions_stores_state (hairdata : option (list ClothHairData)) (cloth : Cloth) :
  (BPH_cloth_solver_set_positions hairdata cloth = None <->
   exists hd, hairdata = Some hd /\ (length hd < length (cloth_verts cloth))%nat) /\
  (forall cloth' evs,
     BPH_cloth_solver_set_positions hairdata cloth = Some (cloth', evs) ->
     cloth_verts cloth' = cloth_verts cloth /\
     exists id,
       cloth_implicit cloth' = Some id /\
       BPH_mass_spring_solver_numvert id = cloth_numverts cloth /\
       forall (i : nat) vert,
         cloth_verts cloth !! i = Some vert ->
         BPH_mass_spring_get_position id (Z.of_nat i) = vert_x vert /\
         BPH_mass_spring_get_velocity id (Z.of_nat i) = vert_v vert /\
         id_tfm id (Z.of_nat i) =
           match hairdata with
           | Some hd => match hd !! i with Some root => hair_rot root | None => I3 end
           | None => I3
           end).
Proof.
  unfold BPH_cloth_solver_set_positions.
  destruct (cloth_solver_init_data cloth) as [[cloth1 id0] evs0] eqn:Hinit.
  destruct (init_data_post _ _ _ _ Hinit) as [-> Hnv]. cbn [set_implicit cloth_verts].
  split.
  - split.
    + intros Hnone. destruct hairdata as [hd|].
      * exists hd. split; [reflexivity|].
        destruct (Nat.lt_ge_cases (length hd) (length (cloth_verts cloth))) as [Hlt|Hge];
          [exact Hlt|].
        destruct (set_positions_loop_total (Some hd) (cloth_verts cloth) 0%nat id0) as [id' Hl];
          [cbn; lia|].
        rewrite Hl in Hnone. discriminate.
      * destruct (set_positions_loop_total None (cloth_verts cloth) 0%nat id0) as [id' Hl];
          [exact I|].
        rewrite Hl in Hnone. discriminate.
    + intros (hd & -> & Hlt).
      rewrite set_positions_loop_short; [reflexivity | cbn; lia | lia].
  - intros cloth' evs Hsome.
    destruct (set_positions_loop hairdata 0 (cloth_verts cloth) id0) as [id'|] eqn:Hloop;
      [|discriminate].
    inversion Hsome; subst cloth' evs; clear Hsome. cbn.
    split; [reflexivity|]. exists id'. split; [reflexivity|]. split.
    + destruct (set_positions_loop_alloc _ _ _ _ _ Hloop) as [Hn _].
      unfold BPH_mass_spring_solver_numvert in *. rewrite Hn. exact Hnv.
    + intros i vert Hi.
      exact (set_positions_loop_stores hairdata (cloth_verts cloth) 0%nat id0 id' i vert Hloop Hi).
Qed.

Lemma solver_init_twice cloth :
  snd (BPH_cloth_solver_init (fst (BPH_cloth_solver_init cloth))) = [].
Proof.
  destruct (BPH_cloth_solver_init cloth) as [cloth2 evs] eqn:Hinit. cbn [fst].
  unfold BPH_cloth_solver_init in Hinit.
  destruct (cloth_solver_init_data cloth) as [[cloth1 id0] evs0] eqn:Hdata.
  destruct (init_data_post _ _ _ _ Hdata) as [-> Hnv].
  inversion Hinit; subst cloth2 evs; clear Hinit.
  cbn [set_implicit cloth_verts].
  unfold BPH_cloth_solver_init.
  rewrite (init_data_reuse _ (solver_init_loop 0 (cloth_verts cloth) id0)).
  - reflexivity.
  - reflexivity.
  - destruct (solver_init_loop_alloc (cloth_verts cloth) 0 id0) as [Hn _].
    unfold BPH_mass_spring_solver_numvert in *. rewrite Hn. exact Hnv.
Qed.

(** X3: After [BPH_cloth_solver_free] the cloth has no solver and a
    second free makes no allocator call; the free itself releases the
    solver found, if any.  A [BPH_cloth_solver_init] after the free
    allocates exactly once, and a [BPH_cloth_solver_init] after that
    one makes no allocator call at all. *)
Theorem X3_solver_free_then_init (cloth : Cloth) :
  let freed := fst (BPH_cloth_solver_free cloth) in
  let inited := fst (BPH_cloth_solver_init freed) in
  cloth_implicit freed = None /\
  BPH_cloth_solver_free freed = (freed, []) /\
  snd (BPH_cloth_solver_free cloth) =
    match cloth_implicit cloth with Some id => [ev_free id] | None => [] end /\
  snd (BPH_cloth_solver_init freed) =
    [ev_create (cloth_numverts cloth) (cloth_count_nondiag_blocks cloth)] /\
  snd (BPH_cloth_solver_init inited) = [].
Proof.
  cbv zeta.
  assert (Hfree : cloth_implicit (fst (BPH_cloth_solver_free cloth)) = None /\
                  cloth_verts (fst (BPH_cloth_solver_free cloth)) = cloth_verts cloth /\
                  cloth_springs (fst (BPH_cloth_solver_free cloth)) = cloth_springs cloth).
  { unfold BPH_cloth_solver_free. destruct (cloth_implicit cloth) eqn:E; cbn; auto. }
  destruct Hfree as (Hnone & Hverts & Hsprings).
  split; [exact Hnone|]. split.
  { unfold BPH_cloth_solver_free at 1. rewrite Hnone. reflexivity. }
  split.
  { unfold BPH_cloth_solver_free. destruct (cloth_implicit cloth); reflexivity. }
  split; [|apply solver_init_twice].
  set (freed := fst (BPH_cloth_solver_free cloth)) in *.
  assert (Hnv : cloth_numverts freed = cloth_numverts cloth).
  { unfold cloth_numverts. rewrite Hverts. reflexivity. }
  assert (Hcount : cloth_count_nondiag_blocks freed = cloth_count_nondiag_blocks cloth).
  { unfold cloth_count_nondiag_blocks. rewrite Hsprings. reflexivity. }
  unfold BPH_cloth_solver_init, cloth_solver_init_data. rewrite Hnone. cbn.
  rewrite Hnv, Hcount. reflexivity.
Qed.

(** X4: The capacity counted by [cloth_count_nondiag_blocks] lies between
    the number of springs and three times that number, and the count
    for two spring lists put one after the other is the sum of their
    counts, as long as three times the number of springs fits a C
    [int]. *)
Theorem X4_nondiag_count_bounds_and_append (cloth : Cloth) (l1 l2 : list ClothSpring) :
  cloth_springs cloth = l1 ++ l2 ->
  3 * Z.of_nat (length (cloth_springs cloth)) <= INT_MAX ->
  Z.of_nat (length (cloth_springs cloth)) <= cloth_count_nondiag_blocks cloth
    <= 3 * Z.of_nat (length (cloth_springs cloth)) /\
  cloth_count_nondiag_blocks cloth =
    cloth_count_nondiag_blocks
      {| cloth_verts := cloth_verts cloth; cloth_springs := l1;
         cloth_has_bvhtree := cloth_has_bvhtree cloth; cloth_implicit := cloth_implicit cloth |} +
    cloth_count_nondiag_blocks
      {| cloth_verts := cloth_verts cloth; cloth_springs := l2;
         cloth_has_bvhtree := cloth_has_bvhtree cloth; cloth_implicit := cloth_implicit cloth |}.
Proof.
  intros Happ Hmax. unfold cloth_count_nondiag_blocks. cbn [cloth_springs].
  rewrite Happ in *. rewrite length_app in Hmax.
  rewrite !count_nondiag_fold by (rewrite ?length_app; lia).
  assert (Hsum : forall l, Z.of_nat (length l) <= pair_count_sum l <= 3 * Z.of_nat (length l)).
  { induction l as [|s l IH]; unfold pair_count_sum in *; cbn [map foldr length].
    - lia.
    - pose proof IH. unfold spring_pair_count at 1 3. destruct (_ =? _); lia. }
  assert (Happs : forall a b, pair_count_sum (a ++ b) = pair_count_sum a + pair_count_sum b).
  { intros a b. unfold pair_count_sum. rewrite map_app, foldr_app.
    generalize (foldr Z.add 0 (map spring_pair_count b)) as acc.
    induction a as [|s l IH]; intros acc; cbn [map foldr]; [lia|].
    rewrite IH. lia. }
  pose proof (Hsum (l1 ++ l2)) as Hb. rewrite length_app in *.
  split; [|rewrite Happs]; lia.
Qed.
End SetupExtras.

Lemma set_verts_same cloth : set_verts cloth (cloth_verts cloth) = cloth.
Proof. destruct cloth; reflexivity. Qed.

Lemma set_constraints_same data : set_constraints data (id_constraints data) = data.
Proof. destruct data; reflexivity. Qed.

Lemma reset_of_static l1 l2 :
  map vert_static l1 = map vert_static l2 ->
  map (fun vert => set_impulse_count vert 0) l1 = map (fun vert => set_impulse_count vert 0) l2.
Proof.
  intros Hstatic.
  assert (Hr : forall l, map (fun vert => set_impulse_count vert 0) l
                 = map (fun s =>
                          match s with
                          | (flags, v, xconst, x, xold, tx, txold, tv, mass) =>
                              mk_ClothVertex flags v xconst x xold tx txold tv mass 0
                          end) (map vert_static l)).
  { intros l. rewrite map_map. reflexivity. }
  rewrite (Hr l1), (Hr l2), Hstatic. reflexivity.
Qed.

Section SetupConstraintsExtras.
Context `{Constants} `{Collaborators}.

Lemma pinned_constraints_static l1 : forall l2 v,
  map vert_static l1 = map vert_static l2 ->
  pinned_constraints v l1 = pinned_constraints v l2.
Proof.
  induction l1 as [|a l1 IH]; intros [|b l2] v Hmap; try discriminate; [reflexivity|].
  cbn in Hmap. inversion Hmap as [[Hflags Hv Hxc Hx Hxo Htx Htxo Htv Hm Hrest]].
  cbn [pinned_constraints]. unfold is_pinned. rewrite Hflags, (IH l2 (v + 1) Hrest).
  reflexivity.
Qed.

(** One contact leaves the cloth as it is apart from its vertex array,
    and the solver as it is apart from its constraint list. *)
Lemma setup_contact_frame i collmd dt cloth data collpair cloth' data' :
  setup_contact i collmd dt cloth data collpair = Some (cloth', data') ->
  cloth' = set_verts cloth (cloth_verts cloth') /\
  data' = set_constraints data (id_constraints data').
Proof.
  intros Hstep. apply setup_contact_cases in Hstep.
  destruct Hstep as [[-> ->] | (vert & impulse & _ & _ & _ & _ & -> & ->)].
  - rewrite set_verts_same, set_constraints_same. auto.
  - split; reflexivity.
Qed.

Lemma setup_contacts_loop_frame i collmd dt collisions : forall cloth data cloth' data',
  setup_contacts_loop i collmd dt collisions cloth data = Some (cloth', data') ->
  cloth' = set_verts cloth (cloth_verts cloth') /\
  data' = set_constraints data (id_constraints data').
Proof.
  induction collisions as [|collpair rest IH]; intros cloth data cloth' data' Hloop;
    cbn [setup_contacts_loop] in Hloop.
  - inversion Hloop; subst. rewrite set_verts_same, set_constraints_same. auto.
  - destruct (setup_contact i collmd dt cloth data collpair) as [[cloth1 data1]|] eqn:Hstep;
      [|discriminate].
    destruct (setup_contact_frame _ _ _ _ _ _ _ _ Hstep) as [Hc1 Hd1].
    destruct (IH _ _ _ _ Hloop) as [Hc2 Hd2].
    split; [rewrite Hc2, Hc1 | rewrite Hd2, Hd1]; reflexivity.
Qed.

Lemma setup_colliders_loop_frame dt contacts : forall i cloth data cloth' data',
  setup_colliders_loop i dt contacts cloth data = Some (cloth', data') ->
  cloth' = set_verts cloth (cloth_verts cloth') /\
  data' = set_constraints data (id_constraints data').
Proof.
  induction contacts as [|ct rest IH]; intros i cloth data cloth' data' Hloop;
    cbn [setup_colliders_loop] in Hloop.
  - inversion Hloop; subst. rewrite set_verts_same, set_constraints_same. auto.
  - destruct (setup_contacts_loop i (ct_collmd ct) dt (ct_collisions ct) cloth data)
      as [[cloth1 data1]|] eqn:Hinner; [|discriminate].
    destruct (setup_contacts_loop_frame _ _ _ _ _ _ _ _ Hinner) as [Hc1 Hd1].
    destruct (IH _ _ _ _ _ Hloop) as [Hc2 Hd2].
    split; [rewrite Hc2, Hc1 | rewrite Hd2, Hd1]; reflexivity.
Qed.

(** The loops do not look at the solver pointer of the cloth they are
    handed. *)
Lemma setup_contact_set_implicit i collmd dt cloth data collpair x :
  setup_contact i collmd dt (set_implicit cloth x) data collpair =
    option_map (fun r => (set_implicit (fst r) x, snd r))
      (setup_contact i collmd dt cloth data collpair).
Proof.
  unfold setup_contact. cbn [cloth_verts set_implicit].
  destruct (lookup_vert (cloth_verts cloth) (cp_face1 collpair)) as [vert|]; [|reflexivity].
  destruct (has_flag _ _); [reflexivity|].
  destruct (0 <? _); [reflexivity|].
  replace (collision_response (set_implicit cloth x) collmd collpair dt 0%Q)
    with (collision_response cloth collmd collpair dt 0%Q)
    by (apply collision_response_static; reflexivity).
  destruct (collision_response cloth collmd collpair dt 0%Q) as [[[|] impulse]|]; reflexivity.
Qed.

Lemma setup_contacts_loop_set_implicit i collmd dt collisions x : forall cloth data,
  setup_contacts_loop i collmd dt collisions (set_implicit cloth x) data =
    option_map (fun r => (set_implicit (fst r) x, snd r))
      (setup_contacts_loop i collmd dt collisions cloth data).
Proof.
  induction collisions as [|collpair rest IH]; intros cloth data; cbn [setup_contacts_loop].
  - reflexivity.
  - rewrite setup_contact_set_implicit.
    destruct (setup_contact i collmd dt cloth data collpair) as [[cloth1 data1]|];
      [|reflexivity].
    cbn [option_map fst snd]. apply IH.
Qed.

Lemma setup_colliders_loop_set_implicit dt contacts x : forall i cloth data,
  setup_colliders_loop i dt contacts (set_implicit cloth x) data =
    option_map (fun r => (set_implicit (fst r) x, snd r))
      (setup_colliders_loop i dt contacts cloth data).
Proof.
  induction contacts as [|ct rest IH]; intros i cloth data; cbn [setup_colliders_loop].
  - reflexivity.
  - rewrite setup_contacts_loop_set_implicit.
    destruct (setup_contacts_loop i (ct_collmd ct) dt (ct_collisions ct) cloth data)
      as [[cloth1 data1]|]; [|reflexivity].
    cbn [option_map fst snd]. apply IH.
Qed.

(** What a run of the set-up is made of. *)
Lemma cloth_setup_constraints_run cloth contacts dt cloth' :
  cloth_setup_constraints cloth contacts dt = Some cloth' ->
  exists data0 verts2 cs2,
    cloth_implicit cloth = Some data0 /\
    setup_colliders_loop 0 dt contacts
      (set_verts cloth (map (fun vert => set_impulse_count vert 0) (cloth_verts cloth)))
      (set_constraints data0 (pinned_constraints 0 (cloth_verts cloth)))
      = Some (set_verts cloth verts2, set_constraints data0 cs2) /\
    cloth' = set_implicit (set_verts cloth verts2) (Some (set_constraints data0 cs2)) /\
    map vert_static verts2 = map vert_static (cloth_verts cloth).
Proof.
  intros Hsetup.
  destruct (cloth_setup_constraints_inv _ _ _ _ Hsetup) as (data' & Hdata' & [Hstatic _ _]).
  unfold cloth_setup_constraints in Hsetup.
  destruct (cloth_implicit cloth) as [data0|] eqn:Himpl; [|discriminate].
  rewrite setup_pinned_loop_spec in Hsetup.
  change (set_constraints (BPH_mass_spring_clear_constraints data0)
            (id_constraints (BPH_mass_spring_clear_constraints data0) ++
             pinned_constraints 0 (cloth_verts cloth)))
    with (set_constraints data0 (pinned_constraints 0 (cloth_verts cloth))) in Hsetup.
  destruct (setup_colliders_loop 0 dt contacts _ _) as [[cloth2 data2]|] eqn:Hloop;
    [|discriminate].
  inversion Hsetup; subst cloth'; clear Hsetup.
  destruct (setup_colliders_loop_frame _ _ _ _ _ _ _ Hloop) as [Hc Hd].
  cbn in Hc, Hd.
  exists data0, (cloth_verts cloth2), (id_constraints data2).
  split; [reflexivity|]. split; [|split].
  - rewrite Hloop. f_equal. f_equal; assumption.
  - rewrite Hc at 1. rewrite Hd at 1. reflexivity.
  - exact Hstatic.
Qed.

(** X5: [cloth_setup_constraints] writes nothing but the impulse counts of
    the vertices and the constraint list of the solver: the solver
    found on entry is the solver left, with its vertex count,
    capacity, masses, positions, velocities and rest transforms as
    they were, and the springs and the collision tree of the cloth are
    untouched. *)
Theorem X5_setup_constraints_frame (cloth : Cloth) (contacts : list ColliderContacts) (dt : Q)
    (cloth' : Cloth) :
  cloth_setup_constraints cloth contacts dt = Some cloth' ->
  exists data data',
    cloth_implicit cloth = Some data /\
    cloth_implicit cloth' = Some data' /\
    data' = set_constraints data (id_constraints data') /\
    cloth_springs cloth' = cloth_springs cloth /\
    cloth_has_bvhtree cloth' = cloth_has_bvhtree cloth /\
    map vert_static (cloth_verts cloth') = map vert_static (cloth_verts cloth).
Proof.
  intros Hsetup.
  destruct (cloth_setup_constraints_run _ _ _ _ Hsetup)
    as (data0 & verts2 & cs2 & Himpl & _ & -> & Hstatic).
  exists data0, (set_constraints data0 cs2). cbn. auto 10.
Qed.

(** X6: Running [cloth_setup_constraints] again on its own result, with
    the same contacts and time step, changes nothing: the impulse
    counts left by the first run are reset, the constraints cleared,
    and both are rebuilt to the same values. *)
Theorem X6_setup_constraints_idempotent (cloth : Cloth) (contacts : list ColliderContacts)
    (dt : Q) (cloth' : Cloth) :
  cloth_setup_constraints cloth contacts dt = Some cloth' ->
  cloth_setup_constraints cloth' contacts dt = Some cloth'.
Proof.
  intros Hsetup.
  destruct (cloth_setup_constraints_run _ _ _ _ Hsetup)
    as (data0 & verts2 & cs2 & Himpl & Hloop & -> & Hstatic).
  unfold cloth_setup_constraints. cbn [cloth_implicit set_implicit cloth_verts set_verts].
  rewrite setup_pinned_loop_spec.
  change (set_constraints (BPH_mass_spring_clear_constraints (set_constraints data0 cs2))
            (id_constraints (BPH_mass_spring_clear_constraints (set_constraints data0 cs2)) ++
             pinned_constraints 0 verts2))
    with (set_constraints data0 (pinned_constraints 0 verts2)).
  rewrite (pinned_constraints_static _ _ 0 Hstatic), (reset_of_static _ _ Hstatic).
  change (set_verts (set_implicit (set_verts cloth verts2) (Some (set_constraints data0 cs2)))
            (map (fun vert => set_impulse_count vert 0) (cloth_verts cloth)))
    with (set_implicit
            (set_verts cloth (map (fun vert => set_impulse_count vert 0) (cloth_verts cloth)))
            (Some (set_constraints data0 cs2))).
  rewrite setup_colliders_loop_set_implicit, Hloop. reflexivity.
Qed.

(** X7: Every contact constraint [cloth_setup_constraints] leaves in the
    solver is stored under the number of the collider whose contact
    produced it, so under an index below the number of colliders,
    whichever vertex the contact is on. *)
Theorem X7_contact_constraints_indexed_by_collider (cloth : Cloth)
    (contacts : list ColliderContacts) (dt : Q) (cloth' : Cloth) (data' : Implicit_Data)
    (index : Z) (c1 dV : vec3) :
  cloth_setup_constraints cloth contacts dt = Some cloth' ->
  cloth_implicit cloth' = Some data' ->
  In (ndof2 index c1 dV) (id_constraints data') ->
  0 <= index < Z.of_nat (length contacts) /\
  exists ct collpair,
    contacts !! Z.to_nat index = Some ct /\
    In collpair (ct_collisions ct) /\
    c1 = cp_normal collpair.
Proof.
  intros Hsetup Hdata' Hin.
  destruct (contact_constraint_index _ _ _ _ _ _ _ _ Hsetup Hdata' Hin)
    as (k & ct & collpair & -> & Hk & Hcp & Hc1 & _).
  pose proof (lookup_lt_Some _ _ _ Hk) as Hlt.
  split; [lia|]. exists ct, collpair. rewrite Nat2Z.id. auto.
Qed.

Local Open Scope Q_scope.

(** X8: For a contact whose normal has unit length and a restitution that
    is not negative, the impulse returned by [collision_response]
    removes the approach: the vertex velocity plus the impulse,
    relative to the collider's new velocity, has along the normal
    exactly the repulsion term (or, below the margin by more than
    epsilon, the larger of repulsion and bounce), which is never
    negative. *)
Theorem X8_response_separates
    (cloth : Cloth) (collmd : CollisionModifierData) (collpair : CollPair)
    (dt restitution : Q) (vert : ClothVertex) (impulse : vec3) :
  0 <= ALMOST_ZERO ->
  0 <= restitution ->
  dot_v3v3 (cp_normal collpair) (cp_normal collpair) == 1 ->
  lookup_vert (cloth_verts cloth) (cp_ap1 collpair) = Some vert ->
  collision_response cloth collmd collpair dt restitution = Some (true, impulse) ->
  let bounce := - v_nor_old vert collmd collpair * restitution in
  let repulse := CLAMP (- margin_distance collmd collpair / dt) 0 (4 * bounce) in
  let v_after :=
    dot_v3v3
      (sub_v3_v3v3 (madd_v3_v3v3fl (vert_v vert) impulse 1)
         (snd (collision_get_collider_velocity collmd collpair)))
      (cp_normal collpair) in
  0 <= v_after /\
  v_after ==
    (if Qltb (margin_distance collmd collpair) (- BLI_bvhtree_getepsilon collmd)
     then max_ff repulse bounce else repulse).
Proof.
  intros Hzero Hrest Hunit Hvert Hresp bounce repulse v_after.
  destruct (collision_response_accept _ _ _ _ _ _ Hresp) as (vert' & Hvert' & Hm & Hfut & Hmag).
  rewrite Hvert in Hvert'. inversion Hvert'; subst vert'. clear Hvert'.
  rewrite (collision_response_unfold _ _ _ _ _ _ Hvert) in Hresp.
  rewrite Hfut in Hresp.
  apply Qltb_true in Hmag. rewrite Hmag in Hresp. apply Qltb_true in Hmag.
  case_Qltb 0 (margin_distance collmd collpair); [lra|].
  cbv zeta in Hresp. fold bounce in Hresp. fold repulse in Hresp.
  assert (Hb : 0 <= bounce) by (unfold bounce; nra).
  assert (Hr : 0 <= repulse) by (apply CLAMP_bounds; lra).
  assert (Hafter : forall s, impulse = mul_v3_v3fl (cp_normal collpair)
                                          (s - v_nor_new vert collmd collpair) ->
                             v_after == s).
  { intros s ->. unfold v_after, v_nor_new, dot_v3v3, sub_v3_v3v3, madd_v3_v3v3fl,
      mul_v3_v3fl in *. cbn [vx vy vz] in *.
    destruct (cp_normal collpair) as [nx ny nz]. cbn [vx vy vz] in *.
    destruct (vert_v vert) as [a b c].
    destruct (snd (collision_get_collider_velocity collmd collpair)) as [p q r].
    cbn [vx vy vz] in *.
    transitivity (((a - p) * nx + (b - q) * ny + (c - r) * nz) * (1 - (nx * nx + ny * ny + nz * nz))
                  + s * (nx * nx + ny * ny + nz * nz)); [ring|].
    rewrite Hunit. ring. }
  destruct (Qltb (margin_distance collmd collpair) (- BLI_bvhtree_getepsilon collmd));
    inversion Hresp as [Himp]; symmetry in Himp; apply Hafter in Himp;
    (split; [|exact Himp]); rewrite Himp; [|exact Hr].
  destruct (max_ff_cases repulse bounce) as [[-> _] | [-> _]]; assumption.
Qed.
End SetupConstraintsExtras.

Section ImpulseCountProperties.
Context `{Constants} `{Collaborators}.

(** X30: The impulse counters of one constraint set-up.  The set-up
    succeeds when the solver exists and the contacts index the vertex
    array; a contact on a pinned vertex or on a vertex whose impulse
    count is already positive leaves cloth and solver as they are; and
    after a set-up the constraints are exactly one zero-velocity
    [ndof0] per pinned vertex (nothing survives from before the clear)
    followed by the accepted contacts, every impulse count is 0 or 1
    (0 for pinned vertices) whatever it was before, and the counts
    add up to the number of accepted contacts.  This is about the
    counters kept per contacted vertex, not about the solver index an
    accepted constraint is stored under. *)
Theorem X30_setup_constraints_impulse_counts (cloth : Cloth) (contacts : list ColliderContacts) (dt : Q) :
  (forall data,
      cloth_implicit cloth = Some data ->
      contacts_in_range (length (cloth_verts cloth)) contacts ->
      exists cloth', cloth_setup_constraints cloth contacts dt = Some cloth') /\
  (forall i collmd data collpair vert,
      lookup_vert (cloth_verts cloth) (cp_face1 collpair) = Some vert ->
      is_pinned vert = true \/ 0 < vert_impulse_count vert ->
      setup_contact i collmd dt cloth data collpair = Some (cloth, data)) /\
  (forall cloth',
      cloth_setup_constraints cloth contacts dt = Some cloth' ->
      exists data' accepted,
        cloth_implicit cloth' = Some data' /\
        id_constraints data' = pinned_constraints 0 (cloth_verts cloth) ++ accepted /\
        Forall is_ndof2 accepted /\
        Z.of_nat (length accepted) = impulse_total (cloth_verts cloth') /\
        map vert_static (cloth_verts cloth') = map vert_static (cloth_verts cloth) /\
        (forall (v : nat) vert',
            cloth_verts cloth' !! v = Some vert' ->
            (0 <= vert_impulse_count vert' <= 1) /\
            (is_pinned vert' = true -> vert_impulse_count vert' = 0)) /\
        (forall (v : nat) vert,
            cloth_verts cloth !! v = Some vert ->
            count_ndof0 (Z.of_nat v) (id_constraints data')
              = if is_pinned vert then 1%nat else 0%nat)).
Proof.
  split; [|split].
  - intros data Hdata Hrange. eapply cloth_setup_constraints_total; eauto.
  - intros i collmd data collpair vert Hvert Hskip. unfold setup_contact.
    rewrite Hvert. fold (is_pinned vert).
    destruct (is_pinned vert); [reflexivity|].
    destruct Hskip as [Hpin | Hcnt]; [discriminate|].
    apply Z.ltb_lt in Hcnt. rewrite Hcnt. reflexivity.
  - intros cloth' Hsetup.
    destruct (cloth_setup_constraints_inv _ _ _ _ Hsetup)
      as (data' & Hdata' & [Hstatic Hcounts (accepted & Hcs & Hnd & _ & Hlen)]).
    exists data', accepted.
    split; [exact Hdata'|]. split; [exact Hcs|]. split; [exact Hnd|].
    split; [exact Hlen|]. split; [exact Hstatic|]. split.
    + intros v vert' Hv'.
      pose proof (Forall_lookup_1 _ _ _ _ Hcounts Hv') as Hv. cbv beta in Hv. exact Hv.
    + intros v vert Hv. rewrite Hcs, count_ndof0_app, (count_ndof0_ndof2 _ _ Hnd).
      pose proof (count_ndof0_pinned (cloth_verts cloth) 0 v vert Hv) as Hc.
      replace (0 + Z.of_nat v) with (Z.of_nat v) in Hc by lia.
      rewrite Hc. lia.
Qed.
End ImpulseCountProperties.

Section ResultExtras.
Context `{Constants}.

(** X9: Whatever their statuses, every recorded result adds its iteration
    count over [steps] to the average of iterations, only the
    successful ones add their error over [steps] to the average of
    errors, and the status collects the statuses by bitwise OR. *)
Theorem X9_record_result_averages (sres : ClothSolverResult)
    (results : list ImplicitSolverResult) (steps : Z) :
  steps <> 0 ->
  let sres' := record_all sres results steps in
  let successful := List.filter (fun r => res_status r =? BPH_SOLVER_SUCCESS) results in
  (sres_avg_iterations sres' ==
     sres_avg_iterations sres + inject_Z (Zsum (map res_iterations results)) / inject_Z steps)%Q /\
  (sres_avg_error sres' ==
     sres_avg_error sres + Qsum (map res_error successful) / inject_Z steps)%Q /\
  sres_status sres' = fold_left Z.lor (map res_status results) (sres_status sres).
Proof.
  intros _. cbv zeta. revert sres.
  induction results as [|r rest IH]; intros sres.
  - cbn. repeat split; unfold Qdiv; ring.
  - unfold record_all. cbn [fold_left]. fold (record_all (cloth_record_result sres r steps) rest steps).
    destruct (IH (cloth_record_result sres r steps)) as (Hit & Herr & Hst).
    rewrite Hit, Herr, Hst. clear IH Hit Herr Hst.
    cbn [List.filter map].
    assert (Hrec :
      sres_avg_iterations (cloth_record_result sres r steps)
        = (sres_avg_iterations sres + inject_Z (res_iterations r) / inject_Z steps)%Q /\
      sres_avg_error (cloth_record_result sres r steps)
        = (if res_status r =? BPH_SOLVER_SUCCESS
           then sres_avg_error sres + res_error r / inject_Z steps
           else sres_avg_error sres)%Q /\
      sres_status (cloth_record_result sres r steps) = Z.lor (sres_status sres) (res_status r)).
    { unfold cloth_record_result. destruct (negb (sres_status sres =? 0)); cbn; auto. }
    destruct Hrec as (-> & -> & ->).
    repeat split.
    + unfold Zsum. cbn [foldr]. rewrite inject_Z_plus. unfold Qdiv. ring.
    + destruct (res_status r =? BPH_SOLVER_SUCCESS); cbn [map]; unfold Qsum; cbn [foldr];
        unfold Qdiv; ring.
Qed.

(** X10: When the first result recorded after a clear is a failed solve
    (with a status other than zero), the least error reported for the
    frame stays at the cleared value 0 whatever the errors of the
    later, successful solves, as long as none is negative; and the
    greatest error is then never below 0. *)
Theorem X10_record_result_min_after_failure (sres0 : ClothSolverResult)
    (r1 : ImplicitSolverResult) (rest : list ImplicitSolverResult) (steps : Z) :
  res_status r1 <> BPH_SOLVER_SUCCESS ->
  res_status r1 <> 0 ->
  Forall (fun r => (0 <= res_error r)%Q) rest ->
  let sres := record_all (cloth_clear_result sres0) (r1 :: rest) steps in
  (sres_min_error sres == 0)%Q /\ (0 <= sres_max_error sres)%Q.
Proof.
  intros Hfail Hnz Hpos. cbv zeta. unfold record_all. cbn [fold_left].
  set (s1 := cloth_record_result (cloth_clear_result sres0) r1 steps).
  assert (Hs1 : sres_status s1 <> 0 /\ (sres_min_error s1 == 0)%Q /\ (0 <= sres_max_error s1)%Q).
  { unfold s1, cloth_record_result, cloth_clear_result. cbn.
    destruct (res_status r1 =? BPH_SOLVER_SUCCESS) eqn:E; [apply Z.eqb_eq in E; contradiction|].
    split; [exact Hnz|]. split; [reflexivity | apply Qle_refl]. }
  clearbody s1. revert s1 Hs1.
  induction Hpos as [|r rest Hr Hrest IH]; intros s1 (Hst & Hmin & Hmax); cbn [fold_left].
  - auto.
  - apply IH. unfold cloth_record_result.
    destruct (sres_status s1 =? 0) eqn:E; [apply Z.eqb_eq in E; contradiction|].
    cbn. split; [|split].
    + intros Hz. apply Z.lor_eq_0_iff in Hz. tauto.
    + destruct (res_status r =? BPH_SOLVER_SUCCESS); [|exact Hmin].
      destruct (min_ff_cases (sres_min_error s1) (res_error r)) as [[-> _] | [-> Hle]];
        [exact Hmin | lra].
    + destruct (res_status r =? BPH_SOLVER_SUCCESS); [|exact Hmax].
      destruct (max_ff_cases (sres_max_error s1) (res_error r)) as [[-> _] | [-> _]];
        [exact Hmax | exact Hr].
Qed.
End ResultExtras.

Section SolveExtras.
Context `{Constants} `{ContactSearch}.
Local Open Scope Q_scope.

Lemma goal_velocity_loop_below verts : forall i id j,
  (j < i)%Z -> id_V (goal_velocity_loop i verts id) j = id_V id j.
Proof.
  induction verts as [|vert rest IH]; intros i id j Hlt; cbn [goal_velocity_loop].
  - reflexivity.
  - rewrite IH by lia. destruct (is_pinned vert); [|reflexivity].
    cbn. unfold upd. destruct (j =? i)%Z eqn:E; [apply Z.eqb_eq in E; lia | reflexivity].
Qed.

Lemma goal_velocity_loop_above verts : forall i id j,
  (i + Z.of_nat (length verts) <= j)%Z -> id_V (goal_velocity_loop i verts id) j = id_V id j.
Proof.
  induction verts as [|vert rest IH]; intros i id j Hge; cbn [goal_velocity_loop].
  - reflexivity.
  - cbn [length] in Hge. rewrite IH by lia. destruct (is_pinned vert); [|reflexivity].
    cbn. unfold upd. destruct (j =? i)%Z eqn:E; [apply Z.eqb_eq in E; lia | reflexivity].
Qed.

Lemma goal_velocity_loop_at verts : forall i id (k : nat) vert,
  verts !! k = Some vert ->
  id_V (goal_velocity_loop i verts id) (i + Z.of_nat k) =
    if is_pinned vert then sub_v3_v3v3 (vert_xconst vert) (vert_xold vert)
    else id_V id (i + Z.of_nat k).
Proof.
  induction verts as [|vert0 rest IH]; intros i id k vert Hk; [discriminate|].
  cbn [goal_velocity_loop]. destruct k as [|k]; cbn in Hk.
  - inversion Hk; subst vert0. replace (i + Z.of_nat 0)%Z with i by lia.
    rewrite goal_velocity_loop_below by lia.
    destruct (is_pinned vert); [|reflexivity].
    cbn. unfold upd. rewrite Z.eqb_refl. reflexivity.
  - replace (i + Z.of_nat (S k))%Z with ((i + 1) + Z.of_nat k)%Z by lia.
    rewrite (IH _ _ _ _ Hk). destruct (is_pinned vert); [reflexivity|].
    destruct (is_pinned vert0); [|reflexivity].
    cbn. unfold upd.
    destruct (i + 1 + Z.of_nat k =? i)%Z eqn:E; [apply Z.eqb_eq in E; lia | reflexivity].
Qed.

Lemma goal_velocity_loop_rest verts : forall i id,
  id_X (goal_velocity_loop i verts id) = id_X id /\
  id_M (goal_velocity_loop i verts id) = id_M id /\
  id_constraints (goal_velocity_loop i verts id) = id_constraints id.
Proof.
  induction verts as [|vert rest IH]; intros i id; cbn [goal_velocity_loop].
  - auto.
  - destruct (IH (i + 1)%Z
                (if is_pinned vert
                 then BPH_mass_spring_set_velocity id i
                        (sub_v3_v3v3 (vert_xconst vert) (vert_xold vert))
                 else id)) as (-> & -> & ->).
    destruct (is_pinned vert); auto.
Qed.

(** X11: The goal loop at the head of [BPH_cloth_solve] gives every pinned
    vertex the solver velocity [xconst - xold] and leaves the velocity
    of every other vertex, and of every index outside the vertex
    array, as it was; positions, masses and constraints are not
    touched. *)
Theorem X11_goal_velocities_set (verts : list ClothVertex) (id : Implicit_Data) :
  let id' := goal_velocity_loop 0 verts id in
  (forall (i : nat) vert,
      verts !! i = Some vert ->
      BPH_mass_spring_get_velocity id' (Z.of_nat i) =
        if is_pinned vert then sub_v3_v3v3 (vert_xconst vert) (vert_xold vert)
        else BPH_mass_spring_get_velocity id (Z.of_nat i)) /\
  (forall j, (j < 0 \/ Z.of_nat (length verts) <= j)%Z ->
      BPH_mass_spring_get_velocity id' j = BPH_mass_spring_get_velocity id j) /\
  (forall j, BPH_mass_spring_get_position id' j = BPH_mass_spring_get_position id j) /\
  id_M id' = id_M id /\
  id_constraints id' = id_constraints id.
Proof.
  cbv zeta. unfold BPH_mass_spring_get_velocity, BPH_mass_spring_get_position.
  destruct (goal_velocity_loop_rest verts 0%Z id) as (HX & HM & HC).
  split; [|split; [|split; [|split]]]; auto.
  - intros i vert Hi. exact (goal_velocity_loop_at verts 0%Z id i vert Hi).
  - intros j [Hlt | Hge].
    + apply goal_velocity_loop_below. exact Hlt.
    + apply goal_velocity_loop_above. lia.
  - intros j. rewrite HX. reflexivity.
Qed.

Lemma vel_damping_loop_below damping verts : forall i id j,
  (j < i)%Z -> id_V (vel_damping_loop damping i verts id) j = id_V id j.
Proof.
  induction verts as [|vert rest IH]; intros i id j Hlt; cbn [vel_damping_loop].
  - reflexivity.
  - rewrite IH by lia.
    cbn. unfold upd. destruct (j =? i)%Z eqn:E; [apply Z.eqb_eq in E; lia | reflexivity].
Qed.

Lemma vel_damping_loop_above damping verts : forall i id j,
  (i + Z.of_nat (length verts) <= j)%Z ->
  id_V (vel_damping_loop damping i verts id) j = id_V id j.
Proof.
  induction verts as [|vert rest IH]; intros i id j Hge; cbn [vel_damping_loop].
  - reflexivity.
  - cbn [length] in Hge. rewrite IH by lia.
    cbn. unfold upd. destruct (j =? i)%Z eqn:E; [apply Z.eqb_eq in E; lia | reflexivity].
Qed.

Lemma vel_damping_loop_at damping verts : forall i id (k : nat),
  (k < length verts)%nat ->
  id_V (vel_damping_loop damping i verts id) (i + Z.of_nat k) =
    mul_v3_v3fl (id_V id (i + Z.of_nat k)) damping.
Proof.
  induction verts as [|vert0 rest IH]; intros i id k Hk; [cbn in Hk; lia|].
  cbn [vel_damping_loop]. destruct k as [|k].
  - replace (i + Z.of_nat 0)%Z with i by lia.
    rewrite vel_damping_loop_below by lia.
    cbn. unfold upd. rewrite Z.eqb_refl. reflexivity.
  - replace (i + Z.of_nat (S k))%Z with ((i + 1) + Z.of_nat k)%Z by lia.
    cbn [length] in Hk. rewrite IH by lia.
    cbn. unfold upd.
    destruct (i + 1 + Z.of_nat k =? i)%Z eqn:E; [apply Z.eqb_eq in E; lia | reflexivity].
Qed.

Lemma vel_damping_loop_rest damping verts : forall i id,
  id_X (vel_damping_loop damping i verts id) = id_X id /\
  id_constraints (vel_damping_loop damping i verts id) = id_constraints id.
Proof.
  induction verts as [|vert rest IH]; intros i id; cbn [vel_damping_loop].
  - auto.
  - destruct (IH (i + 1)%Z
                (BPH_mass_spring_set_velocity id i
                   (mul_v3_v3fl (BPH_mass_spring_get_velocity id i) damping))) as (-> & ->).
    auto.
Qed.

(** X12: The damping loop of a substep scales the solver velocity of each
    vertex of the cloth by the damping factor, each exactly once, and
    touches neither the velocity stored under any other index nor any
    position or constraint. *)
Theorem X12_vel_damping_scales_once (damping : Q) (verts : list ClothVertex) (id : Implicit_Data) :
  let id' := vel_damping_loop damping 0 verts id in
  (forall i : nat,
      (i < length verts)%nat ->
      BPH_mass_spring_get_velocity id' (Z.of_nat i) =
        mul_v3_v3fl (BPH_mass_spring_get_velocity id (Z.of_nat i)) damping) /\
  (forall j, (j < 0 \/ Z.of_nat (length verts) <= j)%Z ->
      BPH_mass_spring_get_velocity id' j = BPH_mass_spring_get_velocity id j) /\
  (forall j, BPH_mass_spring_get_position id' j = BPH_mass_spring_get_position id j) /\
  id_constraints id' = id_constraints id.
Proof.
  cbv zeta. unfold BPH_mass_spring_get_velocity, BPH_mass_spring_get_position.
  destruct (vel_damping_loop_rest damping verts 0%Z id) as (HX & HC).
  split; [|split; [|split]]; auto.
  - intros i Hi. exact (vel_damping_loop_at damping verts 0%Z id i Hi).
  - intros j [Hlt | Hge].
    + apply vel_damping_loop_below. exact Hlt.
    + apply vel_damping_loop_above. lia.
  - intros j. rewrite HX. reflexivity.
Qed.

Lemma extra_solve_loop_below goal spf verts : forall i id j,
  (j < i)%Z ->
  id_Xnew (extra_solve_loop goal spf i verts id) j = id_Xnew id j /\
  id_Vnew (extra_solve_loop goal spf i verts id) j = id_Vnew id j.
Proof.
  induction verts as [|vert rest IH]; intros i id j Hlt; cbn [extra_solve_loop].
  - auto.
  - destruct (IH (i + 1)%Z
                (if goal && is_pinned vert then id
                 else BPH_mass_spring_set_new_velocity
                        (BPH_mass_spring_set_new_position id i (vert_tx vert)) i
                        (mul_v3_v3fl (vert_tv vert) spf)) j ltac:(lia)) as [-> ->].
    destruct (goal && is_pinned vert); [auto|].
    cbn. unfold upd. destruct (j =? i)%Z eqn:E; [apply Z.eqb_eq in E; lia | auto].
Qed.

Lemma extra_solve_loop_at goal spf verts : forall i id (k : nat) vert,
  verts !! k = Some vert ->
  (id_Xnew (extra_solve_loop goal spf i verts id) (i + Z.of_nat k),
   id_Vnew (extra_solve_loop goal spf i verts id) (i + Z.of_nat k)) =
    if goal && is_pinned vert
    then (id_Xnew id (i + Z.of_nat k), id_Vnew id (i + Z.of_nat k))
    else (vert_tx vert, mul_v3_v3fl (vert_tv vert) spf).
Proof.
  induction verts as [|vert0 rest IH]; intros i id k vert Hk; [discriminate|].
  cbn [extra_solve_loop]. destruct k as [|k]; cbn in Hk.
  - inversion Hk; subst vert0. replace (i + Z.of_nat 0)%Z with i by lia.
    destruct (extra_solve_loop_below goal spf rest (i + 1)%Z
                (if goal && is_pinned vert then id
                 else BPH_mass_spring_set_new_velocity
                        (BPH_mass_spring_set_new_position id i (vert_tx vert)) i
                        (mul_v3_v3fl (vert_tv vert) spf)) i ltac:(lia)) as [-> ->].
    destruct (goal && is_pinned vert); [reflexivity|].
    cbn. unfold upd. rewrite Z.eqb_refl. reflexivity.
  - replace (i + Z.of_nat (S k))%Z with ((i + 1) + Z.of_nat k)%Z by lia.
    rewrite (IH _ _ _ _ Hk). destruct (goal && is_pinned vert); [|reflexivity].
    destruct (goal && is_pinned vert0); [reflexivity|].
    cbn. unfold upd.
    destruct (i + 1 + Z.of_nat k =? i)%Z eqn:E; [apply Z.eqb_eq in E; lia | reflexivity].
Qed.

Lemma extra_solve_loop_rest goal spf verts : forall i id,
  id_X (extra_solve_loop goal spf i verts id) = id_X id /\
  id_V (extra_solve_loop goal spf i verts id) = id_V id /\
  id_constraints (extra_solve_loop goal spf i verts id) = id_constraints id.
Proof.
  induction verts as [|vert rest IH]; intros i id; cbn [extra_solve_loop].
  - auto.
  - destruct (IH (i + 1)%Z
                (if goal && is_pinned vert then id
                 else BPH_mass_spring_set_new_velocity
                        (BPH_mass_spring_set_new_position id i (vert_tx vert)) i
                        (mul_v3_v3fl (vert_tv vert) spf))) as (-> & -> & ->).
    destruct (goal && is_pinned vert); auto.
Qed.

(** X13: With collisions enabled, a collision tree present and a
    collision pass that asks for the extra solve,
    [cloth_collision_solve_extra] hands to the solver, for each
    vertex, the corrected position [tx] as new position and the
    velocity [tv] scaled by [stepsPerFrame / timescale] as new
    velocity, except that under the goal flag a pinned vertex is
    skipped and keeps what the solver had; the current positions and
    velocities and the constraints are not touched by the hand-over.
    The solver it returns is that state after the result is applied,
    the forces are cleared and computed again, the velocities solved
    and the result applied once more. *)
Theorem X13_extra_solve_skips_pinned (clmd : ClothModifierData) (frame step dt : Q)
    (verts : list ClothVertex) (id : Implicit_Data) :
  let parms := clmd_sim_parms clmd in
  let cloth := clmd_clothObject clmd in
  let goal := has_flag (sim_flags parms) CLOTH_SIMSETTINGS_FLAG_GOAL in
  let spf := inject_Z (sim_stepsPerFrame parms) / sim_timescale parms in
  let out := cloth_collision_solve_extra clmd frame step dt verts id in
  has_flag (coll_flags (clmd_coll_parms clmd)) CLOTH_COLLSETTINGS_FLAG_ENABLED = true ->
  cloth_has_bvhtree cloth = true ->
  snd (cloth_bvh_objcollision (cloth_of cloth (extra_current_verts verts id) id)
         (step / sim_timescale parms) (dt / sim_timescale parms)) = true ->
  exists id1,
    snd out =
      (let id_a := BPH_mass_spring_clear_forces (BPH_mass_spring_apply_result id1) in
       let id_b := cloth_calc_force (cloth_of cloth (fst out) id_a) frame step id_a in
       BPH_mass_spring_apply_result (fst (BPH_mass_spring_solve_velocities id_b dt))) /\
    (forall (i : nat) vert,
        fst out !! i = Some vert ->
        if goal && is_pinned vert
        then BPH_mass_spring_get_new_position id1 (Z.of_nat i)
               = BPH_mass_spring_get_new_position id (Z.of_nat i) /\
             BPH_mass_spring_get_new_velocity id1 (Z.of_nat i)
               = BPH_mass_spring_get_new_velocity id (Z.of_nat i)
        else BPH_mass_spring_get_new_position id1 (Z.of_nat i) = vert_tx vert /\
             BPH_mass_spring_get_new_velocity id1 (Z.of_nat i)
               = mul_v3_v3fl (vert_tv vert) spf) /\
    id_X id1 = id_X id /\ id_V id1 = id_V id /\ id_constraints id1 = id_constraints id.
Proof.
  intros parms cloth goal spf out Henabled Hbvh Hextra.
  unfold out, cloth_collision_solve_extra.
  fold parms cloth. rewrite Henabled, Hbvh. cbn [negb].
  fold (extra_current_verts verts id).
  destruct (cloth_bvh_objcollision (cloth_of cloth (extra_current_verts verts id) id)
              (step / sim_timescale parms) (dt / sim_timescale parms))
    as [verts2 do_extra_solve].
  cbn [snd] in Hextra. subst do_extra_solve. cbn [fst snd].
  fold goal. fold spf.
  match goal with
  | |- context [extra_solve_loop goal spf 0%Z ?vs id] => set (verts3 := vs)
  end.
  exists (extra_solve_loop goal spf 0%Z verts3 id).
  split; [reflexivity|]. split; [|apply extra_solve_loop_rest].
  intros i vert Hi.
  unfold BPH_mass_spring_get_new_position, BPH_mass_spring_get_new_velocity.
  pose proof (extra_solve_loop_at goal spf verts3 0%Z id i vert Hi) as Hat.
  replace (0 + Z.of_nat i)%Z with (Z.of_nat i) in Hat by lia.
  destruct (goal && is_pinned vert); inversion Hat; auto.
Qed.

Lemma move_pinned_loop_verts goal t verts : forall i id (k : nat) vert,
  verts !! k = Some vert ->
  fst (move_pinned_loop goal t i verts id) !! k =
    Some (set_vert_txold vert
            (BPH_mass_spring_get_position (snd (move_pinned_loop goal t i verts id))
               (i + Z.of_nat k))) /\
  BPH_mass_spring_get_position (snd (move_pinned_loop goal t i verts id)) (i + Z.of_nat k) =
    if goal && is_pinned vert
    then interp_v3_v3v3 (vert_xold vert) (vert_xconst vert) t
    else BPH_mass_spring_get_position id (i + Z.of_nat k).
Proof.
  unfold BPH_mass_spring_get_position.
  induction verts as [|vert0 rest IH]; intros i id k vert Hk; [discriminate|].
  cbn [move_pinned_loop].
  destruct (move_pinned_loop goal t (i + 1) rest _) as [rest' id2] eqn:Hrest.
  cbn [fst snd].
  destruct k as [|k]; cbn in Hk.
  - inversion Hk; subst vert0. replace (i + Z.of_nat 0)%Z with i by lia.
    assert (Hx : id_X id2 i =
                 id_X (if goal
                       then if is_pinned vert
                            then BPH_mass_spring_set_position id i
                                   (interp_v3_v3v3 (vert_xold vert) (vert_xconst vert) t)
                            else id
                       else id) i).
    { change id2 with (snd (rest', id2)). rewrite <- Hrest.
      apply move_pinned_loop_below. lia. }
    cbn [lookup]. split.
    + cbn. rewrite Hx. reflexivity.
    + rewrite Hx. destruct goal; [|reflexivity]. destruct (is_pinned vert); [|reflexivity].
      cbn. unfold upd. rewrite Z.eqb_refl. reflexivity.
  - replace (i + Z.of_nat (S k))%Z with ((i + 1) + Z.of_nat k)%Z by lia.
    pose proof (IH (i + 1)%Z
                  (if goal
                   then if is_pinned vert0
                        then BPH_mass_spring_set_position id i
                               (interp_v3_v3v3 (vert_xold vert0) (vert_xconst vert0) t)
                        else id
                   else id) k vert Hk) as [IH1 IH2].
    rewrite Hrest in IH1, IH2. cbn [fst snd] in IH1, IH2.
    split; [exact IH1|]. rewrite IH2.
    destruct (goal && is_pinned vert); [reflexivity|].
    destruct goal; [|reflexivity]. destruct (is_pinned vert0); [|reflexivity].
    cbn. unfold upd.
    destruct (i + 1 + Z.of_nat k =? i)%Z eqn:E; [apply Z.eqb_eq in E; lia | reflexivity].
Qed.

Lemma move_pinned_loop_length goal t verts : forall i id,
  length (fst (move_pinned_loop goal t i verts id)) = length verts.
Proof.
  induction verts as [|vert rest IH]; intros i id; cbn [move_pinned_loop]; [reflexivity|].
  destruct (move_pinned_loop goal t (i + 1) rest _) as [rest' id2] eqn:Hrest.
  cbn [fst length]. f_equal.
  change rest' with (fst (rest', id2)). rewrite <- Hrest. apply IH.
Qed.

(** X14: The loop that ends a substep leaves every vertex with [txold]
    equal to the solver position of that vertex after the loop, and
    changes nothing else in the vertex; the solver position is the
    interpolated pin position for a pinned vertex under the goal flag
    and the position the solver already had for any other vertex. *)
Theorem X14_move_pinned_syncs_txold (goal : bool) (t : Q) (verts : list ClothVertex)
    (id : Implicit_Data) :
  let verts' := fst (move_pinned_loop goal t 0 verts id) in
  let id' := snd (move_pinned_loop goal t 0 verts id) in
  length verts' = length verts /\
  forall (i : nat) vert,
    verts !! i = Some vert ->
    verts' !! i = Some (set_vert_txold vert (BPH_mass_spring_get_position id' (Z.of_nat i))) /\
    BPH_mass_spring_get_position id' (Z.of_nat i) =
      if goal && is_pinned vert
      then interp_v3_v3v3 (vert_xold vert) (vert_xconst vert) t
      else BPH_mass_spring_get_position id (Z.of_nat i).
Proof.
  cbv zeta. split; [apply move_pinned_loop_length|].
  intros i vert Hi.
  pose proof (move_pinned_loop_verts goal t verts 0%Z id i vert Hi) as Hv.
  replace (0 + Z.of_nat i)%Z with (Z.of_nat i) in Hv by lia. exact Hv.
Qed.
End SolveExtras.

Section FrameExtras.
Context `{Constants} `{ContactSearch}.
Local Open Scope Q_scope.

(** One substep records exactly one result, that of its linear solve. *)
Lemma cloth_solve_substep_records clmd frame tf dt step st st' :
  cloth_solve_substep clmd frame tf dt step st = Some st' ->
  exists id5,
    st_sres st' =
      cloth_record_result (st_sres st) (snd (BPH_mass_spring_solve_velocities id5 dt))
        (sim_stepsPerFrame (clmd_sim_parms clmd)).
Proof.
  unfold cloth_solve_substep. intros Hsub.
  destruct (cloth_setup_constraints _ _ _) as [cloth2|]; [|discriminate].
  destruct (cloth_implicit cloth2) as [id2|]; [|discriminate].
  match type of Hsub with
  | context [BPH_mass_spring_solve_velocities ?i dt] =>
      exists i; destruct (BPH_mass_spring_solve_velocities i dt) as [id6 result]
  end.
  destruct (if negb _ then _ else _) as [verts3 id9].
  destruct (move_pinned_loop _ _ _ _ _) as [verts4 id11].
  inversion Hsub; subst st'. reflexivity.
Qed.

Lemma loop_pass_records clmd frame tf dt st0 k step st :
  loop_pass clmd frame tf dt st0 k step st ->
  exists results,
    length results = k /\
    Forall (fun r => exists id, r = snd (BPH_mass_spring_solve_velocities id dt)) results /\
    st_sres st = record_all (st_sres st0) results (sim_stepsPerFrame (clmd_sim_parms clmd)).
Proof.
  induction 1 as [|k step st st' _ (results & Hlen & Hall & Hrec) _ Hsub].
  - exists []. repeat split. constructor.
  - destruct (cloth_solve_substep_records _ _ _ _ _ _ _ Hsub) as [id5 Hst'].
    exists (results ++ [snd (BPH_mass_spring_solve_velocities id5 dt)]).
    split; [rewrite length_app; cbn; lia|]. split.
    + apply Forall_app. split; [exact Hall|]. constructor; [eauto | constructor].
    + unfold record_all in *. rewrite fold_left_app. cbn [fold_left].
      rewrite <- Hrec. exact Hst'.
Qed.

(** X15: A frame solved by [BPH_cloth_solve] leaves in the modifier
    data a result record that was cleared and then fed exactly one
    result per pass of the substep loop, each the report of a linear
    solve with time step [dt], the float quotient of the time scale
    by [stepsPerFrame = n].  The number of passes is the number of
    float additions of [dt] after which the sum is no longer below the
    time scale: [n] or [n + 1] for a time scale between [2^-100] and
    [2^100] and [n] between 1 and 1024, and exactly [n] for time
    scale 1 and [n] a power of two up to [2^23]. *)
Theorem X15_cloth_solve_records_each_substep (clmd : ClothModifierData) (frame : Q)
    (fuel : nat) (clmd' : ClothModifierData) :
  BPH_cloth_solve fuel frame clmd = Some clmd' ->
  let n := sim_stepsPerFrame (clmd_sim_parms clmd) in
  let tf := sim_timescale (clmd_sim_parms clmd) in
  let dt := float_div tf (float_of_int n) in
  exists (k : nat) results,
    cloth_loop_ends tf dt k /\
    length results = k /\
    Forall (fun r => exists id, r = snd (BPH_mass_spring_solve_velocities id dt)) results /\
    (forall sres0,
        clmd_solver_result clmd' = Some (record_all (cloth_clear_result sres0) results n)) /\
    (pow2 (-100) <= tf <= pow2 100 -> (1 <= n <= 1024)%Z ->
     Z.of_nat k = n \/ Z.of_nat k = (n + 1)%Z) /\
    (tf == 1 -> forall e : Z, (0 <= e <= 23)%Z -> n = (2 ^ e)%Z -> Z.of_nat k = n).
Proof.
  intros Hsolve n tf dt.
  destruct (BPH_cloth_solve_passes _ _ _ _ Hsolve)
    as (id & st0 & m & st_f & _ & _ & Hs0 & Hends & Hpass & Hres & _).
  fold n tf dt in Hends, Hpass.
  destruct (loop_pass_records _ _ _ _ _ _ _ _ Hpass) as (results & Hlen & Hall & Hrec).
  exists m, results.
  split; [exact Hends|]. split; [exact Hlen|]. split; [exact Hall|]. split; [|split].
  - intros sres0. rewrite Hres, Hrec, Hs0. reflexivity.
  - intros [Htf _] Hn.
    pose proof (cloth_loop_ends_near tf n Htf Hn) as Hnear. cbv zeta in Hnear.
    destruct Hnear as [Hn0 | Hn1].
    + left. rewrite (cloth_loop_ends_unique _ _ _ _ Hends Hn0). lia.
    + right. rewrite (cloth_loop_ends_unique _ _ _ _ Hends Hn1). lia.
  - intros Htf e He Hpow.
    pose proof (cloth_loop_ends_pow2 tf e Htf He) as Hn0. cbv zeta in Hn0.
    rewrite <- Hpow in Hn0.
    pose proof (n_pow2_range e He) as Hrange. cbv zeta in Hrange. rewrite <- Hpow in Hrange.
    rewrite (cloth_loop_ends_unique _ _ _ _ Hends Hn0). lia.
Qed.

(** X16: Whenever [BPH_cloth_solve] returns, the cloth in the modifier
    data carries the solver it ended with, and every vertex has as
    position [x] and velocity [v] the solver's position and velocity
    for it, with [txold] equal to [x]; the hair data and both
    settings blocks are those of the input, and a result record is
    present. *)
Theorem X16_cloth_solve_copies_back (clmd : ClothModifierData) (frame : Q)
    (fuel : nat) (clmd' : ClothModifierData) :
  BPH_cloth_solve fuel frame clmd = Some clmd' ->
  clmd_hairdata clmd' = clmd_hairdata clmd /\
  clmd_sim_parms clmd' = clmd_sim_parms clmd /\
  clmd_coll_parms clmd' = clmd_coll_parms clmd /\
  cloth_springs (clmd_clothObject clmd') = cloth_springs (clmd_clothObject clmd) /\
  (exists sres, clmd_solver_result clmd' = Some sres) /\
  exists id',
    cloth_implicit (clmd_clothObject clmd') = Some id' /\
    forall (i : nat) vert',
      cloth_verts (clmd_clothObject clmd') !! i = Some vert' ->
      vert_x vert' = BPH_mass_spring_get_position id' (Z.of_nat i) /\
      vert_v vert' = BPH_mass_spring_get_velocity id' (Z.of_nat i) /\
      vert_txold vert' = vert_x vert'.
Proof.
  unfold BPH_cloth_solve. intros Hsolve.
  destruct (cloth_implicit (clmd_clothObject clmd)) as [id|]; [|discriminate].
  destruct (cloth_solve_loop _ _ _ _ _ _ _) as [st_f|]; [|discriminate].
  inversion Hsolve; subst clmd'. clear Hsolve.
  cbn [clmd_hairdata clmd_sim_parms clmd_coll_parms clmd_clothObject clmd_solver_result
       cloth_of set_implicit set_verts cloth_verts cloth_springs cloth_implicit].
  repeat (split; [reflexivity|]). split; [eauto|].
  exists (st_id st_f). split; [reflexivity|].
  intros i vert' Hi. rewrite list_lookup_imap in Hi.
  destruct (st_verts st_f !! i) as [vert|]; [|discriminate].
  cbn in Hi. inversion Hi; subst vert'. cbn. auto.
Qed.

(** X17: With a time scale that is not positive the loop of
    [BPH_cloth_solve] makes no pass: the frame ends with the result
    record cleared to zeros, no constraint set up, and the solver as
    it was on entry apart from the goal velocities of pinned
    vertices. *)
Theorem X17_cloth_solve_no_substep (clmd : ClothModifierData) (frame : Q) (fuel : nat)
    (id : Implicit_Data) :
  sim_timescale (clmd_sim_parms clmd) <= 0 ->
  cloth_implicit (clmd_clothObject clmd) = Some id ->
  exists clmd',
    BPH_cloth_solve (S fuel) frame clmd = Some clmd' /\
    clmd_solver_result clmd' = Some (mk_ClothSolverResult 0 0 0 0 0 0 0) /\
    cloth_implicit (clmd_clothObject clmd') =
      Some (if has_flag (sim_flags (clmd_sim_parms clmd)) CLOTH_SIMSETTINGS_FLAG_GOAL
            then goal_velocity_loop 0 (cloth_verts (clmd_clothObject clmd)) id
            else id) /\
    length (cloth_verts (clmd_clothObject clmd')) = length (cloth_verts (clmd_clothObject clmd)).
Proof.
  intros Htf Himpl. unfold BPH_cloth_solve. rewrite Himpl. cbn [cloth_solve_loop].
  case_Qltb 0 (sim_timescale (clmd_sim_parms clmd)); [lra|].
  eexists. split; [reflexivity|].
  cbn [clmd_solver_result clmd_clothObject cloth_of set_implicit set_verts cloth_verts
       cloth_implicit st_sres st_id st_verts].
  split; [reflexivity|]. split; [reflexivity|].
  apply length_imap.
Qed.
End FrameExtras.

Section StrandExtras.
Context `{StrandCollaborators}.
Local Open Scope Q_scope.

Lemma strands_init_loop_below mat state : forall i id j,
  (j < i)%Z ->
  id_X (strands_init_loop mat i state id) j = id_X id j /\
  id_V (strands_init_loop mat i state id) j = id_V id j.
Proof.
  induction state as [|s rest IH]; intros i id j Hlt; cbn [strands_init_loop].
  - auto.
  - destruct (IH (i + 1)%Z
                (BPH_mass_spring_set_motion_state id i (mul_m4_v3 mat (state_co s))
                   (mul_mat3_m4_v3 mat (state_vel s))) j ltac:(lia)) as [-> ->].
    cbn. unfold upd. destruct (j =? i)%Z eqn:E; [apply Z.eqb_eq in E; lia | auto].
Qed.

Lemma strands_init_loop_at mat state : forall i id (k : nat) s,
  state !! k = Some s ->
  id_X (strands_init_loop mat i state id) (i + Z.of_nat k) = mul_m4_v3 mat (state_co s) /\
  id_V (strands_init_loop mat i state id) (i + Z.of_nat k) = mul_mat3_m4_v3 mat (state_vel s).
Proof.
  induction state as [|s0 rest IH]; intros i id k s Hk; [discriminate|].
  cbn [strands_init_loop]. destruct k as [|k]; cbn in Hk.
  - inversion Hk; subst s0. replace (i + Z.of_nat 0)%Z with i by lia.
    destruct (strands_init_loop_below mat rest (i + 1)%Z
                (BPH_mass_spring_set_motion_state id i (mul_m4_v3 mat (state_co s))
                   (mul_mat3_m4_v3 mat (state_vel s))) i ltac:(lia)) as [-> ->].
    cbn. unfold upd. rewrite Z.eqb_refl. auto.
  - replace (i + Z.of_nat (S k))%Z with ((i + 1) + Z.of_nat k)%Z by lia.
    apply IH. exact Hk.
Qed.

(** X18: [BPH_strands_solve] answers [false] at once, leaving strands
    and solver as they are, when the time scale is zero or fewer than
    one substep is asked for.  Otherwise it never answers [false]:
    it returns as soon as the loop variable is no longer below 1, which
    for up to 1024 substeps takes no more than [(n + 1) / 2 + 1]
    passes, and then it answers [true], keeps the rest locations, the
    curves and the number of motion states, and every motion state it
    leaves is the solver's final position and velocity of that vertex
    taken back through the inverse of the world matrix. *)
Theorem X18_strands_solve_outcome (strands : Strands) (mat : mat4)
    (id : Implicit_Data) (params : HairSimParams) (frame frame_prev : Q) (scene : Scene) :
  let n := hair_substeps params in
  let dstep := float_div 1 (float_of_int n) in
  (hair_timescale params == 0 \/ (n < 1)%Z ->
   forall fuel : nat,
     BPH_strands_solve fuel strands mat id params frame frame_prev scene
       = Some (false, strands, id)) /\
  (~ hair_timescale params == 0 ->
   (1 <= n)%Z ->
   (forall (fuel : nat) flag strands' id',
       BPH_strands_solve fuel strands mat id params frame frame_prev scene
         = Some (flag, strands', id') ->
       flag = true /\
       strands_verts strands' = strands_verts strands /\
       strands_curves strands' = strands_curves strands /\
       length (strands_state strands') = length (strands_state strands) /\
       forall (i : nat) s',
         strands_state strands' !! i = Some s' ->
         state_co s'
           = mul_m4_v3 (invert_m4_m4 mat) (BPH_mass_spring_get_position id' (Z.of_nat i)) /\
         state_vel s'
           = mul_mat3_m4_v3 (invert_m4_m4 mat)
               (BPH_mass_spring_get_velocity id' (Z.of_nat i))) /\
   (forall m fuel : nat,
       strands_loop_ends dstep m ->
       (m < fuel)%nat ->
       exists strands' id',
         BPH_strands_solve fuel strands mat id params frame frame_prev scene
           = Some (true, strands', id')) /\
   ((n <= 1024)%Z ->
    forall fuel : nat,
      ((n + 1) / 2 + 1 < Z.of_nat fuel)%Z ->
      exists strands' id',
        BPH_strands_solve fuel strands mat id params frame frame_prev scene
          = Some (true, strands', id'))).
Proof.
  intros n dstep. split.
  - intros Hearly fuel. unfold BPH_strands_solve.
    destruct Hearly as [Hts | Hn].
    + apply Qeq_bool_iff in Hts. rewrite Hts. reflexivity.
    + apply Z.ltb_lt in Hn. fold n. rewrite Hn, orb_true_r. reflexivity.
  - intros Hts Hn.
    assert (Hret : forall m fuel : nat,
               strands_loop_ends dstep m ->
               (m < fuel)%nat ->
               exists strands' id',
                 BPH_strands_solve fuel strands mat id params frame frame_prev scene
                   = Some (true, strands', id')).
    { intros m fuel Hends Hfuel.
      destruct (BPH_strands_solve_passes strands mat id params frame frame_prev scene m fuel
                  Hts Hn Hends Hfuel) as [strands' Hsolve].
      eauto. }
    split; [|split; [exact Hret|]].
    + intros fuel flag strands' id' Hsolve. unfold BPH_strands_solve in Hsolve.
      assert (Hq : Qeq_bool (hair_timescale params) 0 = false).
      { destruct (Qeq_bool (hair_timescale params) 0) eqn:E; [|reflexivity].
        apply Qeq_bool_iff in E. contradiction. }
      assert (Hs : (hair_substeps params <? 1)%Z = false) by (apply Z.ltb_ge; exact Hn).
      rewrite Hq, Hs in Hsolve. cbn [orb] in Hsolve.
      destruct (strands_solve_loop _ _ _ _ _ _ _ _ _ _) as [id3|]; [|discriminate].
      inversion Hsolve; subst flag strands' id'. clear Hsolve.
      cbn [strands_verts strands_curves strands_state].
      split; [reflexivity|]. split; [reflexivity|]. split; [reflexivity|].
      split; [apply length_imap|].
      intros i s' Hi. rewrite list_lookup_imap in Hi.
      destruct (strands_state strands !! i); [|discriminate].
      cbn in Hi. inversion Hi. auto.
    + intros Hmax fuel Hfuel.
      assert (Hhalf : (0 <= (n + 1) / 2)%Z) by (apply Z.div_pos; lia).
      destruct (strands_loop_ends_near n (conj Hn Hmax)) as [Hends | [_ Hends]].
      * apply (Hret _ fuel Hends). lia.
      * apply (Hret _ fuel Hends). lia.
Qed.

(** X19: The first loop of [BPH_strands_solve] hands every motion state to
    the solver in world space: position and velocity of vertex [i]
    become the state's location through the world matrix and its
    velocity through the matrix's 3x3 part. *)
Theorem X19_strands_init_in_world_space (mat : mat4) (state : list StrandsMotionState)
    (id : Implicit_Data) (i : nat) (s : StrandsMotionState) :
  state !! i = Some s ->
  BPH_mass_spring_get_position (strands_init_loop mat 0 state id) (Z.of_nat i)
    = mul_m4_v3 mat (state_co s) /\
  BPH_mass_spring_get_velocity (strands_init_loop mat 0 state id) (Z.of_nat i)
    = mul_mat3_m4_v3 mat (state_vel s).
Proof.
  intros Hi. exact (strands_init_loop_at mat state 0%Z id i s Hi).
Qed.
End StrandExtras.

Section ContinuumProperties.
Context `{ContinuumParams}.
Local Open Scope Q_scope.

Lemma add_hair_segments_loop_spec data cell_scale cell_offset next :
  forall (fuel : nat) spring st nsl grid,
    (S (length next) < fuel)%nat ->
    is_structural spring = true ->
    locals_inv data cell_scale cell_offset st spring ->
    exists segs chain remaining,
      add_hair_segments_loop fuel data cell_scale cell_offset (spring :: next) st nsl grid
        = Some (grid ++ map grid_add_segment segs, remaining) /\
      spring :: next = chain ++ remaining /\
      (length remaining <= length next)%nat /\
      Forall (fun s => is_structural s = true) chain /\
      map segment_ends segs = map (spring_ends data cell_scale cell_offset) chain /\
      Forall segment_well_formed segs.
Proof.
  induction next as [|s3 next' IH]; intros fuel spring st nsl grid Hfuel Hstruct Hinv;
    destruct Hinv as [Hsp3 H3 H4 Hdir3 H2];
    (destruct fuel as [|fuel]; [lia|]); cbn [add_hair_segments_loop].
  - (* the last link of the list *)
    unfold hair_segments_pass. cbn [hair_spring_next].
    destruct fuel as [|fuel]; [cbn in Hfuel; lia|]. cbn [add_hair_segments_loop].
    eexists [_], [spring], []. split; [reflexivity|].
    split; [reflexivity|]. split; [cbn; lia|]. split; [repeat constructor; exact Hstruct|].
    split.
    + cbn [map]. unfold segment_ends, spring_ends. cbn [seg_x2 seg_v2 seg_x3 seg_v3].
      rewrite H3, H4. reflexivity.
    + repeat constructor; cbn; [exact Hdir3|].
      destruct (loc_spring2 st); [exact H2 | exact H2].
  - unfold hair_segments_pass. cbn [hair_spring_next].
    fold (is_structural s3).
    destruct (is_structural s3 && (spring_kl s3 =? spring_ij spring)%Z) eqn:Hnext.
    + (* the chain goes on with [s3] *)
      apply andb_prop in Hnext. destruct Hnext as [Hs3 Hkl]. apply Z.eqb_eq in Hkl.
      destruct (cloth_get_grid_location data cell_scale cell_offset (spring_ij s3))
        as [x4n v4n] eqn:Hloc4.
      cbn [fst].
      match goal with
      | |- context [add_hair_segments_loop fuel data cell_scale cell_offset (s3 :: next')
                      ?st' ?nsl' ?grid'] =>
          destruct (IH fuel s3 st' nsl' grid') as
            (segs & chain & remaining & Hloop & Hsplit & Hlen & Hall & Hends & Hwf)
      end.
      * cbn [length] in Hfuel. lia.
      * exact Hs3.
      * split; cbn [loc_spring2 loc_spring3 loc_x2 loc_v2 loc_x3 loc_v3 loc_x4 loc_v4
                    loc_dir2 loc_dir3].
        -- reflexivity.
        -- rewrite Hkl. exact H4.
        -- symmetry. exact Hloc4.
        -- reflexivity.
        -- rewrite Hsp3. exact Hdir3.
      * rewrite Hloop.
        eexists (_ :: segs), (spring :: chain), remaining.
        split; [cbn [map]; rewrite <- app_assoc; reflexivity|].
        split; [cbn; rewrite Hsplit; reflexivity|].
        split; [cbn; lia|]. split; [constructor; assumption|]. split.
        -- cbn [map]. rewrite Hends. f_equal.
           unfold segment_ends, spring_ends. cbn [seg_x2 seg_v2 seg_x3 seg_v3].
           rewrite H3, H4. reflexivity.
        -- constructor; [|exact Hwf].
           repeat split; cbn; [exact Hdir3|].
           destruct (loc_spring2 st); [exact H2 | exact H2].
    + (* the chain ends here *)
      destruct fuel as [|fuel]; [cbn in Hfuel; lia|]. cbn [add_hair_segments_loop].
      eexists [_], [spring], (s3 :: next'). split; [reflexivity|].
      split; [reflexivity|]. split; [cbn; lia|]. split; [repeat constructor; exact Hstruct|].
      split.
      * cbn [map]. unfold segment_ends, spring_ends. cbn [seg_x2 seg_v2 seg_x3 seg_v3].
        rewrite H3, H4. reflexivity.
      * repeat constructor; cbn; [exact Hdir3|].
        destruct (loc_spring2 st); [exact H2 | exact H2].
Qed.

Lemma fill_grid_loop_spec data cell_scale cell_offset cloth :
  cloth_implicit cloth = Some data ->
  forall (fuel : nat) link grid,
    (length link < fuel)%nat ->
    exists segs,
      fill_grid_loop fuel cell_scale cell_offset cloth link grid
        = Some (grid ++ map grid_add_segment segs) /\
      map segment_ends segs
        = map (spring_ends data cell_scale cell_offset) (List.filter is_structural link) /\
      Forall segment_well_formed segs.
Proof.
  intros Hdata. induction fuel as [|fuel IH]; intros link grid Hfuel; [lia|].
  cbn [fill_grid_loop]. destruct link as [|spring next].
  - exists []. cbn. rewrite app_nil_r. auto.
  - fold (is_structural spring).
    destruct (is_structural spring) eqn:Hstruct.
    + unfold cloth_continuum_add_hair_segments. rewrite Hdata.
      match goal with
      | |- context [add_hair_segments_loop (S fuel) data cell_scale cell_offset
                      (spring :: next) ?st ?nsl grid] =>
          destruct (add_hair_segments_loop_spec data cell_scale cell_offset next
                      (S fuel) spring st nsl grid) as
            (segs & chain & remaining & Hloop & Hsplit & Hlen & Hall & Hends & Hwf)
      end.
      * cbn [length] in Hfuel. lia.
      * exact Hstruct.
      * split; cbn; try rewrite <- surjective_pairing; auto.
      * rewrite Hloop.
        destruct (IH remaining (grid ++ map grid_add_segment segs)) as
          (segs' & Hrest & Hends' & Hwf').
        { cbn [length] in Hfuel. lia. }
        rewrite Hrest. exists (segs ++ segs').
        split; [rewrite map_app, app_assoc; reflexivity|]. split.
        -- rewrite map_app, Hends, Hends', <- map_app. f_equal.
           rewrite Hsplit, List.filter_app. f_equal.
           clear - Hall. induction Hall as [|s l Hs _ IHl]; [reflexivity|].
           cbn [List.filter]. rewrite Hs, <- IHl. reflexivity.
        -- apply Forall_app. auto.
    + destruct (IH next grid) as (segs & Hrest & Hends & Hwf).
      { cbn [length] in Hfuel. lia. }
      exists segs. cbn [List.filter]. rewrite Hstruct. auto.
Qed.

(** X20: [cloth_continuum_fill_grid] hands the grid exactly one segment
    for each structural spring of the cloth, in the order of the
    spring list, running from the grid location of the spring's [kl]
    vertex to that of its [ij] vertex, gives no segment for any other
    spring, and ends with one normalisation of the grid; with more
    fuel than there are springs the loops terminate. *)
Theorem X20_fill_grid_one_segment_per_structural_spring (fuel : nat) (cellsize : Q) (gmin : vec3)
    (cloth : Cloth) (data : Implicit_Data) (grid : list GridCall) :
  cloth_implicit cloth = Some data ->
  (length (cloth_springs cloth) < fuel)%nat ->
  exists segs,
    cloth_continuum_fill_grid fuel cellsize gmin cloth grid
      = Some (grid ++ map grid_add_segment segs ++ [grid_normalize_vertex_grid]) /\
    map segment_ends segs
      = map (spring_ends data (grid_cell_scale cellsize) (grid_cell_offset cellsize gmin))
          (List.filter is_structural (cloth_springs cloth)).
Proof.
  intros Hdata Hfuel. unfold cloth_continuum_fill_grid.
  destruct (fill_grid_loop_spec data (grid_cell_scale cellsize) (grid_cell_offset cellsize gmin)
              cloth Hdata fuel (cloth_springs cloth) grid Hfuel) as (segs & -> & Hends & _).
  exists segs. split; [rewrite <- app_assoc; reflexivity | exact Hends].
Qed.

(** X21: Every segment [cloth_continuum_fill_grid] hands to an empty grid
    is consistent: its middle direction is the normalised step from
    its second to its third point; its first and last directions,
    when given, are the normalised steps between the outer point and
    its neighbour; and where a direction is NULL (first or last
    segment of a strand) the outer point and its velocity are zero. *)
Theorem X21_fill_grid_segments_well_formed (fuel : nat) (cellsize : Q) (gmin : vec3)
    (cloth : Cloth) (grid' : list GridCall) (seg : HairSegment) :
  cloth_continuum_fill_grid fuel cellsize gmin cloth [] = Some grid' ->
  (length (cloth_springs cloth) < fuel)%nat ->
  In (grid_add_segment seg) grid' ->
  segment_well_formed seg.
Proof.
  intros Hfill Hfuel Hin. unfold cloth_continuum_fill_grid in Hfill.
  destruct (cloth_implicit cloth) as [data|] eqn:Hdata.
  - destruct (fill_grid_loop_spec data (grid_cell_scale cellsize)
                (grid_cell_offset cellsize gmin) cloth Hdata fuel (cloth_springs cloth) []
                Hfuel) as (segs & Hloop & _ & Hwf).
    rewrite Hloop in Hfill. inversion Hfill; subst grid'. clear Hfill.
    cbn [app] in Hin. apply in_app_or in Hin. destruct Hin as [Hin | [Hin | []]];
      [|discriminate].
    apply in_map_iff in Hin. destruct Hin as (seg' & Heq & Hin').
    inversion Heq; subst seg'.
    rewrite Forall_forall in Hwf. apply Hwf. apply list_elem_of_In. exact Hin'.
  - (* without a solver the loop can only pass over other springs *)
    exfalso. revert Hfill Hin. generalize (cloth_springs cloth) at 1 as link.
    clear Hfuel. induction fuel as [|fuel IH]; intros link Hfill Hin; [discriminate|].
    cbn [fill_grid_loop] in Hfill. destruct link as [|spring next].
    + inversion Hfill; subst grid'. destruct Hin as [Hin | []]. discriminate.
    + destruct (spring_type spring =? CLOTH_SPRING_TYPE_STRUCTURAL)%Z.
      * unfold cloth_continuum_add_hair_segments in Hfill. rewrite Hdata in Hfill.
        discriminate.
      * exact (IH next Hfill Hin).
Qed.

(** X22: The grid location of a vertex: for a positive cell size it is the
    solver position relative to the grid's lower corner, in units of
    cells, so the corner itself becomes the origin; for a cell size
    that is not positive the scale is zero and every vertex is put at
    the origin.  The velocity returned is the solver's new velocity,
    unscaled. *)
Theorem X22_grid_location_in_cells (data : Implicit_Data) (cellsize : Q) (gmin : vec3) (index : Z) :
  let xv := cloth_get_grid_location data (grid_cell_scale cellsize)
              (grid_cell_offset cellsize gmin) index in
  snd xv = BPH_mass_spring_get_new_velocity data index /\
  (if Qltb 0 cellsize
   then veq (fst xv)
            (mul_v3_v3fl (sub_v3_v3v3 (BPH_mass_spring_get_position data index) gmin)
               (1 / cellsize))
   else veq (fst xv) ZERO) /\
  (BPH_mass_spring_get_position data index = gmin -> veq (fst xv) ZERO).
Proof.
  cbv zeta. unfold cloth_get_grid_location, grid_cell_offset, grid_cell_scale.
  cbn [fst snd]. split; [reflexivity|].
  unfold veq, add_v3_v3, negate_v3, mul_v3_v3fl, sub_v3_v3v3, ZERO. cbn [vx vy vz].
  split.
  - destruct (Qltb 0 cellsize); repeat split; ring.
  - intros ->. repeat split; ring.
Qed.
End ContinuumProperties.

Lemma strands_mass_loop_spec count : forall i id,
  id_numverts (strands_mass_loop count i id) = id_numverts id /\
  id_nondiag (strands_mass_loop count i id) = id_nondiag id /\
  id_tfm (strands_mass_loop count i id) = id_tfm id /\
  id_constraints (strands_mass_loop count i id) = id_constraints id /\
  forall j,
    id_M (strands_mass_loop count i id) j =
      if (i <=? j) && (j <? i + Z.of_nat count) then 1%Q else id_M id j.
Proof.
  induction count as [|count IH]; intros i id; cbn [strands_mass_loop].
  - repeat split; auto. intros j.
    destruct (i <=? j) eqn:E1; destruct (j <? i + Z.of_nat 0) eqn:E2; try reflexivity.
    apply Z.leb_le in E1. apply Z.ltb_lt in E2. lia.
  - destruct (IH (i + 1) (BPH_mass_spring_set_vertex_mass id i 1)) as (-> & -> & -> & -> & HM).
    repeat split; auto. intros j. rewrite HM. cbn. unfold upd.
    destruct (i + 1 <=? j) eqn:E1; destruct (j <? i + 1 + Z.of_nat count) eqn:E2;
      destruct (i <=? j) eqn:E3; destruct (j <? i + Z.of_nat (S count)) eqn:E4;
      destruct (j =? i) eqn:E5; cbn; try reflexivity;
      repeat match goal with
             | E : (_ <=? _) = true |- _ => apply Z.leb_le in E
             | E : (_ <=? _) = false |- _ => apply Z.leb_gt in E
             | E : (_ <? _) = true |- _ => apply Z.ltb_lt in E
             | E : (_ <? _) = false |- _ => apply Z.ltb_ge in E
             | E : (_ =? _) = true |- _ => apply Z.eqb_eq in E
             | E : (_ =? _) = false |- _ => apply Z.eqb_neq in E
             end; lia.
Qed.

Lemma strands_rest_transform_loop_spec count : forall i id,
  id_numverts (strands_rest_transform_loop count i id) = id_numverts id /\
  id_nondiag (strands_rest_transform_loop count i id) = id_nondiag id /\
  id_M (strands_rest_transform_loop count i id) = id_M id /\
  id_constraints (strands_rest_transform_loop count i id) = id_constraints id /\
  forall j,
    id_tfm (strands_rest_transform_loop count i id) j =
      if (i <=? j) && (j <? i + Z.of_nat count) then I3 else id_tfm id j.
Proof.
  induction count as [|count IH]; intros i id; cbn [strands_rest_transform_loop].
  - repeat split; auto. intros j.
    destruct (i <=? j) eqn:E1; destruct (j <? i + Z.of_nat 0) eqn:E2; try reflexivity.
    apply Z.leb_le in E1. apply Z.ltb_lt in E2. lia.
  - destruct (IH (i + 1) (BPH_mass_spring_set_rest_transform id i I3))
      as (-> & -> & -> & -> & HT).
    repeat split; auto. intros j. rewrite HT. cbn. unfold upd.
    destruct (i + 1 <=? j) eqn:E1; destruct (j <? i + 1 + Z.of_nat count) eqn:E2;
      destruct (i <=? j) eqn:E3; destruct (j <? i + Z.of_nat (S count)) eqn:E4;
      destruct (j =? i) eqn:E5; cbn; try reflexivity;
      repeat match goal with
             | E : (_ <=? _) = true |- _ => apply Z.leb_le in E
             | E : (_ <=? _) = false |- _ => apply Z.leb_gt in E
             | E : (_ <? _) = true |- _ => apply Z.ltb_lt in E
             | E : (_ <? _) = false |- _ => apply Z.ltb_ge in E
             | E : (_ =? _) = true |- _ => apply Z.eqb_eq in E
             | E : (_ =? _) = false |- _ => apply Z.eqb_neq in E
             end; lia.
Qed.

(** X23: The solver made by [BPH_strands_solver_create] is created for the
    number of motion states of the strands, holds no constraint, and
    gives every vertex the mass 1 and the identity as rest transform;
    under indices outside the vertices nothing is written. *)
Theorem X23_strands_solver_create_state (strands : Strands) :
  let id := BPH_strands_solver_create strands in
  let numverts := Z.of_nat (length (strands_state strands)) in
  BPH_mass_spring_solver_numvert id = numverts /\
  id_constraints id = [] /\
  (forall j, 0 <= j < numverts -> id_M id j = 1%Q /\ id_tfm id j = I3) /\
  (forall j, j < 0 \/ numverts <= j ->
     id_M id j = id_M (BPH_mass_spring_solver_create numverts 0) j /\
     id_tfm id j = id_tfm (BPH_mass_spring_solver_create numverts 0) j).
Proof.
  cbv zeta. unfold BPH_strands_solver_create, BPH_mass_spring_solver_numvert.
  set (nv := Z.of_nat (length (strands_state strands))).
  set (id0 := BPH_mass_spring_solver_create nv _).
  destruct (strands_rest_transform_loop_spec (Z.to_nat nv) 0
              (strands_mass_loop (Z.to_nat nv) 0 id0)) as (Hn & _ & HM & HC & HT).
  destruct (strands_mass_loop_spec (Z.to_nat nv) 0 id0) as (Hn' & _ & HT' & HC' & HM').
  rewrite Hn, Hn', HC, HC', HM. split; [reflexivity|]. split; [reflexivity|].
  assert (Hnv : Z.of_nat (Z.to_nat nv) = nv) by (unfold nv; lia).
  split.
  - intros j Hj. rewrite HM', HT, Hnv.
    destruct (0 <=? j) eqn:E1; [|apply Z.leb_gt in E1; lia].
    destruct (j <? 0 + nv) eqn:E2; [|apply Z.ltb_ge in E2; lia].
    auto.
  - intros j Hj. rewrite HM', HT, HT', Hnv.
    destruct (0 <=? j) eqn:E1; destruct (j <? 0 + nv) eqn:E2; cbn [andb]; auto.
    apply Z.leb_le in E1. apply Z.ltb_lt in E2. lia.
Qed.

(** X24: The capacity [BPH_strands_solver_create] asks for, while the
    arithmetic fits a C [int]: with [v] vertices and [c] curves it is
    [5 v - 8 c] when [v >= 2 c], [2 (v - c)] when [c <= v < 2 c], and
    the negative number [v - c] when there are more curves than
    vertices, the goal-spring term being the only one that is not
    clamped at zero. *)
Theorem X24_strands_solver_create_capacity (strands : Strands) :
  let v := Z.of_nat (length (strands_state strands)) in
  let c := Z.of_nat (length (strands_curves strands)) in
  5 * v <= INT_MAX ->
  2 * c <= INT_MAX ->
  id_nondiag (BPH_strands_solver_create strands) =
    (if 2 * c <=? v then 5 * v - 8 * c
     else if c <=? v then 2 * (v - c)
     else v - c).
Proof.
  cbv zeta. intros Hv Hc. unfold BPH_strands_solver_create.
  set (v := Z.of_nat (length (strands_state strands))) in *.
  set (c := Z.of_nat (length (strands_curves strands))) in *.
  assert (Hv0 : 0 <= v) by (unfold v; lia).
  assert (Hc0 : 0 <= c) by (unfold c; lia).
  destruct (strands_rest_transform_loop_spec (Z.to_nat v) 0
              (strands_mass_loop (Z.to_nat v) 0
                 (BPH_mass_spring_solver_create v (strands_numsprings v c))))
    as (_ & -> & _).
  destruct (strands_mass_loop_spec (Z.to_nat v) 0
              (BPH_mass_spring_solver_create v (strands_numsprings v c))) as (_ & -> & _).
  cbn [id_nondiag BPH_mass_spring_solver_create]. unfold strands_numsprings.
  unfold INT_MAX in *.
  rewrite (wrap_int_id (2 * c)) by (unfold INT_MIN, INT_MAX; lia).
  rewrite (wrap_int_id (v - c)) by (unfold INT_MIN, INT_MAX; lia).
  rewrite (wrap_int_id (v - 2 * c)) by (unfold INT_MIN, INT_MAX; lia).
  destruct (max_ii_cases (v - c) 0) as [[-> He] | [-> He]];
    destruct (max_ii_cases (v - 2 * c) 0) as [[-> Hb] | [-> Hb]];
    rewrite ?(wrap_int_id (3 * (v - 2 * c))) by (unfold INT_MIN, INT_MAX; lia);
    rewrite ?(wrap_int_id (3 * 0)) by (unfold INT_MIN, INT_MAX; lia);
    rewrite ?(wrap_int_id (v - c + (v - c))) by (unfold INT_MIN, INT_MAX; lia);
    rewrite ?(wrap_int_id (v - c + 0)) by (unfold INT_MIN, INT_MAX; lia);
    rewrite wrap_int_id by (unfold INT_MIN, INT_MAX; lia);
    destruct (2 * c <=? v) eqn:E1; destruct (c <=? v) eqn:E2;
    repeat match goal with
           | E : (_ <=? _) = true |- _ => apply Z.leb_le in E
           | E : (_ <=? _) = false |- _ => apply Z.leb_gt in E
           end; lia.
Qed.

Section GoalStiffnessProperties.
Context `{StrandConstants}.
Local Open Scope Q_scope.

(** X25: Whatever the painted weight or the stiffness curve gives, the
    stiffness returned by [strands_goal_stiffness] for a goal
    stiffness that is not negative lies between 0 and that goal
    stiffness; with the curve flag off and a weight already in
    [0, 1] it is the goal stiffness times the weight, and a weight
    above 1 counts as 1. *)
Theorem X25_goal_stiffness_bounded (params : HairGoalParams) (vert_weight t : Q) :
  0 <= hair_goal_stiffness params ->
  0 <= strands_goal_stiffness params vert_weight t <= hair_goal_stiffness params /\
  (has_flag (hair_flag params) eHairSimParams_Flag_UseGoalStiffnessCurve = false ->
   (0 <= vert_weight <= 1 ->
    strands_goal_stiffness params vert_weight t = hair_goal_stiffness params * vert_weight) /\
   (1 < vert_weight ->
    strands_goal_stiffness params vert_weight t = hair_goal_stiffness params * 1) /\
   (vert_weight < 0 ->
    strands_goal_stiffness params vert_weight t = hair_goal_stiffness params * 0)).
Proof.
  intros Hk. unfold strands_goal_stiffness. cbv zeta. split.
  - match goal with
    | |- context [CLAMP ?w 0 1] =>
        pose proof (CLAMP_bounds w 1 ltac:(lra)) as Hc; set (cw := CLAMP w 0 1) in *
    end.
    nra.
  - intros ->. unfold CLAMP. repeat split.
    + intros [Hlo Hhi].
      case_Qltb vert_weight 0; [lra|]. case_Qltb 1 vert_weight; [lra|]. reflexivity.
    + intros Hgt.
      case_Qltb vert_weight 0; [lra|]. case_Qltb 1 vert_weight; [reflexivity | lra].
    + intros Hlt. case_Qltb vert_weight 0; [reflexivity | lra].
Qed.
End GoalStiffnessProperties.

Section ChainProperties.
Context `{ContinuumParams}.

Lemma grid_segments_app g1 g2 :
  grid_segments (g1 ++ g2) = grid_segments g1 ++ grid_segments g2.
Proof.
  induction g1 as [|c g1 IH]; [reflexivity|].
  destruct c; cbn; rewrite IH; reflexivity.
Qed.

Lemma grid_segments_map segs : grid_segments (map grid_add_segment segs) = segs.
Proof. induction segs as [|seg segs IH]; [reflexivity|]. cbn. rewrite IH. reflexivity. Qed.

Lemma chain_rest_length spring next : (length (chain_rest spring next) <= length next)%nat.
Proof.
  revert spring. induction next as [|n rest IH]; intros spring; cbn; [lia|].
  destruct (is_structural n && _); [specialize (IH n); lia | cbn; lia].
Qed.

Lemma add_hair_segments_loop_links data cell_scale cell_offset next :
  forall (fuel : nat) spring st nsl grid,
    (S (length next) < fuel)%nat ->
    (exists s3, loc_spring3 st = Some s3) ->
    exists segs,
      add_hair_segments_loop fuel data cell_scale cell_offset (spring :: next) st nsl grid
        = Some (grid ++ map grid_add_segment segs, chain_rest spring next) /\
      map segment_flags segs
        = chain_flags (match loc_spring2 st with Some _ => true | None => false end)
            spring next.
Proof.
  induction next as [|n rest IH]; intros fuel spring st nsl grid Hfuel [s3 Hs3];
    (destruct fuel as [|fuel]; [lia|]); cbn [add_hair_segments_loop].
  - unfold hair_segments_pass. cbn [hair_spring_next].
    destruct fuel as [|fuel]; [cbn in Hfuel; lia|]. cbn [add_hair_segments_loop].
    eexists [_]. split; [reflexivity|].
    cbn. unfold segment_flags. cbn. destruct (loc_spring2 st); reflexivity.
  - unfold hair_segments_pass. cbn [hair_spring_next chain_rest chain_flags].
    fold (is_structural n).
    destruct (is_structural n && (spring_kl n =? spring_ij spring)%Z).
    + destruct (cloth_get_grid_location data cell_scale cell_offset (spring_ij n))
        as [x4n v4n].
      cbn [fst].
      match goal with
      | |- context [add_hair_segments_loop fuel data cell_scale cell_offset (n :: rest)
                      ?st' ?nsl' ?grid'] =>
          destruct (IH fuel n st' nsl' grid') as (segs & Hloop & Hflags)
      end.
      * cbn [length] in Hfuel. lia.
      * cbn. eauto.
      * rewrite Hloop. cbn [loc_spring2] in Hflags. rewrite Hs3 in Hflags.
        eexists (_ :: segs). split; [cbn [map]; rewrite <- app_assoc; reflexivity|].
        cbn [map]. rewrite Hflags. unfold segment_flags. cbn.
        destruct (loc_spring2 st); reflexivity.
    + destruct fuel as [|fuel]; [cbn in Hfuel; lia|]. cbn [add_hair_segments_loop].
      eexists [_]. split; [reflexivity|].
      cbn. unfold segment_flags. cbn. destruct (loc_spring2 st); reflexivity.
Qed.

Lemma chain_flags_links next : forall spring (b : bool),
  is_structural spring = true ->
  chain_flags b spring next
    ++ segment_links (Some (chain_last spring next)) (chain_rest spring next)
  = (b, followed spring next) :: segment_links (Some spring) next.
Proof.
  induction next as [|n rest IH]; intros spring b Hs; [reflexivity|].
  cbn [chain_flags chain_last chain_rest followed].
  destruct (is_structural n && (spring_kl n =? spring_ij spring)%Z) eqn:Hc.
  - apply andb_prop in Hc. destruct Hc as [Hn Hkl].
    cbn [app]. rewrite (IH n true Hn). cbn [segment_links follows].
    rewrite Hn, Hs, Hkl. reflexivity.
  - reflexivity.
Qed.

(** After a strand the next spring, if structural, does not follow
    the strand's last spring. *)
Lemma chain_rest_breaks next : forall spring,
  match chain_rest spring next with
  | s :: _ => is_structural s = true -> follows (Some (chain_last spring next)) s = false
  | [] => True
  end.
Proof.
  induction next as [|n rest IH]; intros spring; [exact I|].
  cbn [chain_rest chain_last].
  destruct (is_structural n && (spring_kl n =? spring_ij spring)%Z) eqn:Hc.
  - apply IH.
  - intros Hn. cbn [follows]. rewrite Hn in Hc. cbn [andb] in Hc. rewrite Hc.
    apply andb_false_r.
Qed.

Lemma fill_grid_loop_links data cell_scale cell_offset cloth :
  cloth_implicit cloth = Some data ->
  forall (fuel : nat) link grid prev,
    (length link < fuel)%nat ->
    match link with
    | s :: _ => is_structural s = true -> follows prev s = false
    | [] => True
    end ->
    exists segs,
      fill_grid_loop fuel cell_scale cell_offset cloth link grid
        = Some (grid ++ map grid_add_segment segs) /\
      map segment_flags segs = segment_links prev link.
Proof.
  intros Hdata. induction fuel as [|fuel IH]; intros link grid prev Hfuel Hprev; [lia|].
  cbn [fill_grid_loop]. destruct link as [|spring next].
  - exists []. cbn. rewrite app_nil_r. auto.
  - fold (is_structural spring). cbn [segment_links].
    destruct (is_structural spring) eqn:Hstruct.
    + unfold cloth_continuum_add_hair_segments. rewrite Hdata.
      match goal with
      | |- context [add_hair_segments_loop (S fuel) data cell_scale cell_offset
                      (spring :: next) ?st ?nsl grid] =>
          destruct (add_hair_segments_loop_links data cell_scale cell_offset next
                      (S fuel) spring st nsl grid) as (segs & Hloop & Hflags)
      end.
      * cbn [length] in Hfuel. lia.
      * cbn. eauto.
      * rewrite Hloop. cbn [loc_spring2] in Hflags.
        destruct (IH (chain_rest spring next) (grid ++ map grid_add_segment segs)
                    (Some (chain_last spring next))) as (segs' & Hrest & Hflags').
        { pose proof (chain_rest_length spring next). cbn [length] in Hfuel. lia. }
        { apply chain_rest_breaks. }
        rewrite Hrest. exists (segs ++ segs').
        split; [rewrite map_app, app_assoc; reflexivity|].
        rewrite map_app, Hflags, Hflags', (chain_flags_links next spring false Hstruct).
        rewrite (Hprev eq_refl). reflexivity.
    + destruct (IH next grid (Some spring)) as (segs & Hrest & Hflags).
      { cbn [length] in Hfuel. lia. }
      { destruct next as [|n rest]; [exact I|]. intros _. cbn [follows].
        rewrite Hstruct. reflexivity. }
      exists segs. auto.
Qed.

(** X26: Strands are recovered from the order of the spring list alone:
    among the segments [cloth_continuum_fill_grid] hands to the grid,
    the segment of a structural spring is given a first direction
    exactly when the spring stored just before it is structural and
    its [ij] vertex is this spring's [kl] vertex, and a last
    direction exactly when the spring stored just after it is
    structural and starts at this spring's [ij] vertex. *)
Theorem X26_fill_grid_links_follow_list_order (fuel : nat) (cellsize : Q) (gmin : vec3)
    (cloth : Cloth) (data : Implicit_Data) (grid' : list GridCall) :
  cloth_implicit cloth = Some data ->
  (length (cloth_springs cloth) < fuel)%nat ->
  cloth_continuum_fill_grid fuel cellsize gmin cloth [] = Some grid' ->
  map segment_flags (grid_segments grid') = segment_links None (cloth_springs cloth).
Proof.
  intros Hdata Hfuel Hfill. unfold cloth_continuum_fill_grid in Hfill.
  destruct (fill_grid_loop_links data (grid_cell_scale cellsize)
              (grid_cell_offset cellsize gmin) cloth Hdata fuel (cloth_springs cloth) [] None
              Hfuel) as (segs & Hloop & Hflags).
  { destruct (cloth_springs cloth); [exact I | reflexivity]. }
  rewrite Hloop in Hfill. inversion Hfill; subst grid'. clear Hfill.
  cbn [app]. rewrite grid_segments_app, grid_segments_map. cbn [grid_segments].
  rewrite app_nil_r. exact Hflags.
Qed.
End ChainProperties.

Section FrameReturnProperties.
Context `{Constants} `{ContactSearch}.
Local Open Scope Q_scope.

(** X27: With a time scale between [2^-100] and [2^100], between 1
    and 1024 substeps and a contact search that reports only vertices
    of the cloth, [BPH_cloth_solve] returns (fuel for two passes more
    than substeps suffices: the float sum of the steps reaches the
    time scale after [stepsPerFrame] additions or one more) whenever
    the cloth has a solver; without a solver it dereferences a NULL
    pointer. *)
Theorem X27_cloth_solve_returns (clmd : ClothModifierData) (frame : Q) (fuel : nat) :
  pow2 (-100) <= sim_timescale (clmd_sim_parms clmd) <= pow2 100 ->
  (1 <= sim_stepsPerFrame (clmd_sim_parms clmd) <= 1024)%Z ->
  contact_search_in_range ->
  (sim_stepsPerFrame (clmd_sim_parms clmd) + 1 < Z.of_nat fuel)%Z ->
  match cloth_implicit (clmd_clothObject clmd) with
  | Some _ => exists clmd', BPH_cloth_solve fuel frame clmd = Some clmd'
  | None => BPH_cloth_solve fuel frame clmd = None
  end.
Proof.
  intros [Htf _] Hn Hsearch Hfuel.
  destruct (cloth_implicit (clmd_clothObject clmd)) as [id|] eqn:Himpl.
  - pose proof (cloth_loop_ends_near _ _ Htf Hn) as Hnear. cbv zeta in Hnear.
    destruct Hnear as [Hends | Hends].
    + apply (BPH_cloth_solve_total fuel frame clmd id _ Hsearch Himpl Hends). lia.
    + apply (BPH_cloth_solve_total fuel frame clmd id _ Hsearch Himpl Hends). lia.
  - unfold BPH_cloth_solve. rewrite Himpl. reflexivity.
Qed.

(** X28: Positions handed to the solver come back: after
    [BPH_cloth_solver_set_positions], a frame solved with the goal
    flag off and a time scale that is not positive gives every vertex
    the position [x] and velocity [v] it had, with [txold] set to
    [x], and makes no change to any other vertex field. *)
Theorem X28_set_positions_then_still_frame (hairdata : option (list ClothHairData))
    (cloth cloth1 : Cloth) (evs : list AllocEvent) (clmd : ClothModifierData)
    (frame : Q) (fuel : nat) :
  BPH_cloth_solver_set_positions hairdata cloth = Some (cloth1, evs) ->
  clmd_clothObject clmd = cloth1 ->
  has_flag (sim_flags (clmd_sim_parms clmd)) CLOTH_SIMSETTINGS_FLAG_GOAL = false ->
  sim_timescale (clmd_sim_parms clmd) <= 0 ->
  exists clmd',
    BPH_cloth_solve (S fuel) frame clmd = Some clmd' /\
    cloth_verts (clmd_clothObject clmd')
      = map (fun vert => set_vert_txold vert (vert_x vert)) (cloth_verts cloth).
Proof.
  intros Hset Hcloth Hgoal Htf.
  unfold BPH_cloth_solver_set_positions in Hset.
  destruct (cloth_solver_init_data cloth) as [[cloth0 id0] evs0] eqn:Hinit.
  destruct (init_data_post _ _ _ _ Hinit) as [-> _].
  cbn [set_implicit cloth_verts] in Hset.
  destruct (set_positions_loop hairdata 0 (cloth_verts cloth) id0) as [id'|] eqn:Hloop;
    [|discriminate].
  inversion Hset as [[Hc He]]. clear Hset. rewrite <- Hc in Hcloth.
  unfold BPH_cloth_solve. rewrite Hcloth, Hgoal.
  cbn [cloth_implicit set_implicit cloth_verts cloth_solve_loop].
  case_Qltb 0 (sim_timescale (clmd_sim_parms clmd)); [lra|].
  eexists. split; [reflexivity|].
  cbn [clmd_clothObject cloth_of set_implicit set_verts cloth_verts st_verts st_id].
  apply list_eq. intros i. rewrite list_lookup_imap, list_lookup_fmap.
  change (@fmap list _ _ _) with (@map ClothVertex ClothVertex).
  destruct (cloth_verts cloth !! i) as [vert|] eqn:Hi; [|reflexivity].
  cbn [option_map fmap option_fmap option_map].
  destruct (set_positions_loop_stores hairdata (cloth_verts cloth) 0%nat id0 id' i vert
              Hloop Hi) as (HX & HV & _).
  cbn [Nat.add] in HX, HV.
  unfold BPH_mass_spring_get_position, BPH_mass_spring_get_velocity.
  cbn. rewrite HX, HV. destruct vert; reflexivity.
Qed.

(** At [2^25] steps per frame and time scale 1 the step is [2^-25],
    the loop variable climbs to 1/2 in [2^24] exact additions, and
    there the float sum [1/2 + 2^-25] is 1/2 again. *)
Lemma stalled_step_next (tf : Q) (k : Z) :
  tf == 1 ->
  (0 <= k <= 2 ^ 24)%Z ->
  let dt := float_div tf (float_of_int (2 ^ 25)) in
  float_add (Qred (k # 2 ^ 25)) dt = Qred (Z.min (k + 1) (2 ^ 24) # 2 ^ 25).
Proof.
  intros Htf Hk dt.
  assert (Hdt : dt = Qred (1 # 2 ^ 25)).
  { unfold dt, float_div. rewrite (float32_round_comp _ (1 / float_of_int (2 ^ 25)))
      by (rewrite Htf; reflexivity).
    vm_compute. reflexivity. }
  rewrite Hdt.
  assert (Hcase : (k + 1 < 2 ^ 24 \/ k + 1 = 2 ^ 24 \/ k = 2 ^ 24)%Z) by lia.
  destruct Hcase as [Hlt | [Heq | Heq]].
  - rewrite Z.min_l by lia. unfold float_add.
    assert (Hq : Qred (k # 2 ^ 25) + Qred (1 # 2 ^ 25)
                 == inject_Z (k + 1) * pow2 (- 25)).
    { rewrite !Qred_correct. change (pow2 (- 25)) with (1 # 2 ^ 25).
      rewrite inject_Z_plus. rewrite (Qmake_Qdiv k), (Qmake_Qdiv 1).
      change (inject_Z 1) with 1. field. discriminate. }
    rewrite (float32_round_exact_eq _ (k + 1)%Z 25 ltac:(lia) ltac:(lia) Hq).
    apply Qred_complete. rewrite Hq.
    change (pow2 (- 25)) with (1 # 2 ^ 25). rewrite (Qmake_Qdiv (k + 1)).
    rewrite (Qmake_Qdiv 1). change (inject_Z 1) with 1. field. discriminate.
  - rewrite Z.min_r by lia. unfold float_add.
    assert (Hq : Qred (k # 2 ^ 25) + Qred (1 # 2 ^ 25) == inject_Z 1 * pow2 (- 1)).
    { rewrite !Qred_correct. replace k with (2 ^ 24 - 1)%Z by lia. reflexivity. }
    rewrite (float32_round_exact_eq _ 1%Z 1 ltac:(lia) ltac:(lia) Hq).
    apply Qred_complete. rewrite Hq. reflexivity.
  - subst k. vm_compute. reflexivity.
Qed.

Lemma stalled_step_below (tf : Q) (k : Z) :
  tf == 1 -> (0 <= k <= 2 ^ 24)%Z -> Qred (k # 2 ^ 25) < tf.
Proof.
  intros Htf Hk. rewrite Htf, Qred_correct. unfold Qlt. cbn [Qnum Qden]. lia.
Qed.

(** X29: The float loop variable of [BPH_cloth_solve] does not always
    make [stepsPerFrame] passes.  With time scale 1 and 12 steps per
    frame the float sum of 12 steps is still below 1 and a thirteenth
    pass is made.  With time scale 1 and [2^25] steps per frame the
    sum stops growing at 1/2, so the function never returns: no
    amount of fuel gives a result, and when the contact search
    reports only vertices of the cloth every number of passes is
    reached with the loop variable still below the time scale. *)
Theorem X29_cloth_solve_float_passes (clmd : ClothModifierData) (frame : Q) :
  let parms := clmd_sim_parms clmd in
  let tf := sim_timescale parms in
  let dt := float_div tf (float_of_int (sim_stepsPerFrame parms)) in
  (tf == 1 -> sim_stepsPerFrame parms = 12%Z -> cloth_loop_ends tf dt 13) /\
  (tf == 1 -> sim_stepsPerFrame parms = (2 ^ 25)%Z ->
   (forall fuel : nat, BPH_cloth_solve fuel frame clmd = None) /\
   (contact_search_in_range ->
    forall st0 (k : nat),
      exists step st, loop_pass clmd frame tf dt st0 k step st /\ step < tf)).
Proof.
  intros parms tf dt. split.
  - intros Htf Hn. unfold dt. rewrite Hn.
    assert (Hdt : float_div tf (float_of_int 12) = float_div 1 (float_of_int 12)).
    { unfold float_div. apply float32_round_comp. rewrite Htf. reflexivity. }
    rewrite Hdt. split.
    + intros j Hj. rewrite Htf.
      do 13 (destruct j as [|j]; [vm_compute; reflexivity|]). lia.
    + rewrite Htf. vm_compute. discriminate.
  - intros Htf Hn.
    assert (Hloop : forall (fuel : nat) (k : Z) st,
               (0 <= k <= 2 ^ 24)%Z ->
               cloth_solve_loop fuel clmd frame tf dt (Qred (k # 2 ^ 25)) st = None).
    { induction fuel as [|fuel IH]; intros k st Hk; [reflexivity|].
      cbn [cloth_solve_loop].
      pose proof (stalled_step_below tf k Htf Hk) as Hlt.
      apply Qltb_true in Hlt. rewrite Hlt.
      destruct (cloth_solve_substep clmd frame tf dt (Qred (k # 2 ^ 25)) st) as [st'|];
        [|reflexivity].
      unfold dt at 2. rewrite Hn. rewrite (stalled_step_next tf k Htf Hk).
      apply IH. lia. }
    split.
    + intros fuel. unfold BPH_cloth_solve.
      destruct (cloth_implicit (clmd_clothObject clmd)) as [id|]; [|reflexivity].
      fold parms tf dt.
      change 0 with (Qred (0 # 2 ^ 25)). rewrite Hloop by lia. reflexivity.
    + intros Hsearch st0 k.
      assert (Hpass : exists (j : Z) st,
                 (0 <= j <= 2 ^ 24)%Z /\
                 loop_pass clmd frame tf dt st0 k (Qred (j # 2 ^ 25)) st).
      { induction k as [|k (j & st & Hj & Hpass)].
        - exists 0%Z, st0. split; [lia|]. change (Qred (0 # 2 ^ 25)) with 0. constructor.
        - destruct (cloth_solve_substep_total clmd frame tf dt (Qred (j # 2 ^ 25)) st
                      Hsearch) as [st' Hsub].
          exists (Z.min (j + 1) (2 ^ 24)), st'. split; [lia|].
          rewrite <- (stalled_step_next tf j Htf Hj). rewrite <- Hn. fold parms tf dt.
          econstructor; [exact Hpass | apply stalled_step_below; assumption | exact Hsub]. }
      destruct Hpass as (j & st & Hj & Hpass).
      exists (Qred (j # 2 ^ 25)), st. split; [exact Hpass|].
      apply stalled_step_below; assumption.
Qed.
End FrameReturnProperties.

(** * The code on the sample inputs *)

#[local] Existing Instance blender_constants.
#[local] Existing Instance sample_collaborators.
#[local] Existing Instance sample_search.
#[local] Existing Instance sample_strand_collaborators.

(** Four springs, two of them angular: 3 + 1 + 1 + 3 blocks. *)
Lemma C1_nondiag_capacity_witness :
  3 * Z.of_nat (length (cloth_springs sample_cloth_new)) <= INT_MAX /\
  cloth_count_nondiag_blocks sample_cloth_new = 8.
Proof.
  assert (Hmax : 3 * Z.of_nat (length (cloth_springs sample_cloth_new)) <= INT_MAX)
    by (unfold INT_MAX; cbn; lia).
  split; [exact Hmax|].
  rewrite (proj1 (C1_nondiag_capacity sample_cloth_new Hmax)). reflexivity.
Defined.

(** The set-up evaluated on [one_contact]: impulse counts and
    constraints afterwards. *)
Lemma one_contact_setup :
  option_map
    (fun cloth' => (map vert_impulse_count (cloth_verts cloth'),
                    option_map id_constraints (cloth_implicit cloth')))
    (cloth_setup_constraints sample_cloth one_contact (1 # 4))
  = Some ([0; 0; 1],
          Some [ndof0 0 ZERO; ndof2 0 (mk_vec3 0 0 1) (mk_vec3 0 0 1)]).
Proof. vm_compute. reflexivity. Qed.

(** C2 (the code departs from it): a single collider, number 0, with
    one accepted contact on vertex 2.  The impulse count of vertex 2
    goes to 1, but the two-degrees-of-freedom constraint is added
    under index 0, the collider's number, next to the pin constraint
    of vertex 0, and no constraint is added for vertex 2. *)
Theorem C2_constraint_added_for_collider_number :
  map cp_face1 (flat_map ct_collisions one_contact) = [2] /\
  option_map
    (fun cloth' => (map vert_impulse_count (cloth_verts cloth'),
                    option_map id_constraints (cloth_implicit cloth')))
    (cloth_setup_constraints sample_cloth one_contact (1 # 4))
  = Some ([0; 0; 1],
          Some [ndof0 0 ZERO; ndof2 0 (mk_vec3 0 0 1) (mk_vec3 0 0 1)]).
Proof. split; vm_compute; reflexivity. Qed.

(** C3 (the code departs from it): a single collider, number 0,
    with one contact on each of the free vertices 1 and 2.  Both
    contacts are accepted and the impulse counts of vertices 1 and 2
    go to 1, but both two-degrees-of-freedom constraints are added
    under index 0, the collider's number: the pinned vertex 0 gets
    two collision impulses next to its pin constraint, and vertices 1
    and 2 get none. *)
Theorem C3_two_impulses_under_one_index :
  map cp_face1 (flat_map ct_collisions two_contacts) = [1; 2] /\
  map is_pinned sample_verts = [true; false; false] /\
  option_map
    (fun cloth' => (map vert_impulse_count (cloth_verts cloth'),
                    option_map id_constraints (cloth_implicit cloth')))
    (cloth_setup_constraints sample_cloth two_contacts (1 # 4))
  = Some ([0; 1; 1],
          Some [ndof0 0 ZERO; ndof2 0 (mk_vec3 0 0 1) (mk_vec3 0 0 1);
                ndof2 0 (mk_vec3 0 0 1) (mk_vec3 0 0 1)]).
Proof. repeat split; vm_compute; reflexivity. Qed.

(** A deep contact with restitution 1/2: bounce 1/2, raw repulsion 3,
    clamped to 2. *)
Lemma C4_repulse_clamp_witness :
  (0 <= ALMOST_ZERO)%Q /\
  lookup_vert (cloth_verts sample_cloth) (cp_ap1 (sample_contact 2 (- (1 # 2)) 0))
    = Some (sample_vert 0 (mk_vec3 0 0 (-1)) (mk_vec3 0 1 0) (mk_vec3 0 1 0)) /\
  collision_response sample_cloth (sample_collmd (1 # 4)) (sample_contact 2 (- (1 # 2)) 0)
    (1 # 4) (1 # 2) = Some (true, mk_vec3 (0 # 2) (0 # 2) (6 # 2)) /\
  (0 <= CLAMP (- margin_distance (sample_collmd (1 # 4)) (sample_contact 2 (- (1 # 2)) 0)
                 / (1 # 4)) 0
          (4 * (- v_nor_old (sample_vert 0 (mk_vec3 0 0 (-1)) (mk_vec3 0 1 0) (mk_vec3 0 1 0))
                    (sample_collmd (1 # 4)) (sample_contact 2 (- (1 # 2)) 0) * (1 # 2)))
     <= 4 * (- v_nor_old (sample_vert 0 (mk_vec3 0 0 (-1)) (mk_vec3 0 1 0) (mk_vec3 0 1 0))
                 (sample_collmd (1 # 4)) (sample_contact 2 (- (1 # 2)) 0) * (1 # 2)))%Q.
Proof.
  assert (Hzero : (0 <= ALMOST_ZERO)%Q) by (vm_compute; discriminate).
  split; [exact Hzero|]. split; [reflexivity|]. split; [vm_compute; reflexivity|].
  assert (Hrest : (0 <= 1 # 2)%Q) by (vm_compute; discriminate).
  exact (proj1 (proj2 (proj1 (proj2
           (C4_repulse_clamp sample_cloth (sample_collmd (1 # 4))
              (sample_contact 2 (- (1 # 2)) 0) (1 # 4) (1 # 2) _ _
              Hzero eq_refl ltac:(vm_compute; reflexivity))) Hrest))).
Defined.

(** A contact flagged as in the future gives no impulse. *)
Lemma C5_no_impulse_preconditions_witness :
  (0 <= ALMOST_ZERO)%Q /\
  has_flag (cp_flag (sample_contact 1 0 2)) COLLISION_IN_FUTURE = true /\
  collision_response sample_cloth (sample_collmd (1 # 4)) (sample_contact 1 0 2) (1 # 4) 0
    = Some (false, ZERO).
Proof.
  assert (Hzero : (0 <= ALMOST_ZERO)%Q) by (vm_compute; discriminate).
  split; [exact Hzero|]. split; [reflexivity|].
  exact (proj1 (C5_no_impulse_preconditions sample_cloth (sample_collmd (1 # 4))
                  (sample_contact 1 0 2) (1 # 4) 0 Hzero) eq_refl).
Defined.


(** Two successful substeps with errors 1/10 and 3/10 after 4 and 6
    iterations. *)
Lemma C7_result_aggregation_witness :
  BPH_SOLVER_SUCCESS <> 0 /\
  0 < 2 /\
  Z.of_nat (length sample_results) = 2 /\
  Forall (fun r => res_status r = BPH_SOLVER_SUCCESS) sample_results /\
  (sres_avg_error
     (record_all (cloth_clear_result (mk_ClothSolverResult 9 9 9 9 9 9 9)) sample_results 2)
   == Qsum (map res_error sample_results) / inject_Z (Z.of_nat (length sample_results)))%Q.
Proof.
  assert (Hsucc : BPH_SOLVER_SUCCESS <> 0) by (cbn; lia).
  assert (Hall : Forall (fun r => res_status r = BPH_SOLVER_SUCCESS) sample_results)
    by (repeat constructor).
  split; [exact Hsucc|]. split; [lia|]. split; [reflexivity|]. split; [exact Hall|].
  exact (proj1 (C7_result_aggregation (mk_ClothSolverResult 9 9 9 9 9 9 9) sample_results 2
                  Hsucc ltac:(lia) eq_refl Hall)).
Defined.

(** A cloth whose solver has its vertex count: no allocator call. *)
Lemma C8_solver_reuse_witness :
  cloth_implicit sample_cloth = Some (BPH_mass_spring_solver_create 3 8) /\
  BPH_mass_spring_solver_numvert (BPH_mass_spring_solver_create 3 8)
    = cloth_numverts sample_cloth /\
  snd (BPH_cloth_solver_init sample_cloth) = [].
Proof.
  split; [reflexivity|]. split; [reflexivity|].
  exact (proj1 (proj1 (proj2 (C8_solver_reuse sample_cloth) _ eq_refl eq_refl))).
Defined.

(** The accepted contact of [one_contact]: its impulse is the normal
    scaled by minus the new normal velocity. *)
Lemma C9_zero_restitution_witness :
  exists cloth' data',
    cloth_setup_constraints sample_cloth one_contact (1 # 4) = Some cloth' /\
    cloth_implicit cloth' = Some data' /\
    In (ndof2 0 (mk_vec3 0 0 1) (mk_vec3 0 0 1)) (id_constraints data') /\
    exists ct collpair vert,
      In ct one_contact /\
      In collpair (ct_collisions ct) /\
      lookup_vert (cloth_verts sample_cloth) (cp_ap1 collpair) = Some vert /\
      veq (mk_vec3 0 0 1)
          (mul_v3_v3fl (cp_normal collpair) (- v_nor_new vert (ct_collmd ct) collpair)%Q).
Proof.
  destruct (cloth_setup_constraints sample_cloth one_contact (1 # 4)) as [cloth'|] eqn:Hsetup;
    [|vm_compute in Hsetup; discriminate].
  destruct (cloth_implicit cloth') as [data'|] eqn:Hdata.
  - assert (Hcs : id_constraints data'
                  = [ndof0 0 ZERO; ndof2 0 (mk_vec3 0 0 1) (mk_vec3 0 0 1)]).
    { pose proof one_contact_setup as Heval.
      rewrite Hsetup in Heval. cbn [option_map] in Heval. rewrite Hdata in Heval.
      cbn [option_map] in Heval. congruence. }
    assert (Hin : In (ndof2 0 (mk_vec3 0 0 1) (mk_vec3 0 0 1)) (id_constraints data')).
    { rewrite Hcs. right. left. reflexivity. }
    exists cloth', data'. split; [reflexivity|]. split; [exact Hdata|]. split; [exact Hin|].
    destruct (proj2 (proj2 (C9_zero_restitution sample_cloth one_contact (1 # 4)))
                cloth' data' 0 _ _ Hsetup Hdata Hin)
      as (ct & collpair & vert & Hct & Hcp & Hvert & _ & _ & Hveq).
    exists ct, collpair, vert. auto.
  - exfalso. pose proof one_contact_setup as Heval.
    rewrite Hsetup in Heval. cbn [option_map] in Heval. rewrite Hdata in Heval.
    discriminate.
Defined.

(** Five substeps requested: three passes of the body. *)
Lemma C10_strands_two_steps_per_pass_witness :
  ~ (hair_timescale (mk_HairSimParams 1 5) == 0)%Q /\
  1 <= hair_substeps (mk_HairSimParams 1 5) /\
  exists strands',
    BPH_strands_solve 10 sample_strands tt (BPH_mass_spring_solver_create 2 3)
      (mk_HairSimParams 1 5) 2 1 tt
    = Some (true, strands',
            strands_passes sample_strands tt (mk_HairSimParams 1 5) 2 tt
              (float_div 1 (float_of_int 5))
              ((FRA2TIME tt 2 - FRA2TIME tt 1) * 1 * float_div 1 (float_of_int 5)) 0 3
              (strands_calc_root_velocity sample_strands tt
                 (strands_init_loop tt 0 (strands_state sample_strands)
                    (BPH_mass_spring_solver_create 2 3))
                 ((FRA2TIME tt 2 - FRA2TIME tt 1) * 1))).
Proof.
  assert (Hts : ~ (hair_timescale (mk_HairSimParams 1 5) == 0)%Q)
    by (intros Heq; vm_compute in Heq; discriminate).
  assert (Hn : 1 <= hair_substeps (mk_HairSimParams 1 5)) by (cbn; lia).
  split; [exact Hts|]. split; [exact Hn|].
  destruct (@C10_strands_two_steps_per_pass sample_collaborators sample_strand_collaborators
              sample_strands tt (BPH_mass_spring_solver_create 2 3)
              (mk_HairSimParams 1 5) 2 1 tt Hts Hn) as (_ & _ & Hret & Hnear & _).
  destruct (Hnear ltac:(cbn; lia)) as [Hends | [Heven _]]; [|discriminate Heven].
  exact (Hret 3%nat 10%nat Hends ltac:(lia)).
Defined.

(** Twelve substeps requested: the float sum of twelve steps of
    [1 / 12] is still below 1, and the body runs seven times, not
    six.  Each pass of the sample strand collaborators appends one
    constraint. *)
Lemma C10_seven_passes_for_twelve :
  Z.to_nat ((12 + 1) / 2) = 6%nat /\
  Qltb (strands_step_at (float_div 1 (float_of_int 12)) 6) 1 = true /\
  strands_loop_ends (float_div 1 (float_of_int 12)) 7 /\
  option_map (fun r => (fst (fst r), length (id_constraints (snd r))))
    (BPH_strands_solve 10 sample_strands tt (BPH_mass_spring_solver_create 2 3)
       (mk_HairSimParams 1 12) 2 1 tt)
  = Some (true, 7%nat).
Proof.
  split; [reflexivity|]. split; [vm_compute; reflexivity|]. split.
  - split.
    + intros j Hj. do 7 (destruct j as [|j]; [vm_compute; reflexivity|]). lia.
    + vm_compute. discriminate.
  - vm_compute. reflexivity.
Qed.

#[local] Existing Instance sample_continuum_params.
#[local] Existing Instance sample_strand_constants.

(** The four sample springs split two and two: between 4 and 12 blocks. *)
Lemma X4_nondiag_count_bounds_and_append_witness :
  cloth_springs sample_cloth_new
    = [mk_ClothSpring 0 1 2 64; mk_ClothSpring 0 1 0 2]
      ++ [mk_ClothSpring 1 2 0 8; mk_ClothSpring 0 1 2 64] /\
  3 * Z.of_nat (length (cloth_springs sample_cloth_new)) <= INT_MAX /\
  4 <= cloth_count_nondiag_blocks sample_cloth_new <= 12.
Proof.
  assert (Hmax : 3 * Z.of_nat (length (cloth_springs sample_cloth_new)) <= INT_MAX)
    by (unfold INT_MAX; cbn; lia).
  split; [reflexivity|]. split; [exact Hmax|].
  exact (proj1 (X4_nondiag_count_bounds_and_append sample_cloth_new
                  [mk_ClothSpring 0 1 2 64; mk_ClothSpring 0 1 0 2]
                  [mk_ClothSpring 1 2 0 8; mk_ClothSpring 0 1 2 64] eq_refl Hmax)).
Defined.

(** The set-up on [several_contacts] leaves the springs alone. *)
Lemma X5_setup_constraints_frame_witness :
  exists cloth',
    cloth_setup_constraints sample_cloth several_contacts (1 # 4) = Some cloth' /\
    cloth_springs cloth' = cloth_springs sample_cloth.
Proof.
  destruct (cloth_setup_constraints sample_cloth several_contacts (1 # 4)) as [cloth'|]
    eqn:Hsetup; [|vm_compute in Hsetup; discriminate].
  exists cloth'. split; [reflexivity|].
  destruct (X5_setup_constraints_frame sample_cloth several_contacts (1 # 4) cloth' Hsetup)
    as (data & data' & _ & _ & _ & Hsprings & _).
  exact Hsprings.
Defined.

(** The set-up on [several_contacts], run twice. *)
Lemma X6_setup_constraints_idempotent_witness :
  exists cloth',
    cloth_setup_constraints sample_cloth several_contacts (1 # 4) = Some cloth' /\
    cloth_setup_constraints cloth' several_contacts (1 # 4) = Some cloth'.
Proof.
  destruct (cloth_setup_constraints sample_cloth several_contacts (1 # 4)) as [cloth'|]
    eqn:Hsetup; [|vm_compute in Hsetup; discriminate].
  exists cloth'. split; [reflexivity|].
  exact (X6_setup_constraints_idempotent sample_cloth several_contacts (1 # 4) cloth' Hsetup).
Defined.

(** The contact on vertex 2 of the only collider: its constraint is
    under index 0. *)
Lemma X7_contact_constraints_indexed_by_collider_witness :
  exists cloth' data',
    cloth_setup_constraints sample_cloth one_contact (1 # 4) = Some cloth' /\
    cloth_implicit cloth' = Some data' /\
    In (ndof2 0 (mk_vec3 0 0 1) (mk_vec3 0 0 1)) (id_constraints data') /\
    0 <= 0 < Z.of_nat (length one_contact).
Proof.
  destruct (cloth_setup_constraints sample_cloth one_contact (1 # 4)) as [cloth'|] eqn:Hsetup;
    [|vm_compute in Hsetup; discriminate].
  destruct (cloth_implicit cloth') as [data'|] eqn:Hdata.
  - assert (Hcs : id_constraints data'
                  = [ndof0 0 ZERO; ndof2 0 (mk_vec3 0 0 1) (mk_vec3 0 0 1)]).
    { pose proof one_contact_setup as Heval.
      rewrite Hsetup in Heval. cbn [option_map] in Heval. rewrite Hdata in Heval.
      cbn [option_map] in Heval. congruence. }
    assert (Hin : In (ndof2 0 (mk_vec3 0 0 1) (mk_vec3 0 0 1)) (id_constraints data')).
    { rewrite Hcs. right. left. reflexivity. }
    exists cloth', data'. split; [reflexivity|]. split; [exact Hdata|]. split; [exact Hin|].
    exact (proj1 (X7_contact_constraints_indexed_by_collider sample_cloth one_contact (1 # 4)
                    cloth' data' 0 _ _ Hsetup Hdata Hin)).
  - exfalso. pose proof one_contact_setup as Heval.
    rewrite Hsetup in Heval. cbn [option_map] in Heval. rewrite Hdata in Heval.
    discriminate.
Defined.

(** The deep contact on vertex 2 with restitution 1/2: the vertex
    leaves along the normal. *)
Lemma X8_response_separates_witness :
  (0 <= ALMOST_ZERO)%Q /\
  (0 <= 1 # 2)%Q /\
  (dot_v3v3 (cp_normal (sample_contact 2 (- (1 # 2)) 0))
     (cp_normal (sample_contact 2 (- (1 # 2)) 0)) == 1)%Q /\
  lookup_vert (cloth_verts sample_cloth) (cp_ap1 (sample_contact 2 (- (1 # 2)) 0))
    = Some (sample_vert 0 (mk_vec3 0 0 (-1)) (mk_vec3 0 1 0) (mk_vec3 0 1 0)) /\
  collision_response sample_cloth (sample_collmd (1 # 4)) (sample_contact 2 (- (1 # 2)) 0)
    (1 # 4) (1 # 2) = Some (true, mk_vec3 (0 # 2) (0 # 2) (6 # 2)) /\
  (0 <= dot_v3v3
          (sub_v3_v3v3
             (madd_v3_v3v3fl
                (vert_v (sample_vert 0 (mk_vec3 0 0 (-1)) (mk_vec3 0 1 0) (mk_vec3 0 1 0)))
                (mk_vec3 (0 # 2) (0 # 2) (6 # 2)) 1)
             (snd (collision_get_collider_velocity (sample_collmd (1 # 4))
                     (sample_contact 2 (- (1 # 2)) 0))))
          (cp_normal (sample_contact 2 (- (1 # 2)) 0)))%Q.
Proof.
  assert (Hzero : (0 <= ALMOST_ZERO)%Q) by (vm_compute; discriminate).
  assert (Hrest : (0 <= 1 # 2)%Q) by (vm_compute; discriminate).
  assert (Hunit : (dot_v3v3 (cp_normal (sample_contact 2 (- (1 # 2)) 0))
                     (cp_normal (sample_contact 2 (- (1 # 2)) 0)) == 1)%Q)
    by (vm_compute; reflexivity).
  split; [exact Hzero|]. split; [exact Hrest|]. split; [exact Hunit|].
  split; [reflexivity|]. split; [vm_compute; reflexivity|].
  exact (proj1 (X8_response_separates sample_cloth (sample_collmd (1 # 4))
                  (sample_contact 2 (- (1 # 2)) 0) (1 # 4) (1 # 2) _ _
                  Hzero Hrest Hunit eq_refl ltac:(vm_compute; reflexivity))).
Defined.

(** Two results over two steps, recorded into a record in use. *)
Lemma X9_record_result_averages_witness :
  2 <> 0 /\
  (sres_avg_iterations (record_all (mk_ClothSolverResult 9 9 9 9 9 9 9) sample_results 2)
   == 9 + inject_Z (Zsum (map res_iterations sample_results)) / inject_Z 2)%Q.
Proof.
  assert (Hsteps : 2 <> 0) by lia.
  split; [exact Hsteps|].
  exact (proj1 (X9_record_result_averages (mk_ClothSolverResult 9 9 9 9 9 9 9) sample_results 2
                  Hsteps)).
Defined.

(** A failed solve (status 4) followed by two successful ones with
    errors 1/10 and 3/10: the least error reported is 0. *)
Lemma X10_record_result_min_after_failure_witness :
  res_status (mk_ImplicitSolverResult 4 10 (1 # 2)) <> BPH_SOLVER_SUCCESS /\
  res_status (mk_ImplicitSolverResult 4 10 (1 # 2)) <> 0 /\
  Forall (fun r => (0 <= res_error r)%Q) sample_results /\
  (sres_min_error
     (record_all (cloth_clear_result (mk_ClothSolverResult 9 9 9 9 9 9 9))
        (mk_ImplicitSolverResult 4 10 (1 # 2) :: sample_results) 2) == 0)%Q.
Proof.
  assert (Hfail : res_status (mk_ImplicitSolverResult 4 10 (1 # 2)) <> BPH_SOLVER_SUCCESS)
    by (cbn; lia).
  assert (Hnz : res_status (mk_ImplicitSolverResult 4 10 (1 # 2)) <> 0) by (cbn; lia).
  assert (Hpos : Forall (fun r => (0 <= res_error r)%Q) sample_results)
    by (repeat constructor; vm_compute; discriminate).
  split; [exact Hfail|]. split; [exact Hnz|]. split; [exact Hpos|].
  exact (proj1 (X10_record_result_min_after_failure (mk_ClothSolverResult 9 9 9 9 9 9 9)
                  (mk_ImplicitSolverResult 4 10 (1 # 2)) sample_results 2 Hfail Hnz Hpos)).
Defined.

(** The sample frame of two substeps: two results recorded. *)
Lemma X15_cloth_solve_records_each_substep_witness :
  exists clmd',
    BPH_cloth_solve 3 0 sample_clmd = Some clmd' /\
    exists results,
      length results = 2%nat /\
      clmd_solver_result clmd'
        = Some (record_all (cloth_clear_result (mk_ClothSolverResult 9 9 9 9 9 9 9)) results 2).
Proof.
  destruct (BPH_cloth_solve 3 0 sample_clmd) as [clmd'|] eqn:Hsolve;
    [|vm_compute in Hsolve; discriminate].
  exists clmd'. split; [reflexivity|].
  destruct (X15_cloth_solve_records_each_substep sample_clmd 0 3%nat clmd' Hsolve)
    as (k & results & _ & Hlen & _ & Hrec & _ & Hpow).
  exists results. split; [|apply Hrec].
  rewrite Hlen. apply Nat2Z.inj.
  exact (Hpow ltac:(reflexivity) 1 ltac:(lia) eq_refl).
Defined.

(** The sample frame: the settings come back as they went in. *)
Lemma X16_cloth_solve_copies_back_witness :
  exists clmd',
    BPH_cloth_solve 3 0 sample_clmd = Some clmd' /\
    clmd_sim_parms clmd' = clmd_sim_parms sample_clmd.
Proof.
  destruct (BPH_cloth_solve 3 0 sample_clmd) as [clmd'|] eqn:Hsolve;
    [|vm_compute in Hsolve; discriminate].
  exists clmd'. split; [reflexivity|].
  exact (proj1 (proj2 (X16_cloth_solve_copies_back sample_clmd 0 3%nat clmd' Hsolve))).
Defined.

(** A frame with time scale zero: a cleared result and no substep. *)
Lemma X17_cloth_solve_no_substep_witness :
  (sim_timescale (clmd_sim_parms sample_clmd_still) <= 0)%Q /\
  cloth_implicit (clmd_clothObject sample_clmd_still)
    = Some (BPH_mass_spring_solver_create 3 8) /\
  exists clmd',
    BPH_cloth_solve 1 0 sample_clmd_still = Some clmd' /\
    clmd_solver_result clmd' = Some (mk_ClothSolverResult 0 0 0 0 0 0 0).
Proof.
  assert (Htf : (sim_timescale (clmd_sim_parms sample_clmd_still) <= 0)%Q)
    by (vm_compute; discriminate).
  split; [exact Htf|]. split; [reflexivity|].
  destruct (X17_cloth_solve_no_substep sample_clmd_still 0 0%nat _ Htf eq_refl)
    as (clmd' & Hsolve & Hres & _).
  exists clmd'. auto.
Defined.

(** A strand solve of five substeps answers [true]; one asked for
    with time scale zero answers [false] without fuel. *)
Lemma X18_strands_solve_outcome_witness :
  (exists strands' id',
     BPH_strands_solve 10 sample_strands tt (BPH_mass_spring_solver_create 2 3)
       (mk_HairSimParams 1 5) 2 1 tt = Some (true, strands', id')) /\
  BPH_strands_solve 0 sample_strands tt (BPH_mass_spring_solver_create 2 3)
    (mk_HairSimParams 0 5) 2 1 tt
    = Some (false, sample_strands, BPH_mass_spring_solver_create 2 3).
Proof.
  split.
  - assert (Hts : ~ (hair_timescale (mk_HairSimParams 1 5) == 0)%Q)
      by (intros Heq; vm_compute in Heq; discriminate).
    assert (Hn : 1 <= hair_substeps (mk_HairSimParams 1 5)) by (cbn; lia).
    assert (Hmax : hair_substeps (mk_HairSimParams 1 5) <= 1024) by (cbn; lia).
    assert (Hfuel : (hair_substeps (mk_HairSimParams 1 5) + 1) / 2 + 1 < Z.of_nat 10)
      by (vm_compute; reflexivity).
    exact (proj2 (proj2 (proj2
             (X18_strands_solve_outcome sample_strands tt (BPH_mass_spring_solver_create 2 3)
                (mk_HairSimParams 1 5) 2 1 tt) Hts Hn))
             Hmax 10%nat Hfuel).
  - assert (Hts : (hair_timescale (mk_HairSimParams 0 5) == 0)%Q) by reflexivity.
    exact (proj1
             (X18_strands_solve_outcome sample_strands tt (BPH_mass_spring_solver_create 2 3)
                (mk_HairSimParams 0 5) 2 1 tt)
             (or_introl Hts) 0%nat).
Defined.

(** The second motion state of the sample strands. *)
Lemma X19_strands_init_in_world_space_witness :
  strands_state sample_strands !! 1%nat = Some (mk_StrandsMotionState (mk_vec3 0 0 1) ZERO) /\
  BPH_mass_spring_get_position
    (strands_init_loop tt 0 (strands_state sample_strands) (BPH_mass_spring_solver_create 2 3))
    (Z.of_nat 1)
  = mul_m4_v3 tt (state_co (mk_StrandsMotionState (mk_vec3 0 0 1) ZERO)).
Proof.
  split; [reflexivity|].
  exact (proj1 (X19_strands_init_in_world_space tt (strands_state sample_strands)
                  (BPH_mass_spring_solver_create 2 3) 1%nat _ eq_refl)).
Defined.

(** Four springs, three of them structural: three segments. *)
Lemma X20_fill_grid_one_segment_per_structural_spring_witness :
  cloth_implicit sample_hair_cloth = Some sample_hair_solver /\
  (length (cloth_springs sample_hair_cloth) < 6)%nat /\
  exists segs,
    cloth_continuum_fill_grid 6 1 ZERO sample_hair_cloth []
      = Some ([] ++ map grid_add_segment segs ++ [grid_normalize_vertex_grid]) /\
    map segment_ends segs
      = map (spring_ends sample_hair_solver (grid_cell_scale 1) (grid_cell_offset 1 ZERO))
          (List.filter is_structural (cloth_springs sample_hair_cloth)).
Proof.
  assert (Hfuel : (length (cloth_springs sample_hair_cloth) < 6)%nat) by (cbn; lia).
  split; [reflexivity|]. split; [exact Hfuel|].
  exact (X20_fill_grid_one_segment_per_structural_spring 6 1 ZERO sample_hair_cloth
           sample_hair_solver [] eq_refl Hfuel).
Defined.

(** The first segment of the sample hair is consistent. *)
Lemma X21_fill_grid_segments_well_formed_witness :
  exists grid',
    cloth_continuum_fill_grid 6 1 ZERO sample_hair_cloth [] = Some grid' /\
    (length (cloth_springs sample_hair_cloth) < 6)%nat /\
    In (grid_add_segment sample_first_segment) grid' /\
    segment_well_formed sample_first_segment.
Proof.
  assert (Hfuel : (length (cloth_springs sample_hair_cloth) < 6)%nat) by (cbn; lia).
  destruct (cloth_continuum_fill_grid 6 1 ZERO sample_hair_cloth []) as [grid'|] eqn:Hfill;
    [|vm_compute in Hfill; discriminate].
  assert (Hin : In (grid_add_segment sample_first_segment) grid').
  { unfold sample_first_segment. rewrite Hfill.
    assert (Hv : cloth_continuum_fill_grid 6 1 ZERO sample_hair_cloth [] = Some grid')
      by exact Hfill.
    vm_compute in Hv. injection Hv as <-. left. reflexivity. }
  exists grid'. split; [reflexivity|]. split; [exact Hfuel|]. split; [exact Hin|].
  exact (X21_fill_grid_segments_well_formed 6 1 ZERO sample_hair_cloth grid'
           sample_first_segment Hfill Hfuel Hin).
Defined.

(** Two vertices on one curve: room for two springs. *)
Lemma X24_strands_solver_create_capacity_witness :
  5 * Z.of_nat (length (strands_state sample_strands)) <= INT_MAX /\
  2 * Z.of_nat (length (strands_curves sample_strands)) <= INT_MAX /\
  id_nondiag (BPH_strands_solver_create sample_strands) = 2.
Proof.
  assert (Hv : 5 * Z.of_nat (length (strands_state sample_strands)) <= INT_MAX)
    by (unfold INT_MAX; cbn; lia).
  assert (Hc : 2 * Z.of_nat (length (strands_curves sample_strands)) <= INT_MAX)
    by (unfold INT_MAX; cbn; lia).
  split; [exact Hv|]. split; [exact Hc|].
  exact (X24_strands_solver_create_capacity sample_strands Hv Hc).
Defined.

(** A painted weight of 3 with goal stiffness 1/2. *)
Lemma X25_goal_stiffness_bounded_witness :
  (0 <= hair_goal_stiffness (mk_HairGoalParams 0 (1 # 2) (fun t => t)))%Q /\
  (0 <= strands_goal_stiffness (mk_HairGoalParams 0 (1 # 2) (fun t => t)) 3 0
     <= hair_goal_stiffness (mk_HairGoalParams 0 (1 # 2) (fun t => t)))%Q.
Proof.
  assert (Hk : (0 <= hair_goal_stiffness (mk_HairGoalParams 0 (1 # 2) (fun t => t)))%Q)
    by (vm_compute; discriminate).
  split; [exact Hk|].
  exact (proj1 (X25_goal_stiffness_bounded (mk_HairGoalParams 0 (1 # 2) (fun t => t)) 3 0 Hk)).
Defined.

(** The sample hair: a strand of two segments, then one of a single
    segment. *)
Lemma X26_fill_grid_links_follow_list_order_witness :
  cloth_implicit sample_hair_cloth = Some sample_hair_solver /\
  (length (cloth_springs sample_hair_cloth) < 6)%nat /\
  exists grid',
    cloth_continuum_fill_grid 6 1 ZERO sample_hair_cloth [] = Some grid' /\
    map segment_flags (grid_segments grid') = [(false, true); (true, false); (false, false)].
Proof.
  assert (Hfuel : (length (cloth_springs sample_hair_cloth) < 6)%nat) by (cbn; lia).
  split; [reflexivity|]. split; [exact Hfuel|].
  destruct (cloth_continuum_fill_grid 6 1 ZERO sample_hair_cloth []) as [grid'|] eqn:Hfill;
    [|vm_compute in Hfill; discriminate].
  exists grid'. split; [reflexivity|].
  rewrite (X26_fill_grid_links_follow_list_order 6 1 ZERO sample_hair_cloth sample_hair_solver
             grid' eq_refl Hfuel Hfill).
  reflexivity.
Defined.

(** The sample frame of two substeps returns with fuel 4. *)
Lemma X27_cloth_solve_returns_witness :
  (pow2 (-100) <= sim_timescale (clmd_sim_parms sample_clmd) <= pow2 100)%Q /\
  1 <= sim_stepsPerFrame (clmd_sim_parms sample_clmd) <= 1024 /\
  contact_search_in_range /\
  sim_stepsPerFrame (clmd_sim_parms sample_clmd) + 1 < Z.of_nat 4 /\
  exists clmd', BPH_cloth_solve 4 0 sample_clmd = Some clmd'.
Proof.
  assert (Htf : (pow2 (-100) <= sim_timescale (clmd_sim_parms sample_clmd) <= pow2 100)%Q)
    by (split; vm_compute; discriminate).
  assert (Hn : 1 <= sim_stepsPerFrame (clmd_sim_parms sample_clmd) <= 1024) by (cbn; lia).
  assert (Hsearch : contact_search_in_range) by (intros cloth step dt; constructor).
  assert (Hfuel : sim_stepsPerFrame (clmd_sim_parms sample_clmd) + 1 < Z.of_nat 4)
    by (cbn; lia).
  split; [exact Htf|]. split; [exact Hn|]. split; [exact Hsearch|]. split; [exact Hfuel|].
  exact (X27_cloth_solve_returns sample_clmd 0 4%nat Htf Hn Hsearch Hfuel).
Defined.

(** The sample cloth handed to the solver and read back by a frame
    that makes no substep. *)
Lemma X28_set_positions_then_still_frame_witness :
  exists cloth1 evs,
    BPH_cloth_solver_set_positions None sample_cloth = Some (cloth1, evs) /\
    has_flag (sim_flags (mk_ClothSimSettings 0 2 0 1)) CLOTH_SIMSETTINGS_FLAG_GOAL = false /\
    (sim_timescale (mk_ClothSimSettings 0 2 0 1) <= 0)%Q /\
    exists clmd',
      BPH_cloth_solve 1 0
        (mk_ClothModifierData cloth1 None (mk_ClothSimSettings 0 2 0 1)
           (mk_ClothCollSettings 0) None) = Some clmd' /\
      cloth_verts (clmd_clothObject clmd')
        = map (fun vert => set_vert_txold vert (vert_x vert)) (cloth_verts sample_cloth).
Proof.
  destruct (BPH_cloth_solver_set_positions None sample_cloth) as [[cloth1 evs]|] eqn:Hset;
    [|vm_compute in Hset; discriminate].
  assert (Hgoal : has_flag (sim_flags (mk_ClothSimSettings 0 2 0 1))
                    CLOTH_SIMSETTINGS_FLAG_GOAL = false) by reflexivity.
  assert (Htf : (sim_timescale (mk_ClothSimSettings 0 2 0 1) <= 0)%Q)
    by (vm_compute; discriminate).
  exists cloth1, evs. split; [reflexivity|]. split; [exact Hgoal|]. split; [exact Htf|].
  exact (X28_set_positions_then_still_frame None sample_cloth cloth1 evs
           (mk_ClothModifierData cloth1 None (mk_ClothSimSettings 0 2 0 1)
              (mk_ClothCollSettings 0) None) 0 0%nat Hset eq_refl Hgoal Htf).
Defined.

(** Twelve steps per frame: thirteen passes.  On the sample frame the
    thirteen results of 4 iterations give an average of 13 * 4 / 12
    iterations, and the pinned vertex 0, bound for (2, 0, 0), ends
    beyond it. *)
Lemma X29_cloth_solve_float_passes_witness :
  cloth_loop_ends 1 (float_div 1 (float_of_int 12)) 13 /\
  option_map
    (fun clmd' =>
       (option_map (fun sres => Qred (sres_avg_iterations sres)) (clmd_solver_result clmd'),
        option_map (fun vert => Qltb 2 (vx (vert_x vert)))
          (cloth_verts (clmd_clothObject clmd') !! 0%nat)))
    (BPH_cloth_solve 14 0 (sample_clmd_steps 12))
  = Some (Some (13 # 3), Some true) /\
  BPH_cloth_solve 5 0 (sample_clmd_steps (2 ^ 25)) = None.
Proof.
  split; [|split].
  - assert (Htf : (sim_timescale (clmd_sim_parms (sample_clmd_steps 12)) == 1)%Q)
      by reflexivity.
    exact (proj1 (X29_cloth_solve_float_passes (sample_clmd_steps 12) 0) Htf eq_refl).
  - vm_compute. reflexivity.
  - assert (Htf : (sim_timescale (clmd_sim_parms (sample_clmd_steps (2 ^ 25))) == 1)%Q)
      by reflexivity.
    exact (proj1 (proj2 (X29_cloth_solve_float_passes (sample_clmd_steps (2 ^ 25)) 0)
                    Htf eq_refl) 5%nat).
Defined.

(** Five contacts on three vertices: each vertex ends with at most one
    accepted contact. *)
Lemma X30_setup_constraints_impulse_counts_witness :
  cloth_implicit sample_cloth = Some (BPH_mass_spring_solver_create 3 8) /\
  contacts_in_range (length (cloth_verts sample_cloth)) several_contacts /\
  exists cloth',
    cloth_setup_constraints sample_cloth several_contacts (1 # 4) = Some cloth' /\
    exists data' accepted,
      cloth_implicit cloth' = Some data' /\
      id_constraints data' = pinned_constraints 0 (cloth_verts sample_cloth) ++ accepted /\
      Z.of_nat (length accepted) = impulse_total (cloth_verts cloth') /\
      forall (v : nat) vert',
        cloth_verts cloth' !! v = Some vert' ->
        (0 <= vert_impulse_count vert' <= 1) /\
        (is_pinned vert' = true -> vert_impulse_count vert' = 0).
Proof.
  assert (Hrange : contacts_in_range (length (cloth_verts sample_cloth)) several_contacts).
  { repeat constructor; cbn; lia. }
  split; [reflexivity|]. split; [exact Hrange|].
  destruct (X30_setup_constraints_impulse_counts sample_cloth several_contacts (1 # 4))
    as (Htotal & _ & Hafter).
  destruct (Htotal _ eq_refl Hrange) as [cloth' Hsetup].
  exists cloth'. split; [exact Hsetup|].
  destruct (Hafter cloth' Hsetup)
    as (data' & accepted & Hdata & Hcs & _ & Hlen & _ & Hcounts & _).
  exists data', accepted. auto.
Defined.

(** The sample cloth under a collision pass that asks for the extra
    solve, at 4 steps per frame and time scale 1/2: the free vertex 1
    is handed its corrected velocity times 8, the pinned vertex 0
    keeps the new velocity the solver had. *)
Lemma X13_extra_solve_skips_pinned_witness :
  has_flag (coll_flags (clmd_coll_parms sample_clmd_colliding))
    CLOTH_COLLSETTINGS_FLAG_ENABLED = true /\
  cloth_has_bvhtree (clmd_clothObject sample_clmd_colliding) = true /\
  snd (@cloth_bvh_objcollision sample_colliding
         (cloth_of (clmd_clothObject sample_clmd_colliding)
            (extra_current_verts sample_verts sample_hair_solver) sample_hair_solver)
         (0 / (1 # 2))%Q ((1 # 8) / (1 # 2))%Q) = true /\
  exists id1,
    BPH_mass_spring_get_new_velocity id1 1
      = mul_v3_v3fl (mk_vec3 (0 - 1) (0 - 0) (0 - 0)) (inject_Z 4 / (1 # 2)) /\
    BPH_mass_spring_get_new_velocity id1 0
      = BPH_mass_spring_get_new_velocity sample_hair_solver 0.
Proof.
  split; [reflexivity|]. split; [reflexivity|]. split; [reflexivity|].
  destruct (@X13_extra_solve_skips_pinned blender_constants sample_colliding
              sample_clmd_colliding 0 0 (1 # 8) sample_verts
              sample_hair_solver eq_refl eq_refl eq_refl)
    as (id1 & _ & Hat & _).
  exists id1. split.
  - exact (proj2 (Hat 1%nat _ eq_refl)).
  - exact (proj2 (Hat 0%nat _ eq_refl)).
Defined.
